(** * ODS v9.2: shortcut store and modal session state

    A shallow embedding of [src/core/storage/shortcut-store.js]
    (class [ShortcutDataStore]) and of the [ModalState] class of
    [src/modal/ods.modal.js], together with the properties their
    specification states about them; and, beyond the specification, of the
    orchestrator [ModalSystem] of the same file, of the shell
    ([src/js/shell.js]) and of the module settings panel, with the
    properties that their code shows.

    Conventions of the embedding.
    - JavaScript values are the tree-shaped values that [JSON.parse] yields,
      extended with [undefined] and [NaN]; numbers carry their integer value
      (the store only ever compares positions through the sign of a
      difference, and counts with array indices).
    - A JavaScript string is a sequence of code units; the model carries one
      [ascii] per code unit, so [String.length] is the [.length] of the
      source.
    - [localStorage], the clock, [JSON] and [String.prototype.toUpperCase]
      belong to the host, not to the repository: the storage and the clock
      are explicit arguments, the others are the fields of [Platform]. *)

From Stdlib Require Import ZArith Ascii String DecimalString Sorted.
From stdpp Require Import base option list strings gmap.

Set Warnings "-register-all".
Local Open Scope Z_scope.

(** ** JavaScript values and coercions *)

Module JS.

Inductive number : Type :=
| NaN
| Fin (z : Z).

Inductive value : Type :=
| VUndef
| VNull
| VBool (b : bool)
| VNum (n : number)
| VStr (s : string)
| VArr (xs : list value)
| VObj (fields : list (string * value)).

(** ToBoolean: the values that an [if], [!], [||] or a [filter] callback
    treats as true. *)
Definition truthy (v : value) : bool :=
  match v with
  | VUndef | VNull => false
  | VBool b => b
  | VNum NaN => false
  | VNum (Fin z) => negb (z =? 0)
  | VStr s => negb (String.eqb s "")
  | VArr _ | VObj _ => true
  end.

(** [a || b] *)
Definition or_else (a b : value) : value :=
  if truthy a then a else b.

(** [typeof v === 'object'] (which [null] and arrays satisfy too). *)
Definition typeof_object (v : value) : bool :=
  match v with
  | VNull | VArr _ | VObj _ => true
  | _ => false
  end.

Definition isArray (v : value) : bool :=
  match v with
  | VArr _ => true
  | _ => false
  end.

Fixpoint assoc (k : string) (fs : list (string * value)) : value :=
  match fs with
  | [] => VUndef
  | (k', v) :: rest => if String.eqb k k' then v else assoc k rest
  end.

(** [v.k] for the property names the store reads ([action], [target], [id],
    [label], ...): none of them is defined on arrays or on the wrappers of
    primitives, so only a plain object can answer. Reading a property of
    [null] or [undefined] throws; the store only does so behind [?.]. *)
Definition get (v : value) (k : string) : value :=
  match v with
  | VObj fs => assoc k fs
  | _ => VUndef
  end.

(** [v?.k] *)
Definition get_opt (v : value) (k : string) : value :=
  match v with
  | VUndef | VNull => VUndef
  | _ => get v k
  end.

Definition string_of_Z (z : Z) : string :=
  NilZero.string_of_int (Z.to_int z).

(** *** Strings *)

(** The code units that [\s] and [trim] treat as white space, within the
    range the model carries: TAB, LF, VT, FF, CR, SPACE and NBSP. *)
Definition is_ws (c : ascii) : bool :=
  let n := N_of_ascii c in
  ((9 <=? n) && (n <=? 13) || (n =? 32) || (n =? 160))%N.

Fixpoint ltrim (s : string) : string :=
  match s with
  | EmptyString => EmptyString
  | String c r => if is_ws c then ltrim r else s
  end.

Fixpoint rtrim (s : string) : string :=
  match s with
  | EmptyString => EmptyString
  | String c r =>
      match rtrim r with
      | EmptyString => if is_ws c then EmptyString else String c EmptyString
      | r' => String c r'
      end
  end.

(** [s.trim()] *)
Definition trim (s : string) : string := rtrim (ltrim s).

(** [s.split(/\s+/)]: [cur] is the piece being read, [in_sep] tells that
    the previous code unit belonged to a separator. *)
Fixpoint split_ws_from (cur : string) (in_sep : bool) (s : string) : list string :=
  match s with
  | EmptyString => [cur]
  | String c r =>
      if is_ws c then
        if in_sep then split_ws_from cur true r
        else cur :: split_ws_from "" true r
      else split_ws_from (cur +:+ String c "") false r
  end.

Definition split_ws (s : string) : list string := split_ws_from "" false s.

(** [w[0]] joined: [undefined] (an empty piece) contributes nothing to
    [join('')]. *)
Definition first_unit (w : string) : string :=
  match w with
  | EmptyString => ""
  | String c _ => String c ""
  end.

Definition all_nonspace (s : string) : Prop :=
  Forall (fun c => is_ws c = false) (list_ascii_of_string s).

(** The string is empty or starts with a visible code unit. *)
Definition starts_visible (s : string) : Prop :=
  match s with
  | EmptyString => True
  | String c _ => is_ws c = false
  end.

End JS.
Export JS.

(** ** The host platform *)

(** What the store takes from the JavaScript runtime. [JSON_parse] answers
    [None] where [JSON.parse] throws a [SyntaxError]. [NumberToString] is
    the text of a number beyond the safe integers, where the digits of a
    double are no longer those of the integer and the exponent form sets
    in. The two laws of [toUpperCase] are the facts about it that the store
    depends on. *)
Class Platform : Type := {
  JSON_parse : string -> option value;
  JSON_stringify : value -> string;
  StringToNumber : string -> number;
  NumberToString : Z -> string;
  toUpperCase : string -> string;
  toUpperCase_empty : toUpperCase "" = "";
  toUpperCase_nonspace : forall s, all_nonspace s -> all_nonspace (toUpperCase s)
}.

(** ** Conversions to a primitive

    [String(v)], [Number(v)] and a template literal convert an object
    through its [toString] and [valueOf]. An object that [JSON.parse] built
    has no callable member of its own, so a member named [toString] hides
    [Object.prototype.toString] and the conversion throws a [TypeError]
    ([None]); without such a member the text is ["[object Object]"]. An
    array is joined, which converts its elements in turn. *)

Module Convert.

(** The object has a member [k] of its own. *)
Definition has_own (k : string) (fs : list (string * value)) : bool :=
  existsb (fun kv => String.eqb k kv.1) fs.

(** [Number.MAX_SAFE_INTEGER + 1] *)
Definition safe_bound : Z := 9007199254740992.

Section WithPlatform.
Context {P : Platform}.

(** The text of an integer: its digits within the safe range. *)
Definition number_to_string (z : Z) : string :=
  if Z.abs z <=? safe_bound then string_of_Z z else NumberToString z.

(** [String(v)] *)
Fixpoint to_string (v : value) : option string :=
  match v with
  | VUndef => Some "undefined"
  | VNull => Some "null"
  | VBool true => Some "true"
  | VBool false => Some "false"
  | VNum NaN => Some "NaN"
  | VNum (Fin z) => Some (number_to_string z)
  | VStr s => Some s
  | VArr xs =>
      (fix join (l : list value) : option string :=
         match l with
         | [] => Some ""
         | x :: rest =>
             match
               match x with
               | VUndef | VNull => Some ""
               | _ => to_string x
               end
             with
             | None => None
             | Some piece =>
                 match rest with
                 | [] => Some piece
                 | _ :: _ =>
                     match join rest with
                     | None => None
                     | Some tail => Some (piece +:+ "," +:+ tail)
                     end
                 end
             end
         end) xs
  | VObj fs => if has_own "toString" fs then None else Some "[object Object]"
  end.

End WithPlatform.

End Convert.
Export Convert.

(** ** Modal session state ([ModalState], src/modal/ods.modal.js) *)

Module Modal.

Record ModalState : Type := {
  activeModalId : option string;
  activeModuleId : option string;
  openedAt : option Z;
  previousModalId : option string;
  isTransitioning : bool
}.

(** The constructor. *)
Definition init : ModalState :=
  {| activeModalId := None; activeModuleId := None; openedAt := None;
     previousModalId := None; isTransitioning := false |}.

Definition set_isTransitioning (b : bool) (s : ModalState) : ModalState :=
  {| activeModalId := activeModalId s; activeModuleId := activeModuleId s;
     openedAt := openedAt s; previousModalId := previousModalId s;
     isTransitioning := b |}.

Definition set_previousModalId (p : option string) (s : ModalState) : ModalState :=
  {| activeModalId := activeModalId s; activeModuleId := activeModuleId s;
     openedAt := openedAt s; previousModalId := p;
     isTransitioning := isTransitioning s |}.

Definition set_activeModalId (a : option string) (s : ModalState) : ModalState :=
  {| activeModalId := a; activeModuleId := activeModuleId s;
     openedAt := openedAt s; previousModalId := previousModalId s;
     isTransitioning := isTransitioning s |}.

Definition set_activeModuleId (a : option string) (s : ModalState) : ModalState :=
  {| activeModalId := activeModalId s; activeModuleId := a;
     openedAt := openedAt s; previousModalId := previousModalId s;
     isTransitioning := isTransitioning s |}.

Definition set_openedAt (t : option Z) (s : ModalState) : ModalState :=
  {| activeModalId := activeModalId s; activeModuleId := activeModuleId s;
     openedAt := t; previousModalId := previousModalId s;
     isTransitioning := isTransitioning s |}.

(** Truthiness of a field that holds [null] or a string. *)
Definition id_truthy (o : option string) : bool :=
  match o with
  | None => false
  | Some s => negb (String.eqb s "")
  end.

(** Truthiness of a field that holds [null] or a number. *)
Definition time_truthy (o : option Z) : bool :=
  match o with
  | None => false
  | Some t => negb (t =? 0)
  end.

(** [open(modalId, moduleId)]; [now] is the reading of [Date.now()]. *)
Definition open (s : ModalState) (modalId moduleId : string) (now : Z)
  : bool * ModalState :=
  if isTransitioning s || id_truthy (activeModalId s) then (false, s)
  else
    let s1 := set_isTransitioning true s in
    let s2 := set_previousModalId (activeModalId s1) s1 in
    let s3 := set_activeModalId (Some modalId) s2 in
    let s4 := set_activeModuleId (Some moduleId) s3 in
    let s5 := set_openedAt (Some now) s4 in
    let s6 := set_isTransitioning false s5 in
    (true, s6).

(** [close()] *)
Definition close (s : ModalState) (now : Z) : Z * ModalState :=
  let duration :=
    if time_truthy (openedAt s) then now - default 0 (openedAt s) else 0 in
  let s1 := set_activeModalId None s in
  let s2 := set_activeModuleId None s1 in
  let s3 := set_openedAt None s2 in
  (duration, s3).

(** [isActive()]: [activeModalId !== null]. *)
Definition isActive (s : ModalState) : bool :=
  match activeModalId s with
  | None => false
  | Some _ => true
  end.

(** The states a [ModalState] object can be in: the constructor followed by
    any calls of [open] and [close]. *)
Inductive reachable : ModalState -> Prop :=
| reach_init : reachable init
| reach_open s modalId moduleId now :
    reachable s -> reachable (snd (open s modalId moduleId now))
| reach_close s now :
    reachable s -> reachable (snd (close s now)).

(** The same as a recorded sequence of calls, oldest first. *)
Inductive call : Type :=
| Open (modalId moduleId : string) (now : Z)
| Close (now : Z).

Definition step (s : ModalState) (c : call) : ModalState :=
  match c with
  | Open modalId moduleId now => snd (open s modalId moduleId now)
  | Close now => snd (close s now)
  end.

Definition run (calls : list call) : ModalState := foldl step init calls.

(** The call opens a modal whose identifier is not the empty string. *)
Definition named (c : call) : Prop :=
  match c with
  | Open modalId _ _ => modalId <> ""%string
  | Close _ => True
  end.

End Modal.

(** ** The shortcut store ([ShortcutDataStore], src/core/storage/shortcut-store.js) *)

Module Store.

(** *** Records *)

Record Action : Type := {
  type : value;
  target : value
}.

(** The shape that [validateShortcuts] and [toggle] build. *)
Record Shortcut : Type := {
  id : value;
  label : string;
  enabled : bool;
  action : Action;
  position : Z;
  visible : bool;
  created_at : value;
  updated_at : value
}.

Definition set_label (l : string) (s : Shortcut) : Shortcut :=
  {| id := id s; label := l; enabled := enabled s; action := action s;
     position := position s; visible := visible s;
     created_at := created_at s; updated_at := updated_at s |}.

Definition set_enabled (e : bool) (s : Shortcut) : Shortcut :=
  {| id := id s; label := label s; enabled := e; action := action s;
     position := position s; visible := visible s;
     created_at := created_at s; updated_at := updated_at s |}.

Definition set_position (p : Z) (s : Shortcut) : Shortcut :=
  {| id := id s; label := label s; enabled := enabled s; action := action s;
     position := p; visible := visible s;
     created_at := created_at s; updated_at := updated_at s |}.

Definition set_updated_at (u : value) (s : Shortcut) : Shortcut :=
  {| id := id s; label := label s; enabled := enabled s; action := action s;
     position := position s; visible := visible s;
     created_at := created_at s; updated_at := u |}.

(** A record as the JavaScript object it is, keys in the order the source
    writes them. *)
Definition to_value (s : Shortcut) : value :=
  VObj [ ("id", id s);
         ("label", VStr (label s));
         ("enabled", VBool (enabled s));
         ("action", VObj [ ("type", type (action s));
                           ("target", target (action s)) ]);
         ("position", VNum (Fin (position s)));
         ("visible", VBool (visible s));
         ("created_at", created_at s);
         ("updated_at", updated_at s) ]%string.

Definition to_array (l : list Shortcut) : value := VArr (to_value <$> l).

(** *** localStorage, restricted to the key [STORAGE_KEY]

    [item] is the stored string ([None]: no entry). [getItem] throws when
    the storage is not [readable]; [setItem] throws (quota exceeded, storage
    disabled) when the storage does not accept the string. *)
Record Storage : Type := {
  item : option string;
  readable : bool;
  accepts : string -> bool
}.

(** A thrown exception is [None]. *)
Definition getItem (sto : Storage) : option (option string) :=
  if readable sto then Some (item sto) else None.

Definition setItem (sto : Storage) (v : string) : option Storage :=
  if accepts sto v
  then Some {| item := Some v; readable := readable sto; accepts := accepts sto |}
  else None.

(** The store: [this.cache] ([None] is [null]), the storage, and the
    [shortcuts-updated] events dispatched so far (their [detail.shortcuts]). *)
Record State : Type := {
  cache : option (list Shortcut);
  storage : Storage;
  events : list (list Shortcut)
}.

Definition set_cache (c : option (list Shortcut)) (st : State) : State :=
  {| cache := c; storage := storage st; events := events st |}.

(** The constructor, over a given storage. *)
Definition new (sto : Storage) : State :=
  {| cache := None; storage := sto; events := [] |}.

(** *** Array.prototype.sort

    The standard requires [sort] to be stable, and for a consistent
    comparator the stable result is unique: insertion from the right, a new
    element going before the first one it does not exceed, computes it. *)
Fixpoint insert_sorted {A : Type} (cmp : A -> A -> Z) (x : A) (l : list A) : list A :=
  match l with
  | [] => [x]
  | y :: rest =>
      if cmp x y <=? 0 then x :: l else y :: insert_sorted cmp x rest
  end.

Definition array_sort {A : Type} (cmp : A -> A -> Z) (l : list A) : list A :=
  foldr (insert_sorted cmp) [] l.

(** The comparator [(a, b) => key(a) - key(b)] and the order it sorts by. *)
Definition by_key {A : Type} (key : A -> Z) (a b : A) : Z := key a - key b.

Definition le_key {A : Type} (key : A -> Z) (a b : A) : Prop := key a <= key b.

(** [v === s] for a string [s]. *)
Definition strict_eq_string (v : value) (s : string) : bool :=
  match v with
  | VStr t => String.eqb t s
  | _ => false
  end.

(** The callback [s => s.action?.target === modalId]. *)
Definition targets (modalId : string) (s : Shortcut) : bool :=
  strict_eq_string (target (action s)) modalId.

(** [find] and [findIndex] at once: the first match and its index. *)
Definition find_target (modalId : string) (l : list Shortcut) : option (nat * Shortcut) :=
  list_find (fun s => targets modalId s = true) l.

Section WithPlatform.
Context {P : Platform}.

(** [Number(v)]; [None] where the conversion of an object throws. *)
Definition to_number (v : value) : option number :=
  match v with
  | VUndef => Some NaN
  | VNull => Some (Fin 0)
  | VBool b => Some (Fin (if b then 1 else 0))
  | VNum n => Some n
  | VStr s => Some (StringToNumber s)
  | VArr _ | VObj _ => StringToNumber <$> to_string v
  end.

(** [n || 0] on a number *)
Definition number_or_zero (n : number) : Z :=
  match n with
  | NaN => 0
  | Fin z => z
  end.

(** [generateDefaultLabel(title)] *)
Definition generateDefaultLabel (title : string) : string :=
  if String.eqb title "" then "XX"
  else
    let words := split_ws (trim title) in
    let letters := toUpperCase (String.concat "" (first_unit <$> words)) in
    let short := String.substring 0 3 letters in
    if String.eqb short "" then "XX" else short.

(** [validateLabel(label)]; [None] where [String(label)] throws. *)
Definition validateLabel (label : value) : option string :=
  if negb (truthy label) then Some "XX"
  else
    text ← to_string label;
    let cleaned := trim text in
    if String.eqb cleaned "" then Some "XX"
    else if (20 <? String.length cleaned)%nat then Some (String.substring 0 20 cleaned)
    else Some cleaned.

(** The [filter] callback of [validateShortcuts]:
    [s && typeof s === 'object' && s.action?.target]. *)
Definition keeps (s : value) : bool :=
  truthy s && typeof_object s && truthy (get_opt (get s "action") "target").

(** The [map] callback of [validateShortcuts]; [now] is the ISO string of
    the clock. The members are computed in the order of the object literal;
    the template literal of the default identifier is reached only when
    [s.id] is falsy. [None] when one of the three conversions throws: that
    of the target in the default identifier, [String(s.label)] or
    [Number(s.position)]. *)
Definition repair (now : string) (s : value) : option Shortcut :=
  let a := get s "action" in
  id' ← (if truthy (get s "id") then Some (get s "id")
         else (fun text => VStr ("shortcut-" +:+ text)) <$> to_string (get a "target"));
  label' ← validateLabel (get s "label");
  position' ← to_number (get s "position");
  Some {| id := id';
          label := label';
          enabled := truthy (get s "enabled");
          action := {| type := or_else (get a "type") (VStr "modal");
                       target := get a "target" |};
          position := number_or_zero position';
          visible := match get s "visible" with VBool false => false | _ => true end;
          created_at := or_else (get s "created_at") (VStr now);
          updated_at := or_else (get s "updated_at") (VStr now) |}.

(** [validateShortcuts(shortcuts)]; [None] when the [map] callback throws
    on one of the entries that the filter keeps. *)
Definition validateShortcuts (shortcuts : value) (now : string)
  : option (list Shortcut) :=
  match shortcuts with
  | VArr l => mapM (repair now) (filter (fun s => keeps s = true) l)
  | _ => Some []
  end.

(** [reindexPositions(shortcuts)] *)
Definition reindexPositions (shortcuts : list Shortcut) : list Shortcut :=
  imap (fun index shortcut => set_position (Z.of_nat index) shortcut)
       (array_sort (fun a b => position a - position b) shortcuts).

(** [dispatchChangeEvent(shortcuts)]: the event is appended to the log (in a
    browser neither [new CustomEvent] nor [dispatchEvent] throws). *)
Definition dispatchChangeEvent (shortcuts : list Shortcut) (st : State) : State :=
  {| cache := cache st; storage := storage st;
     events := events st ++ [shortcuts] |}.

(** The [try] block of [save]; [None] when it throws. *)
Definition save_try (st : State) (shortcuts : value) (now : string) : option State :=
  validated ← validateShortcuts shortcuts now;
  let reindexed := reindexPositions validated in
  sto ← setItem (storage st) (JSON_stringify (to_array reindexed));
  let st1 := {| cache := cache st; storage := sto; events := events st |} in
  let st2 := set_cache (Some reindexed) st1 in
  Some (dispatchChangeEvent reindexed st2).

(** [save(shortcuts)] *)
Definition save (st : State) (shortcuts : value) (now : string) : bool * State :=
  match save_try st shortcuts now with
  | Some st' => (true, st')
  | None => (false, st)
  end.

(** The [try] block of [load], entered when the cache is [null]. *)
Definition load_try (st : State) (now : string) : option (list Shortcut) :=
  rawData ← getItem (storage st);
  match rawData with
  | None | Some EmptyString => Some []
  | Some raw =>
      parsed ← JSON_parse raw;
      let shortcuts := if isArray parsed then parsed else VArr [] in
      validateShortcuts shortcuts now
  end.

(** [load()] *)
Definition load (st : State) (now : string) : list Shortcut * State :=
  match cache st with
  | Some c => (c, st)
  | None =>
      match load_try st now with
      | Some c => (c, set_cache (Some c) st)
      | None =>
          let st1 := set_cache (Some []) st in
          let st2 := snd (save st1 (VArr []) now) in
          (default [] (cache st2), st2)
      end
  end.

(** [getShortcut(modalId)] *)
Definition getShortcut (st : State) (modalId : string) (now : string)
  : option Shortcut * State :=
  let '(shortcuts, st1) := load st now in
  (snd <$> find_target modalId shortcuts, st1).


(** [toggle(modalId, enabled, modalTitle)]. [shortcuts] is the cache array
    itself, so [push] and the assignments to [shortcut] change the cache
    before [save] runs. The three clock readings are those of [load], of
    [toggle] and of [save]. *)
Definition toggle (st : State) (modalId : string) (enabled' : bool)
    (modalTitle : string) (t_load t_now t_save : string) : bool * State :=
  let '(shortcuts, st1) := load st t_load in
  match find_target modalId shortcuts with
  | None =>
      if enabled' then
        let shortcut :=
          {| id := VStr ("shortcut-" +:+ modalId);
             label := generateDefaultLabel modalTitle;
             enabled := true;
             action := {| type := VStr "modal"; target := VStr modalId |};
             position := Z.of_nat (length shortcuts);
             visible := true;
             created_at := VStr t_now;
             updated_at := VStr t_now |} in
        let shortcuts1 := shortcuts ++ [shortcut] in
        save (set_cache (Some shortcuts1) st1) (to_array shortcuts1) t_save
      else save st1 (to_array shortcuts) t_save
  | Some (i, shortcut) =>
      let shortcut1 := set_updated_at (VStr t_now) (set_enabled enabled' shortcut) in
      let shortcuts1 := <[i := shortcut1]> shortcuts in
      save (set_cache (Some shortcuts1) st1) (to_array shortcuts1) t_save
  end.

(** The sanitized label of [updateLabel]. *)
Definition validLabel (label' : string) : string :=
  let v := trim label' in
  if String.eqb v "" then "XX"
  else if (20 <? String.length v)%nat then String.substring 0 20 v
  else v.

(** [updateLabel(modalId, label)] *)
Definition updateLabel (st : State) (modalId : string) (label' : string)
    (t_load t_now t_save : string) : bool * State :=
  let '(shortcuts, st1) := load st t_load in
  match find_target modalId shortcuts with
  | None => (false, st1)
  | Some (i, shortcut) =>
      let shortcut1 := set_updated_at (VStr t_now) (set_label (validLabel label') shortcut) in
      let shortcuts1 := <[i := shortcut1]> shortcuts in
      save (set_cache (Some shortcuts1) st1) (to_array shortcuts1) t_save
  end.

(** [remove(modalId)] *)
Definition remove (st : State) (modalId : string) (t_load t_save : string)
  : bool * State :=
  let '(shortcuts, st1) := load st t_load in
  match find_target modalId shortcuts with
  | None => (false, st1)
  | Some (index, _) =>
      let shortcuts1 := delete index shortcuts in
      save (set_cache (Some shortcuts1) st1) (to_array shortcuts1) t_save
  end.

(** [clear()] *)
Definition clear (st : State) (now : string) : bool * State :=
  save st (VArr []) now.

(** What a successful [save(shortcuts)] writes ([None] when the validation
    throws, and nothing is written), and the state it leaves. *)
Definition written (shortcuts : value) (now : string) : option (list Shortcut) :=
  reindexPositions <$> validateShortcuts shortcuts now.

Definition after_save (st : State) (l : list Shortcut) : State :=
  {| cache := Some l;
     storage := {| item := Some (JSON_stringify (to_array l));
                   readable := readable (storage st);
                   accepts := accepts (storage st) |};
     events := events st ++ [l] |}.

(** [importData(jsonString)] *)
Definition importData (st : State) (jsonString : string) (now : string)
  : bool * State :=
  match JSON_parse jsonString with
  | Some data => save st data now
  | None => (false, st)
  end.

(** A recorded sequence of calls of the operations that edit the collection
    record by record, between which the host may change how the storage
    behaves (quota reached or freed, storage disabled). *)
Inductive call : Type :=
| Toggle (modalId : string) (enabled' : bool) (modalTitle : string)
         (t_load t_now t_save : string)
| UpdateLabel (modalId label' : string) (t_load t_now t_save : string)
| Remove (modalId : string) (t_load t_save : string)
| Clear (now : string)
| Host (readable' : bool) (accepts' : string -> bool).

Definition step (st : State) (c : call) : State :=
  match c with
  | Toggle modalId enabled' modalTitle t_load t_now t_save =>
      snd (toggle st modalId enabled' modalTitle t_load t_now t_save)
  | UpdateLabel modalId label' t_load t_now t_save =>
      snd (updateLabel st modalId label' t_load t_now t_save)
  | Remove modalId t_load t_save => snd (remove st modalId t_load t_save)
  | Clear now => snd (clear st now)
  | Host readable' accepts' =>
      {| cache := cache st;
         storage := {| item := item (storage st); readable := readable';
                       accepts := accepts' |};
         events := events st |}
  end.

Definition run (calls : list call) (st : State) : State := foldl step st calls.

(** *** The vocabulary of the specification *)

(** The first code unit of every white-space separated word. *)
Fixpoint initials_from (after_space : bool) (s : string) : string :=
  match s with
  | EmptyString => EmptyString
  | String c r =>
      if is_ws c then initials_from true r
      else if after_space then String c (initials_from false r)
      else initials_from false r
  end.

Definition initials (s : string) : string := initials_from true s.

(** The default label in the words of the specification: the first
    character of each word of the title, uppercased, truncated to three
    characters, ["XX"] when that is empty. *)
Definition default_label_spec (title : string) : string :=
  let short := String.substring 0 3 (toUpperCase (initials title)) in
  if String.eqb short "" then "XX" else short.

End WithPlatform.

Definition nonempty_string (v : value) : bool :=
  match v with
  | VStr s => negb (String.eqb s "")
  | _ => false
  end.

(** A well-formed ShortcutRecord, after the table of the data model: string
    identifier, a label of 1 to 20 characters that is its own trim, action
    type ["modal"], a modal identifier as target, a position that is an
    integer from 0 on, both time stamps present. *)
Definition well_formed (s : Shortcut) : bool :=
  nonempty_string (id s)
  && String.eqb (trim (label s)) (label s)
  && (1 <=? String.length (label s))%nat
  && (String.length (label s) <=? 20)%nat
  && strict_eq_string (type (action s)) "modal"
  && nonempty_string (target (action s))
  && (0 <=? position s)
  && nonempty_string (created_at s)
  && nonempty_string (updated_at s).

(** The record passes the filter of [validateShortcuts] and none of the
    defaults of its repair applies. *)
Definition survives (s : Shortcut) : bool :=
  truthy (id s) && truthy (type (action s)) && truthy (target (action s))
  && truthy (created_at s) && truthy (updated_at s).

(** [validateLabel] keeps the label as it is. *)
Definition label_settled `{Platform} (s : Shortcut) : bool :=
  match validateLabel (VStr (label s)) with
  | Some l => String.eqb l (label s)
  | None => false
  end.

(** The positions are [0 .. n-1], in array order. *)
Definition dense (l : list Shortcut) : bool :=
  bool_decide (position <$> l = Z.of_nat <$> seq 0 (length l)).

(** A collection that [save] would write back as it is. *)
Definition settled `{Platform} (l : list Shortcut) : bool :=
  forallb (fun s => survives s && label_settled s) l && dense l.

(** The record without its position. *)
Definition unpositioned (s : Shortcut) : Shortcut := set_position 0 s.

(** The record without its time stamps. *)
Definition untimed (s : Shortcut) : Shortcut :=
  {| id := id s; label := label s; enabled := enabled s; action := action s;
     position := position s; visible := visible s;
     created_at := VUndef; updated_at := VUndef |}.

Definition targets_of (l : list Shortcut) : list value :=
  (fun s => target (action s)) <$> l.

Definition labels_of (l : list Shortcut) : list string := label <$> l.

Definition positions_of (l : list Shortcut) : list Z := position <$> l.

(** The positions do not decrease along the array. *)
Definition ascending (l : list Shortcut) : Prop :=
  Sorted (fun a b => position a <= position b) l.

(** The label as a later [save] rewrites it. *)
Definition relabel `{Platform} (s : Shortcut) : Shortcut :=
  match validateLabel (VStr (label s)) with
  | Some l => set_label l s
  | None => s
  end.

(** The stored text, if any, is that of a collection in which no two
    records share a target. *)
Definition stored_unique `{Platform} (sto : Storage) : Prop :=
  item sto = None \/
  exists l, item sto = Some (JSON_stringify (to_array l)) /\ NoDup (targets_of l).

(** No two records of the cache share a target, nor do two records of the
    stored collection. *)
Definition unique_targets `{Platform} (st : State) : Prop :=
  match cache st with
  | Some l => NoDup (targets_of l)
  | None => item (storage st) = None
  end /\ stored_unique (storage st).

(** *** Sample data *)

(** A storage that holds nothing and never fails. *)
Definition empty_storage : Storage :=
  {| item := None; readable := true; accepts := fun _ => true |}.

(** A storage that holds nothing and refuses every write. *)
Definition full_storage : Storage :=
  {| item := None; readable := true; accepts := fun _ => false |}.

Definition stored (text : string) : Storage :=
  {| item := Some text; readable := true; accepts := fun _ => true |}.

(** A well-formed record for [modalId] at position [p]. *)
Definition sample (modalId : string) (p : Z) : Shortcut :=
  {| id := VStr ("shortcut-" +:+ modalId);
     label := "AB";
     enabled := true;
     action := {| type := VStr "modal"; target := VStr modalId |};
     position := p;
     visible := true;
     created_at := VStr "2024-05-01T10:00:00.000Z";
     updated_at := VStr "2024-05-01T10:00:00.000Z" |}.

(** A raw entry with a target and a label only. *)
Definition raw_entry (modalId label' : string) : value :=
  VObj [ ("action", VObj [("target", VStr modalId)]); ("label", VStr label') ]%string.

(** 19 letters, a space, three more letters. *)
Definition long_label : string := "aaaaaaaaaaaaaaaaaaa bbb".

End Store.

(** ** A reference platform

    One concrete [Platform], on which the examples run: [JSON.parse] and
    [JSON.stringify] for JSON texts whose numbers are integer literals and
    whose strings use no [\u] escape, [toUpperCase] for ASCII letters, and
    the numeric value of strings that are decimal integer literals; of an
    integer beyond the safe range it prints all the digits. The statements
    about the store hold for every [Platform]. *)

Module Ref.

Definition dquote : ascii := ascii_of_nat 34.
Definition backslash : ascii := ascii_of_nat 92.

Definition between (lo hi : N) (c : ascii) : bool :=
  ((lo <=? N_of_ascii c) && (N_of_ascii c <=? hi))%N.

Definition is_digit (c : ascii) : bool := between 48 57 c.

Definition digit (c : ascii) : Z := Z.of_N (N_of_ascii c) - 48.

Definition upper_unit (c : ascii) : ascii :=
  if between 97 122 c then ascii_of_N (N_of_ascii c - 32) else c.

Fixpoint upper (s : string) : string :=
  match s with
  | EmptyString => EmptyString
  | String c r => String (upper_unit c) (upper r)
  end.

(** JSON white space: space, TAB, LF, CR. *)
Definition json_ws (c : ascii) : bool :=
  let n := N_of_ascii c in
  ((n =? 32) || (n =? 9) || (n =? 10) || (n =? 13))%N.

Fixpoint skip (s : string) : string :=
  match s with
  | String c r => if json_ws c then skip r else s
  | EmptyString => EmptyString
  end.

(** [s] without its prefix [lit]. *)
Fixpoint strip (lit s : string) : option string :=
  match lit, s with
  | EmptyString, _ => Some s
  | String a l, String b r => if Ascii.eqb a b then strip l r else None
  | String _ _, EmptyString => None
  end.

Fixpoint read_digits (acc : Z) (s : string) : Z * string :=
  match s with
  | String c r => if is_digit c then read_digits (10 * acc + digit c) r else (acc, s)
  | EmptyString => (acc, s)
  end.

(** An integer literal without sign; a fraction or an exponent is outside
    the fragment. *)
Definition read_int (s : string) : option (Z * string) :=
  match s with
  | String c r =>
      if is_digit c then
        let '(z, rest) := if Ascii.eqb c "0" then (0, r) else read_digits 0 s in
        match rest with
        | String d _ =>
            if is_digit d || Ascii.eqb d "." || Ascii.eqb d "e" || Ascii.eqb d "E"
            then None else Some (z, rest)
        | EmptyString => Some (z, rest)
        end
      else None
  | EmptyString => None
  end.

Definition unescape (c : ascii) : option ascii :=
  if Ascii.eqb c dquote then Some dquote
  else if Ascii.eqb c backslash then Some backslash
  else if Ascii.eqb c "/" then Some "/"%char
  else if Ascii.eqb c "b" then Some (ascii_of_nat 8)
  else if Ascii.eqb c "f" then Some (ascii_of_nat 12)
  else if Ascii.eqb c "n" then Some (ascii_of_nat 10)
  else if Ascii.eqb c "r" then Some (ascii_of_nat 13)
  else if Ascii.eqb c "t" then Some (ascii_of_nat 9)
  else None.

(** The characters of a string literal, after its opening quote. *)
Fixpoint read_string (s : string) : option (string * string) :=
  match s with
  | EmptyString => None
  | String c r =>
      if Ascii.eqb c dquote then Some (EmptyString, r)
      else if between 0 31 c then None
      else if Ascii.eqb c backslash then
        match r with
        | String e r' =>
            u ← unescape e;
            '(t, rest) ← read_string r';
            Some (String u t, rest)
        | EmptyString => None
        end
      else
        '(t, rest) ← read_string r;
        Some (String c t, rest)
  end.

(** A repeated key keeps its first place and takes the last value. *)
Fixpoint define (k : string) (v : value) (fs : list (string * value))
  : list (string * value) :=
  match fs with
  | [] => [(k, v)]
  | (k', v') :: rest =>
      if String.eqb k k' then (k', v) :: rest else (k', v') :: define k v rest
  end.

Fixpoint parse_value (fuel : nat) (s : string) {struct fuel}
  : option (value * string) :=
  match fuel with
  | O => None
  | S f =>
      match skip s with
      | EmptyString => None
      | String c r =>
          if Ascii.eqb c "[" then
            match strip "]" (skip r) with
            | Some rest => Some (VArr [], rest)
            | None => '(xs, rest) ← parse_elements f r; Some (VArr xs, rest)
            end
          else if Ascii.eqb c "{" then
            match strip "}" (skip r) with
            | Some rest => Some (VObj [], rest)
            | None =>
                '(fs, rest) ← parse_members f r;
                Some (VObj (foldl (fun acc kv => define kv.1 kv.2 acc) [] fs), rest)
            end
          else if Ascii.eqb c dquote then
            '(t, rest) ← read_string r; Some (VStr t, rest)
          else if Ascii.eqb c "-" then
            '(z, rest) ← read_int r; Some (VNum (Fin (- z)), rest)
          else if is_digit c then
            '(z, rest) ← read_int (String c r); Some (VNum (Fin z), rest)
          else
            match strip "null" (String c r), strip "true" (String c r),
                  strip "false" (String c r) with
            | Some rest, _, _ => Some (VNull, rest)
            | _, Some rest, _ => Some (VBool true, rest)
            | _, _, Some rest => Some (VBool false, rest)
            | _, _, _ => None
            end
      end
  end
with parse_elements (fuel : nat) (s : string) {struct fuel}
  : option (list value * string) :=
  match fuel with
  | O => None
  | S f =>
      '(v, rest) ← parse_value f s;
      match skip rest with
      | String c r =>
          if Ascii.eqb c "," then
            '(vs, rest') ← parse_elements f r; Some (v :: vs, rest')
          else if Ascii.eqb c "]" then Some ([v], r)
          else None
      | EmptyString => None
      end
  end
with parse_members (fuel : nat) (s : string) {struct fuel}
  : option (list (string * value) * string) :=
  match fuel with
  | O => None
  | S f =>
      r0 ← strip (String dquote "") (skip s);
      '(k, rest) ← read_string r0;
      r1 ← strip ":" (skip rest);
      '(v, rest1) ← parse_value f r1;
      match skip rest1 with
      | String c r =>
          if Ascii.eqb c "," then
            '(fs, rest') ← parse_members f r; Some ((k, v) :: fs, rest')
          else if Ascii.eqb c "}" then Some ([(k, v)], r)
          else None
      | EmptyString => None
      end
  end.

(** [JSON.parse(text)] on the fragment. *)
Definition parse (text : string) : option value :=
  '(v, rest) ← parse_value (S (String.length text)) text;
  match skip rest with
  | EmptyString => Some v
  | String _ _ => None
  end.

Fixpoint quote_body (s : string) : string :=
  match s with
  | EmptyString => EmptyString
  | String c r =>
      if Ascii.eqb c dquote || Ascii.eqb c backslash
      then String backslash (String c (quote_body r))
      else String c (quote_body r)
  end.

Definition quote (s : string) : string :=
  String dquote (quote_body s +:+ String dquote "").

(** [JSON.stringify(v)] on the fragment: inside an array [undefined] and
    [NaN] are written [null], inside an object a property whose value is
    [undefined] is left out. *)
Fixpoint stringify (v : value) : string :=
  match v with
  | VUndef | VNull | VNum NaN => "null"
  | VBool true => "true"
  | VBool false => "false"
  | VNum (Fin z) => string_of_Z z
  | VStr s => quote s
  | VArr xs =>
      "[" +:+ String.concat ","
        ((fix each (l : list value) : list string :=
            match l with
            | [] => []
            | x :: rest => stringify x :: each rest
            end) xs) +:+ "]"
  | VObj fs =>
      "{" +:+ String.concat ","
        ((fix each (l : list (string * value)) : list string :=
            match l with
            | [] => []
            | (k, VUndef) :: rest => each rest
            | (k, x) :: rest => (quote k +:+ ":" +:+ stringify x) :: each rest
            end) fs) +:+ "}"
  end.

(** The numeric value of a string, for decimal integer literals. *)
Definition string_to_number (s : string) : number :=
  let t := trim s in
  let digits_of (d : string) (sign : Z) : number :=
    match d with
    | EmptyString => NaN
    | String _ _ =>
        match read_digits 0 d with
        | (z, EmptyString) => Fin (sign * z)
        | (_, String _ _) => NaN
        end
    end in
  match t with
  | EmptyString => Fin 0
  | String c r =>
      if Ascii.eqb c "-" then digits_of r (-1)
      else if Ascii.eqb c "+" then digits_of r 1
      else digits_of t 1
  end.

#[refine] Definition platform : Platform :=
  {| JSON_parse := parse;
     JSON_stringify := stringify;
     StringToNumber := string_to_number;
     NumberToString := string_of_Z;
     toUpperCase := upper |}.
Proof.
  - reflexivity.
  - intros s; unfold all_nonspace.
    induction s as [|c r IH]; simpl; intros H; [constructor|].
    inversion H as [|? ? Hc Hr]; subst.
    constructor; [|exact (IH Hr)].
    rewrite <- Hc. clear.
    destruct c as [[] [] [] [] [] [] [] []]; reflexivity.
Defined.

(** The text [[{"action":{"target":"x"},"label":{"toString":0}}]]. *)
Definition unconvertible_import : string :=
  let q := String dquote "" in
  "[{" +:+ q +:+ "action" +:+ q +:+ ":{" +:+ q +:+ "target" +:+ q +:+ ":"
    +:+ q +:+ "x" +:+ q +:+ "}," +:+ q +:+ "label" +:+ q +:+ ":{"
    +:+ q +:+ "toString" +:+ q +:+ ":0}}]".


End Ref.

(** ** More of the shortcut store: [exportData] *)

Module StoreOps.
Import Store.

Section WithPlatform.
Context {P : Platform}.

(** [JSON.stringify(value, null, 2)], the indented form of the host. *)
Variable stringify_indented : value -> string.

(** [exportData()] *)
Definition exportData (st : State) (now : string) : string * State :=
  let '(shortcuts, st1) := load st now in
  (stringify_indented (to_array shortcuts), st1).

End WithPlatform.

(** The reference platform's [JSON.stringify(value, null, 2)]: one element
    or member per line, two spaces per level, [": "] after a key. *)
Definition newline : string := String (ascii_of_nat 10) "".

Fixpoint indented (ind : string) (v : value) : string :=
  match v with
  | VUndef | VNull | VNum NaN => "null"
  | VBool true => "true"
  | VBool false => "false"
  | VNum (Fin z) => string_of_Z z
  | VStr s => Ref.quote s
  | VArr xs =>
      match
        (fix each (l : list value) : list string :=
           match l with
           | [] => []
           | x :: rest => (ind +:+ "  " +:+ indented (ind +:+ "  ") x) :: each rest
           end) xs
      with
      | [] => "[]"
      | lines =>
          "[" +:+ newline +:+ String.concat ("," +:+ newline) lines
              +:+ newline +:+ ind +:+ "]"
      end
  | VObj fs =>
      match
        (fix each (l : list (string * value)) : list string :=
           match l with
           | [] => []
           | (k, VUndef) :: rest => each rest
           | (k, x) :: rest =>
               (ind +:+ "  " +:+ Ref.quote k +:+ ": " +:+ indented (ind +:+ "  ") x)
                 :: each rest
           end) fs
      with
      | [] => "{}"
      | lines =>
          "{" +:+ newline +:+ String.concat ("," +:+ newline) lines
              +:+ newline +:+ ind +:+ "}"
      end
  end.

End StoreOps.

(** ** The modal orchestrator ([ModalSystem], src/modal/ods.modal.js)

    The DOM is carried as far as the orchestrator reads or writes it: the
    overlay with its display mode and the modal element it shows. A modal
    object is known by the order of its creation ([uid]), which is what
    [===] on objects compares. The [onOpen] and [onClose] callbacks of a
    configuration are code of the caller: the model records that they are
    called and takes them to return without calling the orchestrator. *)

Module System.

Record RawConfig : Type := {
  raw_id : string;
  raw_title : string;
  raw_moduleId : string;
  raw_closable : option bool;
  raw_showModuleSettings : option bool;
  raw_onOpen : bool;
  raw_onClose : bool
}.

(** [this.config] of a [Modal]. *)
Record Config : Type := {
  id : string;
  title : string;
  moduleId : string;
  closable : bool;
  showModuleSettings : bool;
  onOpen : bool;
  onClose : bool
}.

(** [x !== false] for a field that is absent or a boolean. *)
Definition not_false (o : option bool) : bool :=
  match o with
  | Some false => false
  | _ => true
  end.

Record ModalObj : Type := {
  uid : nat;
  config : Config
}.

(** [new Modal(config, system)] *)
Definition new_Modal (n : nat) (c : RawConfig) : ModalObj :=
  {| uid := n;
     config := {| id := raw_id c;
                  title := raw_title c;
                  moduleId := raw_moduleId c;
                  closable := not_false (raw_closable c);
                  showModuleSettings := not_false (raw_showModuleSettings c);
                  onOpen := raw_onOpen c;
                  onClose := raw_onClose c |} |}.

Inductive hook : Type := OnOpen | OnClose.

(** The [detail] of the events the orchestrator dispatches. *)
Inductive Event : Type :=
| ModalOpened (modalId moduleId' : string)
| ModalClosed (modalId : string) (duration : Z).

Record ModalSystem : Type := {
  modals : gmap string ModalObj;
  activeModal : option ModalObj;
  overlay_display : string;
  overlay_child : option nat;
  overlay_attached : bool;
  state : Modal.ModalState;
  dispatched : list Event;
  hooks_called : list (nat * hook);
  allocated : nat
}.

(** The constructor ([initializeSchema], which only writes to the storage,
    is [Settings.initializeSchema]). *)
Definition new : ModalSystem :=
  {| modals := ∅; activeModal := None;
     overlay_display := "none"; overlay_child := None; overlay_attached := true;
     state := Modal.init; dispatched := []; hooks_called := []; allocated := 0 |}.

(** [modal.open()] and [modal.close()]: the callback, if there is one. *)
Definition call_hook (present : bool) (m : ModalObj) (h : hook)
    (log : list (nat * hook)) : list (nat * hook) :=
  if present then log ++ [(uid m, h)] else log.

(** [register(config)] *)
Definition register (sys : ModalSystem) (c : RawConfig) : ModalObj * ModalSystem :=
  let modal := new_Modal (allocated sys) c in
  (modal,
   {| modals := <[raw_id c := modal]> (modals sys);
      activeModal := activeModal sys;
      overlay_display := overlay_display sys;
      overlay_child := overlay_child sys;
      overlay_attached := overlay_attached sys;
      state := state sys;
      dispatched := dispatched sys;
      hooks_called := hooks_called sys;
      allocated := S (allocated sys) |}).

(** [open(modalId)] *)
Definition open (sys : ModalSystem) (modalId : string) (now : Z) : ModalSystem :=
  match modals sys !! modalId with
  | None => sys
  | Some modal =>
      match activeModal sys with
      | Some _ => sys
      | None =>
          let '(opened, st) :=
            Modal.open (state sys) modalId (moduleId (config modal)) now in
          if negb opened
          then {| modals := modals sys; activeModal := activeModal sys;
                  overlay_display := overlay_display sys;
                  overlay_child := overlay_child sys;
                  overlay_attached := overlay_attached sys;
                  state := st; dispatched := dispatched sys;
                  hooks_called := hooks_called sys; allocated := allocated sys |}
          else
            {| modals := modals sys;
               activeModal := Some modal;
               overlay_display := "flex";
               overlay_child := Some (uid modal);
               overlay_attached := overlay_attached sys;
               state := st;
               dispatched :=
                 dispatched sys ++ [ModalOpened modalId (moduleId (config modal))];
               hooks_called :=
                 call_hook (onOpen (config modal)) modal OnOpen (hooks_called sys);
               allocated := allocated sys |}
      end
  end.

(** [closeActive()] *)
Definition closeActive (sys : ModalSystem) (now : Z) : ModalSystem :=
  match activeModal sys with
  | None => sys
  | Some modal =>
      let modalId := id (config modal) in
      let '(duration, st) := Modal.close (state sys) now in
      {| modals := modals sys;
         activeModal := None;
         overlay_display := "none";
         overlay_child := None;
         overlay_attached := overlay_attached sys;
         state := st;
         dispatched := dispatched sys ++ [ModalClosed modalId duration];
         hooks_called :=
           call_hook (onClose (config modal)) modal OnClose (hooks_called sys);
         allocated := allocated sys |}
  end.

(** [getModal(modalId)] *)
Definition getModal (sys : ModalSystem) (modalId : string) : option ModalObj :=
  modals sys !! modalId.

(** [hasModal(modalId)] *)
Definition hasModal (sys : ModalSystem) (modalId : string) : bool :=
  bool_decide (is_Some (modals sys !! modalId)).

Definition set_modals (m : gmap string ModalObj) (sys : ModalSystem) : ModalSystem :=
  {| modals := m; activeModal := activeModal sys;
     overlay_display := overlay_display sys; overlay_child := overlay_child sys;
     overlay_attached := overlay_attached sys; state := state sys;
     dispatched := dispatched sys; hooks_called := hooks_called sys;
     allocated := allocated sys |}.

(** [this.activeModal === modal] *)
Definition is_active (sys : ModalSystem) (modal : ModalObj) : bool :=
  match activeModal sys with
  | Some a => Nat.eqb (uid a) (uid modal)
  | None => false
  end.

(** [unregister(modalId)] *)
Definition unregister (sys : ModalSystem) (modalId : string) (now : Z) : ModalSystem :=
  match modals sys !! modalId with
  | None => sys
  | Some modal =>
      let sys1 := if is_active sys modal then closeActive sys now else sys in
      set_modals (delete modalId (modals sys1)) sys1
  end.

(** [destroy()] *)
Definition destroy (sys : ModalSystem) (now : Z) : ModalSystem :=
  let sys1 := closeActive sys now in
  {| modals := ∅; activeModal := activeModal sys1;
     overlay_display := overlay_display sys1; overlay_child := overlay_child sys1;
     overlay_attached := false; state := state sys1;
     dispatched := dispatched sys1; hooks_called := hooks_called sys1;
     allocated := allocated sys1 |}.

(** The [keydown] listener of [attachGlobalListeners]. *)
Definition keydown (sys : ModalSystem) (key : string) (now : Z) : ModalSystem :=
  if String.eqb key "Escape" && Modal.isActive (state sys)
  then closeActive sys now else sys.

(** The [click] listener of the overlay; [on_overlay] is
    [e.target === this.overlay]. *)
Definition overlay_click (sys : ModalSystem) (on_overlay : bool) (now : Z)
  : ModalSystem :=
  if on_overlay then closeActive sys now else sys.

(** What can happen to an orchestrator after its construction. *)
Inductive call : Type :=
| Register (c : RawConfig)
| Open (modalId : string) (now : Z)
| CloseActive (now : Z)
| Unregister (modalId : string) (now : Z)
| Destroy (now : Z)
| Keydown (key : string) (now : Z)
| OverlayClick (on_overlay : bool) (now : Z).

Definition step (sys : ModalSystem) (c : call) : ModalSystem :=
  match c with
  | Register c => snd (register sys c)
  | Open modalId now => open sys modalId now
  | CloseActive now => closeActive sys now
  | Unregister modalId now => unregister sys modalId now
  | Destroy now => destroy sys now
  | Keydown key now => keydown sys key now
  | OverlayClick on_overlay now => overlay_click sys on_overlay now
  end.

Definition run (calls : list call) : ModalSystem := foldl step new calls.

(** The event log of a system with the given active modal: sessions that
    were opened and closed, in pairs that name the same modal, followed by
    the opening of the active one. *)
Fixpoint bracketed (log : list Event) (active : option string) : Prop :=
  match log with
  | [] => active = None
  | [ModalOpened a _] => active = Some a
  | ModalOpened a _ :: ModalClosed b _ :: rest => a = b /\ bracketed rest active
  | _ => False
  end.

(** The modal objects the orchestrator still refers to. *)
Definition known (sys : ModalSystem) (m : ModalObj) : Prop :=
  (exists k, modals sys !! k = Some m) \/ activeModal sys = Some m.

(** The identifier of the active modal. *)
Definition active_id (sys : ModalSystem) : option string :=
  (fun m => id (config m)) <$> activeModal sys.

(** How the registry, the active modal, the session state, the overlay and
    the event log of an orchestrator hang together. *)
Record coherent (sys : ModalSystem) : Prop := Coherent {
  co_keys : forall k m, modals sys !! k = Some m -> id (config m) = k;
  co_allocated : forall m, known sys m -> (uid m < allocated sys)%nat;
  co_objects : forall m1 m2, known sys m1 -> known sys m2 -> uid m1 = uid m2 -> m1 = m2;
  co_settled : Modal.isTransitioning (state sys) = false;
  co_previous : Modal.previousModalId (state sys) = None;
  co_active :
    match activeModal sys with
    | Some m =>
        Modal.activeModalId (state sys) = Some (id (config m)) /\
        Modal.activeModuleId (state sys) = Some (moduleId (config m)) /\
        is_Some (Modal.openedAt (state sys)) /\
        overlay_display sys = "flex"%string /\
        overlay_child sys = Some (uid m)
    | None =>
        Modal.activeModalId (state sys) = None /\
        Modal.activeModuleId (state sys) = None /\
        Modal.openedAt (state sys) = None /\
        overlay_display sys = "none"%string /\
        overlay_child sys = None
    end;
  co_events : bracketed (dispatched sys) (active_id sys)
}.

(** A configuration that gives the three required fields only. *)
Definition plain_config (id' title' moduleId' : string) : RawConfig :=
  {| raw_id := id'; raw_title := title'; raw_moduleId := moduleId';
     raw_closable := None; raw_showModuleSettings := None;
     raw_onOpen := false; raw_onClose := false |}.

End System.

(** ** The shell ([ODSShell], src/js/shell.js) *)

Module Shell.

Record ShellState : Type := {
  st_initialized : bool;
  mountPointsReady : bool;
  errorCount : Z;
  serviceWorkerActive : bool;
  pwaInstallable : bool;
  pwaInstalled : bool;
  themeInitialized : bool;
  themeVersion : string
}.

(** [deferredPrompt] holds the [beforeinstallprompt] event; [prompt] is its
    number in the order of arrival. [listeners] counts the registrations of
    the two [window] listeners of [initPWA]. *)
Record ODSShell : Type := {
  version : string;
  initialized : bool;
  mountPoints : bool;
  state : ShellState;
  deferredPrompt : option nat;
  listeners : nat
}.

(** The constructor. *)
Definition new : ODSShell :=
  {| version := "9.2"; initialized := false; mountPoints := false;
     state := {| st_initialized := false; mountPointsReady := false;
                 errorCount := 0; serviceWorkerActive := false;
                 pwaInstallable := false; pwaInstalled := false;
                 themeInitialized := false; themeVersion := "2.0" |};
     deferredPrompt := None; listeners := 0 |}.

(** What [navigator.serviceWorker.register] does. *)
Inductive worker : Type :=
| NotSupported
| RegistrationFails
| Registered (active : bool).

(** The page as [init] finds it. *)
Record Page : Type := {
  serviceWorker : worker;
  standalone : bool;
  shortcutMount : bool;
  dashboardMount : bool;
  themeReady : bool
}.

Definition set_state (s : ShellState) (sh : ODSShell) : ODSShell :=
  {| version := version sh; initialized := initialized sh;
     mountPoints := mountPoints sh; state := s;
     deferredPrompt := deferredPrompt sh; listeners := listeners sh |}.

Definition bump_errorCount (s : ShellState) : ShellState :=
  {| st_initialized := st_initialized s; mountPointsReady := mountPointsReady s;
     errorCount := errorCount s + 1; serviceWorkerActive := serviceWorkerActive s;
     pwaInstallable := pwaInstallable s; pwaInstalled := pwaInstalled s;
     themeInitialized := themeInitialized s; themeVersion := themeVersion s |}.

(** [registerServiceWorker()]: its own [try] catches a failed registration. *)
Definition registerServiceWorker (sh : ODSShell) (page : Page) : ODSShell :=
  match serviceWorker page with
  | Registered true =>
      let s := state sh in
      set_state
        {| st_initialized := st_initialized s; mountPointsReady := mountPointsReady s;
           errorCount := errorCount s; serviceWorkerActive := true;
           pwaInstallable := pwaInstallable s; pwaInstalled := pwaInstalled s;
           themeInitialized := themeInitialized s; themeVersion := themeVersion s |}
        sh
  | _ => sh
  end.

(** [initPWA()] *)
Definition initPWA (sh : ODSShell) (page : Page) : ODSShell :=
  if standalone page then
    let s := state sh in
    set_state
      {| st_initialized := st_initialized s; mountPointsReady := mountPointsReady s;
         errorCount := errorCount s; serviceWorkerActive := serviceWorkerActive s;
         pwaInstallable := pwaInstallable s; pwaInstalled := true;
         themeInitialized := themeInitialized s; themeVersion := themeVersion s |}
      sh
  else
    {| version := version sh; initialized := initialized sh;
       mountPoints := mountPoints sh; state := state sh;
       deferredPrompt := deferredPrompt sh; listeners := S (listeners sh) |}.

(** [prepareMountPoints()]; the second component tells that it threw. *)
Definition prepareMountPoints (sh : ODSShell) (page : Page) : ODSShell * bool :=
  if negb (shortcutMount page) || negb (dashboardMount page) then
    (set_state (bump_errorCount (state sh)) sh, true)
  else
    let s := state sh in
    ({| version := version sh; initialized := initialized sh;
        mountPoints := true;
        state :=
          {| st_initialized := st_initialized s; mountPointsReady := true;
             errorCount := errorCount s; serviceWorkerActive := serviceWorkerActive s;
             pwaInstallable := pwaInstallable s; pwaInstalled := pwaInstalled s;
             themeInitialized := themeInitialized s; themeVersion := themeVersion s |};
        deferredPrompt := deferredPrompt sh; listeners := listeners sh |}, false).

(** [init()]. [initStorage] writes and removes a test key under its own
    [try] and leaves the shell untouched. *)
Definition init (sh : ODSShell) (page : Page) : ODSShell :=
  let sh1 := registerServiceWorker sh page in
  let sh2 := initPWA sh1 page in
  let '(sh3, threw) := prepareMountPoints sh2 page in
  if threw then set_state (bump_errorCount (state sh3)) sh3
  else
    let s := state sh3 in
    {| version := version sh3; initialized := true;
       mountPoints := mountPoints sh3;
       state :=
         {| st_initialized := true; mountPointsReady := mountPointsReady s;
            errorCount := errorCount s; serviceWorkerActive := serviceWorkerActive s;
            pwaInstallable := pwaInstallable s; pwaInstalled := pwaInstalled s;
            themeInitialized := themeReady page || themeInitialized s;
            themeVersion := themeVersion s |};
       deferredPrompt := deferredPrompt sh3; listeners := listeners sh3 |}.

(** The [beforeinstallprompt] listener; without a registration the event
    reaches nobody. *)
Definition beforeinstallprompt (sh : ODSShell) (e : nat) : ODSShell :=
  match listeners sh with
  | O => sh
  | S _ =>
      let s := state sh in
      {| version := version sh; initialized := initialized sh;
         mountPoints := mountPoints sh;
         state :=
           {| st_initialized := st_initialized s; mountPointsReady := mountPointsReady s;
              errorCount := errorCount s; serviceWorkerActive := serviceWorkerActive s;
              pwaInstallable := true; pwaInstalled := pwaInstalled s;
              themeInitialized := themeInitialized s; themeVersion := themeVersion s |};
         deferredPrompt := Some e; listeners := listeners sh |}
  end.

Definition clear_prompt (installed : bool -> bool) (sh : ODSShell) : ODSShell :=
  let s := state sh in
  {| version := version sh; initialized := initialized sh;
     mountPoints := mountPoints sh;
     state :=
       {| st_initialized := st_initialized s; mountPointsReady := mountPointsReady s;
          errorCount := errorCount s; serviceWorkerActive := serviceWorkerActive s;
          pwaInstallable := false; pwaInstalled := installed (pwaInstalled s);
          themeInitialized := themeInitialized s; themeVersion := themeVersion s |};
     deferredPrompt := None; listeners := listeners sh |}.

(** The [appinstalled] listener. *)
Definition appinstalled (sh : ODSShell) : ODSShell :=
  match listeners sh with
  | O => sh
  | S _ => clear_prompt (fun _ => true) sh
  end.

(** [installPWA()]; [accepted] is [outcome === 'accepted'] of the user's
    choice. The call is taken as a whole: no other event arrives while it
    waits for the choice. *)
Definition installPWA (sh : ODSShell) (accepted : bool) : bool * ODSShell :=
  match deferredPrompt sh with
  | None => (false, sh)
  | Some _ => (accepted, clear_prompt (fun b => b) sh)
  end.

Inductive health : Type := healthy | degraded.

(** The [health] of [getState()]. *)
Definition getState_health (sh : ODSShell) : health :=
  if errorCount (state sh) =? 0 then healthy else degraded.

Inductive call : Type :=
| Init (page : Page)
| BeforeInstallPrompt (e : nat)
| AppInstalled
| InstallPWA (accepted : bool).

Definition step (sh : ODSShell) (c : call) : ODSShell :=
  match c with
  | Init page => init sh page
  | BeforeInstallPrompt e => beforeinstallprompt sh e
  | AppInstalled => appinstalled sh
  | InstallPWA accepted => snd (installPWA sh accepted)
  end.

Definition run (calls : list call) : ODSShell := foldl step new calls.

(** Both mount points are in the page. *)
Definition mounts_present (page : Page) : bool :=
  shortcutMount page && dashboardMount page.

(** The call is an [init()] that does not find its mount points. *)
Definition fails (c : call) : bool :=
  match c with
  | Init page => negb (mounts_present page)
  | _ => false
  end.

(** How the fields of a shell hang together: the install prompt with the
    flag and the listeners, the two [initialized] flags, the mount points
    with their flag. *)
Record prompt_kept (sh : ODSShell) : Prop := PromptKept {
  pk_installable : pwaInstallable (state sh) = true <-> is_Some (deferredPrompt sh);
  pk_listening : is_Some (deferredPrompt sh) -> (0 < listeners sh)%nat;
  pk_initialized : initialized sh = st_initialized (state sh);
  pk_mounts : mountPoints sh = mountPointsReady (state sh);
  pk_ready : initialized sh = true -> mountPoints sh = true
}.

(** A page with both mount points, in a browser tab, without service
    workers and without the theme module. *)
Definition plain_page : Page :=
  {| serviceWorker := NotSupported; standalone := false;
     shortcutMount := true; dashboardMount := true; themeReady := false |}.

(** The same page without the dashboard mount point. *)
Definition broken_page : Page :=
  {| serviceWorker := NotSupported; standalone := false;
     shortcutMount := true; dashboardMount := false; themeReady := false |}.

End Shell.

(** ** The module settings panel ([ModuleSettings], an unnamed source file)
    and [ModalSystem.initializeSchema] *)

Module Settings.

(** [localStorage] with all its keys. *)
Record LocalStorage : Type := {
  items : gmap string string;
  readable : bool;
  accepts : string -> string -> bool
}.

Definition getItem (ls : LocalStorage) (k : string) : option (option string) :=
  if readable ls then Some (items ls !! k) else None.

Definition setItem (ls : LocalStorage) (k v : string) : option LocalStorage :=
  if accepts ls k v
  then Some {| items := <[k := v]> (items ls); readable := readable ls;
               accepts := accepts ls |}
  else None.

(** [raw || '{}'] *)
Definition or_empty_object (raw : option string) : string :=
  match raw with
  | None | Some EmptyString => "{}"
  | Some text => text
  end.

Definition STATE_KEY : string := "modal-settings-state".
Definition VERSION_KEY : string := "ods-modal-version".
Definition PANEL : string := "module-settings".

Fixpoint define (k : string) (v : value) (fs : list (string * value))
  : list (string * value) :=
  match fs with
  | [] => [(k, v)]
  | (k', v') :: rest =>
      if String.eqb k k' then (k', v) :: rest else (k', v') :: define k v rest
  end.

(** [states['module-settings']]; reading a property of [null] throws. *)
Definition read_panel (states : value) : option value :=
  match states with
  | VUndef | VNull => None
  | _ => Some (get states PANEL)
  end.

(** [states['module-settings'] = v] in strict code: it throws on [null] and
    on a primitive; on an array it adds a named property, which
    [JSON.stringify] does not write. *)
Definition write_panel (states : value) (v : value) : option value :=
  match states with
  | VObj fs => Some (VObj (define PANEL v fs))
  | VArr xs => Some (VArr xs)
  | _ => None
  end.

Inductive arrow : Type := ArrowDown | ArrowRight.

(** The elements that [render] builds and [expand]/[collapse] change. *)
Record PanelDom : Type := {
  content_hidden : bool;
  aria_expanded : bool;
  toggle_arrow : arrow
}.

Record ModuleSettings : Type := {
  modalId : string;
  expanded : value;
  elements : option PanelDom
}.

(** The [detail] of [settings-toggled]. *)
Record Toggled : Type := {
  toggled_modalId : string;
  toggled_panel : string;
  toggled_expanded : value
}.

Section WithPlatform.
Context {P : Platform}.

(** [loadExpandedState()] *)
Definition loadExpandedState (ls : LocalStorage) : value :=
  match
    raw ← getItem ls STATE_KEY;
    states ← JSON_parse (or_empty_object raw);
    read_panel states
  with
  | Some v => or_else v (VBool false)
  | None => VBool false
  end.

(** The constructor. *)
Definition new (ls : LocalStorage) (modalId' : string) : ModuleSettings :=
  {| modalId := modalId'; expanded := loadExpandedState ls; elements := None |}.

(** [saveExpandedState()] *)
Definition saveExpandedState (m : ModuleSettings) (ls : LocalStorage) : LocalStorage :=
  match
    raw ← getItem ls STATE_KEY;
    states ← JSON_parse (or_empty_object raw);
    states1 ← write_panel states (expanded m);
    setItem ls STATE_KEY (JSON_stringify states1)
  with
  | Some ls1 => ls1
  | None => ls
  end.

(** [expand()] and [collapse()] *)
Definition expand (m : ModuleSettings) : ModuleSettings :=
  {| modalId := modalId m; expanded := expanded m;
     elements :=
       (fun _ => {| content_hidden := false; aria_expanded := true;
                    toggle_arrow := ArrowDown |}) <$> elements m |}.

Definition collapse (m : ModuleSettings) : ModuleSettings :=
  {| modalId := modalId m; expanded := expanded m;
     elements :=
       (fun _ => {| content_hidden := true; aria_expanded := false;
                    toggle_arrow := ArrowRight |}) <$> elements m |}.

(** [toggle()] *)
Definition toggle (m : ModuleSettings) (ls : LocalStorage)
  : ModuleSettings * LocalStorage * Toggled :=
  let m1 := {| modalId := modalId m; expanded := VBool (negb (truthy (expanded m)));
               elements := elements m |} in
  let m2 := if truthy (expanded m1) then expand m1 else collapse m1 in
  let ls1 := saveExpandedState m2 ls in
  (m2, ls1, {| toggled_modalId := modalId m2; toggled_panel := PANEL;
               toggled_expanded := expanded m2 |}).

(** [render()]: [buildHeader] and [buildContent] set the elements from
    [this.expanded], then [expand()] runs if the panel is expanded. *)
Definition render (m : ModuleSettings) : ModuleSettings :=
  let built :=
    {| modalId := modalId m; expanded := expanded m;
       elements :=
         Some {| content_hidden := negb (truthy (expanded m));
                 aria_expanded := truthy (expanded m);
                 toggle_arrow := if truthy (expanded m) then ArrowDown else ArrowRight |} |} in
  if truthy (expanded m) then expand built else built.

(** [n] clicks on the header of the panel, each of which calls [toggle()]. *)
Fixpoint clicks (n : nat) (m : ModuleSettings) (ls : LocalStorage)
  : ModuleSettings * LocalStorage :=
  match n with
  | O => (m, ls)
  | S k => let '(m1, ls1, _) := toggle m ls in clicks k m1 ls1
  end.

(** [ModalSystem.initializeSchema()]; the second component tells that it
    threw, which ends the constructor of the orchestrator. *)
Definition initializeSchema (ls : LocalStorage) : LocalStorage * bool :=
  match getItem ls "ods-modal-version" with
  | None => (ls, true)
  | Some storedVersion =>
      match storedVersion with
      | None | Some EmptyString =>
          match setItem ls "ods-modal-version" "1.0.0" with
          | None => (ls, true)
          | Some ls1 =>
              match setItem ls1 STATE_KEY "{}" with
              | None => (ls1, true)
              | Some ls2 => (ls2, false)
              end
          end
      | Some _ => (ls, false)
      end
  end.

End WithPlatform.

(** A storage without entries that never fails. *)
Definition empty_storage : LocalStorage :=
  {| items := ∅; readable := true; accepts := fun _ _ => true |}.

(** A storage that cannot be read or written. *)
Definition locked_storage : LocalStorage :=
  {| items := ∅; readable := false; accepts := fun _ _ => false |}.

(** A panel that has not been rendered. *)
Definition collapsed_panel (modalId' : string) : ModuleSettings :=
  {| modalId := modalId'; expanded := VBool false; elements := None |}.

End Settings.

(** * Properties of the modal session state *)

Module ModalFacts.
Import Modal.

Lemma open_rejected s modalId moduleId now :
  isTransitioning s = true \/ id_truthy (activeModalId s) = true ->
  open s modalId moduleId now = (false, s).
Proof.
  unfold open. intros [-> | ->]; [reflexivity|].
  by rewrite orb_true_r.
Qed.

Lemma open_accepted s modalId moduleId now :
  isTransitioning s = false -> id_truthy (activeModalId s) = false ->
  open s modalId moduleId now =
    (true, {| activeModalId := Some modalId; activeModuleId := Some moduleId;
              openedAt := Some now; previousModalId := activeModalId s;
              isTransitioning := false |}).
Proof. unfold open. by intros -> ->. Qed.

(** A rejected [open] leaves every field as it was. *)
Lemma open_false_unchanged s modalId moduleId now :
  fst (open s modalId moduleId now) = false ->
  snd (open s modalId moduleId now) = s.
Proof.
  unfold open.
  destruct (isTransitioning s || id_truthy (activeModalId s)); [done|].
  simpl; discriminate.
Qed.

(** Outside of a call of [open], no transition is in flight. *)
Lemma reachable_settled s : reachable s -> isTransitioning s = false.
Proof.
  induction 1 as [|s modalId moduleId now _ IH|s now _ IH]; [done| |done].
  unfold open.
  by destruct (isTransitioning s || id_truthy (activeModalId s)).
Qed.

Lemma close_clears s now :
  let '(duration, s') := close s now in
  activeModalId s' = None /\ activeModuleId s' = None /\ openedAt s' = None /\
  previousModalId s' = previousModalId s /\
  isTransitioning s' = isTransitioning s /\
  (openedAt s = None -> duration = 0) /\
  (forall t, openedAt s = Some t -> t <> 0 -> duration = now - t).
Proof.
  unfold close; simpl. repeat split; [by intros ->|].
  intros t -> Ht; simpl.
  by destruct (Z.eqb_spec t 0).
Qed.

Lemma open_after_close s now modalId moduleId now' :
  reachable s ->
  fst (open (snd (close s now)) modalId moduleId now') = true.
Proof.
  intros Hs. rewrite open_accepted; [done| |done].
  simpl. by apply reachable_settled.
Qed.

(** While the active modal has a non-empty identifier, [open] is refused and
    changes nothing. *)
Lemma open_while_named_active s active modalId moduleId now :
  activeModalId s = Some active -> active <> ""%string ->
  open s modalId moduleId now = (false, s).
Proof.
  intros Ha Hne. apply open_rejected. right. rewrite Ha; simpl.
  by destruct (String.eqb_spec active "").
Qed.

Lemma foldl_step_invariant (I : ModalState -> Prop) (ok : call -> Prop) :
  (forall s c, ok c -> I s -> I (step s c)) ->
  forall calls s, Forall ok calls -> I s -> I (foldl step s calls).
Proof.
  intros Hstep calls. induction calls as [|c calls IH]; intros s Hok Hs; [done|].
  inversion Hok; subst. simpl. apply IH; [done|]. by apply Hstep.
Qed.

Lemma reachable_run calls : reachable (run calls).
Proof.
  unfold run.
  apply (foldl_step_invariant reachable (fun _ => True)).
  - intros s [modalId moduleId now|now] _ Hs; simpl.
    + by apply (reach_open s modalId moduleId now).
    + by apply (reach_close s now).
  - by apply Forall_true.
  - constructor.
Qed.

(** "Exclusive modal session" and "duration measurement" for named modals. *)
Example exclusive_session_of_named_modals :
  let s1 := open init "m1" "mod1" 1000 in
  let s2 := open (snd s1) "m2" "mod2" 1100 in
  let closed := close (snd s2) 1250 in
  let s3 := open (snd closed) "m2" "mod2" 1300 in
  fst s1 = true /\ fst s2 = false /\ snd s2 = snd s1 /\
  activeModalId (snd s2) = Some "m1"%string /\
  fst closed = 250 /\ fst s3 = true /\
  activeModalId (snd s3) = Some "m2"%string.
Proof. by vm_compute. Qed.

(** C1, at the failing input: after [open("", "mod1")] the state reports an
    active modal ([isActive()] is true), and yet a second
    [open("m2", "mod2")] before any [close()] is accepted and replaces the
    session: the guard of [open] tests the truthiness of [activeModalId],
    which the empty identifier fails. *)
Theorem open_accepted_over_empty_id :
  let s1 := snd (open init "" "mod1" 1000) in
  reachable s1 /\
  fst (open init "" "mod1" 1000) = true /\
  isActive s1 = true /\
  open s1 "m2" "mod2" 2000 =
    (true, {| activeModalId := Some "m2"%string; activeModuleId := Some "mod2"%string;
              openedAt := Some 2000; previousModalId := Some ""%string;
              isTransitioning := false |}).
Proof.
  simpl. split; [|done].
  apply (reach_open init "" "mod1" 1000), reach_init.
Qed.

(** C10, at the failing input: two calls of [open], the first with the empty
    identifier, reach a state whose [previousModalId] is the empty string,
    not [null]: the second [open] goes through although [activeModalId] is
    not [null], and copies it. *)
Lemma previousModalId_not_always_null :
  reachable (run [Open "" "mod1" 1; Open "m2" "mod2" 2]) /\
  previousModalId (run [Open "" "mod1" 1; Open "m2" "mod2" 2]) = Some ""%string /\
  previousModalId (run [Open "" "mod1" 1; Open "m2" "mod2" 2]) <> None.
Proof. split; [apply reachable_run|]. done. Qed.

(** What holds of [previousModalId] in every state (after any calls of
    [open] and [close]): it is never a non-empty modal identifier, and it is
    [null] whenever every identifier passed to [open] was non-empty. [open]
    only goes through when [activeModalId] is falsy and copies that value,
    [close] never assigns the field. *)
Theorem previousModalId_never_names_a_modal calls :
  id_truthy (previousModalId (run calls)) = false /\
  (Forall named calls -> previousModalId (run calls) = None).
Proof.
  split.
  - unfold run.
    apply (foldl_step_invariant
             (fun s => id_truthy (previousModalId s) = false) (fun _ => True));
      [|by apply Forall_true|done].
    intros s [modalId moduleId now|now] _ Hs; simpl; [|done].
    unfold open.
    destruct (isTransitioning s) eqn:Ht; simpl; [done|].
    by destruct (id_truthy (activeModalId s)) eqn:Ha.
  - intros Hnamed.
    enough (previousModalId (run calls) = None /\
            isTransitioning (run calls) = false /\
            activeModalId (run calls) <> Some ""%string) as [H _] by done.
    unfold run.
    apply (foldl_step_invariant
             (fun s => previousModalId s = None /\ isTransitioning s = false /\
                       activeModalId s <> Some ""%string) named);
      [|done|done].
    intros s [modalId moduleId now|now] Hc (Hp & Ht & Ha); simpl; [|done].
    unfold open. rewrite Ht; simpl.
    destruct (activeModalId s) as [a|] eqn:Hact; simpl.
    + destruct (String.eqb_spec a ""); [congruence|]. simpl.
      by rewrite Hact.
    + simpl in Hc. split_and!; try done. congruence.
Qed.

Lemma previousModalId_never_names_a_modal_witness :
  Forall named [Open "m1" "mod1" 1; Close 5; Open "m2" "mod2" 9] /\
  previousModalId (run [Open "m1" "mod1" 1; Close 5; Open "m2" "mod2" 9]) = None.
Proof.
  assert (H : Forall named [Open "m1" "mod1" 1; Close 5; Open "m2" "mod2" 9])
    by (repeat constructor; discriminate).
  split; [exact H|].
  exact (proj2 (previousModalId_never_names_a_modal _) H).
Defined.

End ModalFacts.

(** * Properties of the shortcut store *)

Module StoreFacts.
Import Store.

(** ** Strings *)

Lemma eqb_empty s : String.eqb s "" = true <-> s = ""%string.
Proof. by destruct s. Qed.

Lemma length_substring0 n s :
  String.length (String.substring 0 n s) = Nat.min n (String.length s).
Proof.
  revert s. induction n as [|n IH]; intros [|c s]; simpl; try done.
  by rewrite IH.
Qed.

Lemma substring0_all n s :
  (String.length s <= n)%nat -> String.substring 0 n s = s.
Proof.
  revert s. induction n as [|n IH]; intros [|c s]; simpl; try done; try lia.
  intros H. rewrite IH; [done|lia].
Qed.

Lemma append_cons c s t : (String c s +:+ t = String c (s +:+ t))%string.
Proof. reflexivity. Qed.

Lemma append_empty_l t : ("" +:+ t = t)%string.
Proof. reflexivity. Qed.

Lemma append_empty_r s : (s +:+ "" = s)%string.
Proof. induction s as [|c s IH]; [done|]. by rewrite append_cons, IH. Qed.

Lemma all_nonspace_cons c s :
  all_nonspace (String c s) <-> is_ws c = false /\ all_nonspace s.
Proof.
  unfold all_nonspace; simpl. split.
  - inversion 1; by subst.
  - intros [? ?]. by constructor.
Qed.

Lemma all_nonspace_app s t :
  all_nonspace s -> all_nonspace t -> all_nonspace (s +:+ t).
Proof.
  induction s as [|c s IH]; [done|].
  rewrite append_cons, !all_nonspace_cons.
  intros [Hc Hs] Ht. split; [done|by apply IH].
Qed.

Lemma all_nonspace_substring0 n s :
  all_nonspace s -> all_nonspace (String.substring 0 n s).
Proof.
  revert s. induction n as [|n IH]; intros [|c s]; simpl;
    try (intros; by constructor).
  rewrite !all_nonspace_cons. intros [Hc Hs]. split; [done|by apply IH].
Qed.

Lemma rtrim_nonspace s : all_nonspace s -> rtrim s = s.
Proof.
  induction s as [|c s IH]; simpl; [done|].
  rewrite all_nonspace_cons. intros [Hc Hs].
  rewrite (IH Hs), Hc. by destruct s.
Qed.

Lemma trim_nonspace s : all_nonspace s -> trim s = s.
Proof.
  intros H. unfold trim.
  assert (ltrim s = s) as ->; [|by apply rtrim_nonspace].
  destruct s as [|c s]; simpl; [done|].
  apply all_nonspace_cons in H as [-> _]; done.
Qed.

Lemma ltrim_starts_visible s : starts_visible (ltrim s).
Proof.
  induction s as [|c s IH]; simpl; [done|].
  by destruct (is_ws c) eqn:Hc.
Qed.

Lemma ltrim_id s : starts_visible s -> ltrim s = s.
Proof. destruct s as [|c s]; simpl; [done|]. by intros ->. Qed.

Lemma rtrim_starts_visible s : starts_visible s -> starts_visible (rtrim s).
Proof.
  destruct s as [|c s]; simpl; [done|]. intros Hc.
  destruct (rtrim s); by rewrite ?Hc.
Qed.

Lemma rtrim_visible_nonempty s :
  starts_visible s -> s <> ""%string -> rtrim s <> ""%string.
Proof.
  destruct s as [|c s]; simpl; [done|]. intros Hc _.
  destruct (rtrim s); by rewrite ?Hc.
Qed.

Lemma rtrim_idem s : rtrim (rtrim s) = rtrim s.
Proof.
  induction s as [|c s IH]; simpl; [done|].
  destruct (rtrim s) as [|d r] eqn:Hr.
  - destruct (is_ws c) eqn:Hc; simpl; by rewrite ?Hc.
  - simpl in *. rewrite IH. done.
Qed.

Lemma trim_idem s : trim (trim s) = trim s.
Proof.
  unfold trim.
  rewrite (ltrim_id (rtrim (ltrim s)));
    [apply rtrim_idem|apply rtrim_starts_visible, ltrim_starts_visible].
Qed.

Lemma length_rtrim s : (String.length (rtrim s) <= String.length s)%nat.
Proof.
  induction s as [|c s IH]; simpl; [done|].
  destruct (rtrim s); [destruct (is_ws c)|]; simpl in *; lia.
Qed.

Lemma starts_visible_substring0 n s :
  starts_visible s -> starts_visible (String.substring 0 n s).
Proof. destruct n, s; simpl; done. Qed.

Lemma starts_visible_trim s : starts_visible (trim s).
Proof. apply rtrim_starts_visible, ltrim_starts_visible. Qed.

Lemma concat_empty_cons x xs :
  String.concat "" (x :: xs) = (x +:+ String.concat "" xs)%string.
Proof.
  destruct xs as [|y ys]; simpl; [|done].
  by rewrite append_empty_r.
Qed.

(** ** validateLabel and the sanitizer of updateLabel *)

Lemma validLabel_length raw :
  (1 <= String.length (validLabel raw) <= 20)%nat.
Proof.
  unfold validLabel.
  destruct (String.eqb_spec (trim raw) ""); [simpl; lia|].
  destruct (Nat.ltb_spec 20 (String.length (trim raw))).
  - rewrite length_substring0. lia.
  - destruct (trim raw); simpl in *; [done|lia].
Qed.

Lemma validLabel_starts_visible raw : starts_visible (validLabel raw).
Proof.
  unfold validLabel.
  destruct (String.eqb (trim raw) ""); [done|].
  destruct (20 <? String.length (trim raw))%nat;
    [apply starts_visible_substring0|]; apply starts_visible_trim.
Qed.

(** A string of at most 20 code units that starts with a visible one comes
    out of the sanitizer with its trailing white space removed. *)
Lemma validLabel_visible s :
  starts_visible s -> s <> ""%string -> (String.length s <= 20)%nat ->
  validLabel s = rtrim s.
Proof.
  intros Hv Hne Hlen. unfold validLabel, trim. rewrite (ltrim_id s Hv).
  destruct (String.eqb_spec (rtrim s) "") as [He|_].
  - by apply rtrim_visible_nonempty in He.
  - pose proof (length_rtrim s).
    destruct (Nat.ltb_spec 20 (String.length (rtrim s))); [lia|done].
Qed.

Lemma validLabel_validLabel raw :
  validLabel (validLabel raw) = rtrim (validLabel raw).
Proof.
  apply validLabel_visible.
  - apply validLabel_starts_visible.
  - pose proof (validLabel_length raw) as H.
    destruct (validLabel raw); [simpl in H; lia|done].
  - apply validLabel_length.
Qed.

Lemma validLabel_nonspace s :
  all_nonspace s -> s <> ""%string -> (String.length s <= 20)%nat ->
  validLabel s = s.
Proof.
  intros Hs Hne Hlen. rewrite validLabel_visible; try done.
  - by apply rtrim_nonspace.
  - destruct s; [done|]. by apply all_nonspace_cons in Hs as [? _].
Qed.

Lemma validLabel_trimmed s :
  trim s = s -> s <> ""%string -> (String.length s <= 20)%nat ->
  validLabel s = s.
Proof.
  intros Ht Hne Hlen. unfold validLabel. rewrite Ht.
  destruct (String.eqb_spec s ""); [done|].
  destruct (Nat.ltb_spec 20 (String.length s)); [lia|done].
Qed.


Section Labels.
Context {P : Platform}.

(** What [validateLabel] does once [String(label)] has returned is what
    [updateLabel] does to its argument. *)
Lemma validateLabel_text v text :
  truthy v = true -> to_string v = Some text ->
  validateLabel v = Some (validLabel text).
Proof.
  intros Hv Ht. unfold validateLabel, validLabel. rewrite Hv, Ht. simpl.
  destruct (String.eqb (trim text) ""); [done|].
  by destruct (20 <? String.length (trim text))%nat.
Qed.

Lemma validateLabel_falsy v : truthy v = false -> validateLabel v = Some "XX"%string.
Proof. intros Hv. unfold validateLabel. by rewrite Hv. Qed.

(** On a string [validateLabel] cannot throw. *)
Lemma validateLabel_string s : validateLabel (VStr s) = Some (validLabel s).
Proof.
  destruct (truthy (VStr s)) eqn:Hs.
  - by apply validateLabel_text.
  - rewrite validateLabel_falsy by done. simpl in Hs.
    apply negb_false_iff, String.eqb_eq in Hs as ->. done.
Qed.

Lemma validateLabel_throws v :
  validateLabel v = None <-> truthy v = true /\ to_string v = None.
Proof.
  unfold validateLabel. destruct (truthy v); simpl.
  - destruct (to_string v) as [text|]; simpl.
    + destruct (String.eqb (trim text) ""); [by split; [|intros [_ ?]]|].
      destruct (20 <? String.length (trim text))%nat; by split; [|intros [_ ?]].
    + done.
  - by split; [|intros [? _]].
Qed.

Lemma validateLabel_Some v l :
  validateLabel v = Some l ->
  (truthy v = false /\ l = "XX"%string) \/
  (exists text, truthy v = true /\ to_string v = Some text /\ l = validLabel text).
Proof.
  destruct (truthy v) eqn:Hv.
  - destruct (to_string v) as [text|] eqn:Ht.
    + rewrite (validateLabel_text v text Hv Ht). intros [= <-]. right. eauto.
    + intros H. assert (validateLabel v = None) as E
        by (by apply validateLabel_throws). congruence.
  - rewrite validateLabel_falsy by done. intros [= <-]. by left.
Qed.

Lemma validateLabel_length v l :
  validateLabel v = Some l -> (1 <= String.length l <= 20)%nat.
Proof.
  intros [[_ ->]|(text & _ & _ & ->)]%validateLabel_Some; [simpl; lia|].
  apply validLabel_length.
Qed.

Lemma label_settled_spec s : label_settled s = true <-> validLabel (label s) = label s.
Proof.
  unfold label_settled. rewrite validateLabel_string. apply String.eqb_eq.
Qed.

Lemma relabel_spec s : relabel s = set_label (validLabel (label s)) s.
Proof. unfold relabel. by rewrite validateLabel_string. Qed.

End Labels.


(** ** The default label *)

Section DefaultLabel.
Context {P : Platform}.

Lemma initials_from_nonspace b s : all_nonspace (initials_from b s).
Proof.
  revert b. induction s as [|c s IH]; intros b; simpl; [by constructor|].
  destruct (is_ws c) eqn:Hc; [done|].
  destruct b; [|done]. by apply all_nonspace_cons.
Qed.

(** The letters that [generateDefaultLabel] joins are the initials of the
    text that [split] cuts. *)
Lemma letters_initials s cur in_sep :
  (in_sep = true -> cur = ""%string) ->
  String.concat "" (first_unit <$> split_ws_from cur in_sep s) =
    (first_unit cur +:+ initials_from (String.eqb cur "") s)%string.
Proof.
  revert cur in_sep. induction s as [|c s IH]; intros cur in_sep Hsep; simpl.
  - by rewrite append_empty_r.
  - destruct (is_ws c) eqn:Hc.
    + destruct in_sep.
      * rewrite (Hsep eq_refl). by rewrite IH.
      * rewrite fmap_cons, concat_empty_cons, IH by done. done.
    + rewrite IH by done.
      destruct cur as [|d cur]; done.
Qed.

Lemma initials_from_ltrim s : initials_from true (ltrim s) = initials_from true s.
Proof.
  induction s as [|c s IH]; simpl; [done|].
  destruct (is_ws c) eqn:Hc; [done|]. simpl. by rewrite Hc.
Qed.

Lemma initials_from_rtrim b s : initials_from b (rtrim s) = initials_from b s.
Proof.
  revert b. induction s as [|c s IH]; intros b; simpl; [done|].
  destruct (rtrim s) as [|d r] eqn:Hr.
  - destruct (is_ws c) eqn:Hc; simpl; rewrite ?Hc.
    + by rewrite <- IH.
    + by rewrite <- (IH false).
  - simpl. destruct (is_ws c); [by rewrite <- IH|].
    destruct b; by rewrite <- IH.
Qed.

Lemma initials_trim s : initials (trim s) = initials s.
Proof.
  unfold initials, trim.
  by rewrite initials_from_rtrim, initials_from_ltrim.
Qed.

(** [generateDefaultLabel] computes the default label that the
    specification describes. *)
Lemma generateDefaultLabel_spec title :
  generateDefaultLabel title = default_label_spec title.
Proof.
  unfold generateDefaultLabel, default_label_spec.
  destruct (String.eqb_spec title "") as [->|_].
  - simpl. by rewrite toUpperCase_empty.
  - unfold split_ws. rewrite letters_initials by done. simpl.
    fold (initials (trim title)). by rewrite initials_trim.
Qed.

Lemma default_label_spec_shape title :
  default_label_spec title <> ""%string /\
  (String.length (default_label_spec title) <= 3)%nat /\
  all_nonspace (default_label_spec title).
Proof.
  unfold default_label_spec.
  set (short := String.substring 0 3 (toUpperCase (initials title))).
  assert (all_nonspace short) as Hs.
  { apply all_nonspace_substring0, toUpperCase_nonspace, initials_from_nonspace. }
  assert (String.length short <= 3)%nat as Hl.
  { unfold short. rewrite length_substring0. lia. }
  destruct (String.eqb_spec short "") as [_|Hne].
  - split_and!; [done|simpl; lia|]. by repeat constructor.
  - done.
Qed.

(** [save] leaves a default label as [toggle] made it. *)
Lemma validLabel_default title :
  validLabel (generateDefaultLabel title) = generateDefaultLabel title.
Proof.
  rewrite generateDefaultLabel_spec.
  destruct (default_label_spec_shape title) as (Hne & Hlen & Hs).
  apply validLabel_nonspace; [done|done|lia].
Qed.

Lemma validateLabel_default title :
  validateLabel (VStr (generateDefaultLabel title)) =
    Some (generateDefaultLabel title).
Proof. by rewrite validateLabel_string, validLabel_default. Qed.

End DefaultLabel.

(** ** Sorting and reindexing *)

Section Sorting.
Context {A : Type} (key : A -> Z).

Lemma insert_sorted_length x l :
  length (insert_sorted (by_key key) x l) = S (length l).
Proof.
  induction l as [|y l IH]; simpl; [done|].
  destruct (by_key key x y <=? 0); simpl; by rewrite ?IH.
Qed.

Lemma array_sort_length l : length (array_sort (by_key key) l) = length l.
Proof.
  induction l as [|x l IH]; simpl; [done|].
  by rewrite insert_sorted_length, IH.
Qed.

Lemma insert_sorted_perm x l : insert_sorted (by_key key) x l ≡ₚ x :: l.
Proof.
  induction l as [|y l IH]; simpl; [done|].
  destruct (by_key key x y <=? 0); [done|].
  rewrite IH. apply Permutation_swap.
Qed.

Lemma array_sort_perm l : array_sort (by_key key) l ≡ₚ l.
Proof.
  induction l as [|x l IH]; simpl; [done|].
  by rewrite insert_sorted_perm, IH.
Qed.

Lemma insert_sorted_HdRel a x l :
  le_key key a x -> HdRel (le_key key) a l ->
  HdRel (le_key key) a (insert_sorted (by_key key) x l).
Proof.
  intros Hax Hl. destruct l as [|y l]; simpl; [by constructor|].
  destruct (by_key key x y <=? 0); constructor; [done|]. by inversion Hl.
Qed.

Lemma insert_sorted_sorted x l :
  Sorted (le_key key) l -> Sorted (le_key key) (insert_sorted (by_key key) x l).
Proof.
  induction 1 as [|y l Hl IH Hy]; simpl; [by repeat constructor|].
  destruct (Z.leb_spec (by_key key x y) 0) as [Hxy|Hxy].
  - repeat constructor; [done|done|]. unfold le_key, by_key in *. lia.
  - constructor; [done|].
    apply insert_sorted_HdRel; [|done]. unfold le_key, by_key in *. lia.
Qed.

Lemma array_sort_sorted l : Sorted (le_key key) (array_sort (by_key key) l).
Proof.
  induction l as [|x l IH]; simpl; [constructor|].
  by apply insert_sorted_sorted.
Qed.

(** Stability: the elements of one key keep their order. *)
Lemma insert_sorted_stable k x l :
  filter (fun a => key a = k) (insert_sorted (by_key key) x l) =
  filter (fun a => key a = k) (x :: l).
Proof.
  induction l as [|y l IH]; simpl; [done|].
  destruct (Z.leb_spec (by_key key x y) 0) as [Hxy|Hxy]; [done|].
  rewrite !filter_cons in *.
  unfold by_key in Hxy.
  destruct (decide (key y = k)), (decide (key x = k));
    try lia; by rewrite IH.
Qed.

Lemma array_sort_stable k l :
  filter (fun a => key a = k) (array_sort (by_key key) l) =
  filter (fun a => key a = k) l.
Proof.
  induction l as [|x l IH]; simpl; [done|].
  rewrite insert_sorted_stable, !filter_cons. by rewrite IH.
Qed.

(** An array whose keys do not decrease is left as it is. *)
Lemma array_sort_sorted_id l :
  Sorted (le_key key) l -> array_sort (by_key key) l = l.
Proof.
  induction 1 as [|x l Hl IH Hx]; simpl; [done|].
  rewrite IH. destruct Hx as [|y l Hxy]; simpl; [done|].
  unfold le_key in Hxy. unfold by_key.
  destruct (Z.leb_spec (key x - key y) 0); [done|lia].
Qed.

(** Sorting commutes with a change of the elements that keeps the keys. *)
Lemma insert_sorted_fmap (f : A -> A) x l :
  (forall a, key (f a) = key a) ->
  insert_sorted (by_key key) (f x) (f <$> l) =
    f <$> insert_sorted (by_key key) x l.
Proof.
  intros Hf. induction l as [|y l IH]; [done|].
  rewrite fmap_cons. simpl. unfold by_key at 1 3. rewrite !Hf.
  fold (by_key key x y). destruct (by_key key x y <=? 0); [done|].
  by rewrite fmap_cons, IH.
Qed.

Lemma array_sort_fmap (f : A -> A) l :
  (forall a, key (f a) = key a) ->
  array_sort (by_key key) (f <$> l) = f <$> array_sort (by_key key) l.
Proof.
  intros Hf. induction l as [|x l IH]; [done|].
  rewrite fmap_cons. simpl. fold (array_sort (by_key key) (f <$> l)).
  fold (array_sort (by_key key) l).
  by rewrite IH, insert_sorted_fmap.
Qed.

End Sorting.

(** The same for the comparator of [reindexPositions]. *)
Section SortByPosition.

Lemma sort_length l : length (array_sort (fun a b => position a - position b) l) = length l.
Proof. exact (array_sort_length position l). Qed.

Lemma sort_perm l : array_sort (fun a b => position a - position b) l ≡ₚ l.
Proof. exact (array_sort_perm position l). Qed.

Lemma sort_ascending l : ascending (array_sort (fun a b => position a - position b) l).
Proof. exact (array_sort_sorted position l). Qed.

Lemma sort_stable p l :
  filter (fun s => position s = p) (array_sort (fun a b => position a - position b) l) =
  filter (fun s => position s = p) l.
Proof. exact (array_sort_stable position p l). Qed.

Lemma sort_ascending_id l : ascending l -> array_sort (fun a b => position a - position b) l = l.
Proof. exact (array_sort_sorted_id position l). Qed.

Lemma sort_fmap (f : Shortcut -> Shortcut) l :
  (forall s, position (f s) = position s) ->
  array_sort (fun a b => position a - position b) (f <$> l) = f <$> array_sort (fun a b => position a - position b) l.
Proof. exact (array_sort_fmap position f l). Qed.

End SortByPosition.

Lemma positions_imap (l : list Shortcut) :
  position <$> imap (fun index shortcut => set_position (Z.of_nat index) shortcut) l
  = Z.of_nat <$> seq 0 (length l).
Proof. rewrite fmap_imap. apply (imap_seq_0 l Z.of_nat). Qed.

Lemma unpositioned_imap (l : list Shortcut) :
  unpositioned <$> imap (fun index shortcut => set_position (Z.of_nat index) shortcut) l
  = unpositioned <$> l.
Proof.
  rewrite fmap_imap, <- (imap_const unpositioned l).
  by apply imap_ext.
Qed.

Lemma ascending_of_positions (l : list Shortcut) i :
  position <$> l = Z.of_nat <$> seq i (length l) -> ascending l.
Proof.
  revert i. induction l as [|x l IH]; intros i H; [constructor|].
  simpl in H. injection H as Hx Hl.
  constructor; [by apply (IH (S i))|].
  destruct l as [|y l]; constructor.
  simpl in Hl. injection Hl as Hy _. lia.
Qed.

Lemma imap_positions_id (l : list Shortcut) i :
  position <$> l = Z.of_nat <$> seq i (length l) ->
  imap (fun index shortcut => set_position (Z.of_nat (i + index)) shortcut) l = l.
Proof.
  revert i. induction l as [|x l IH]; intros i H; [done|].
  simpl in H. injection H as Hx Hl.
  rewrite imap_cons. f_equal.
  - rewrite Nat.add_0_r, <- Hx. by destruct x.
  - rewrite <- (IH (S i) Hl) at 2. apply imap_ext. intros j y _. simpl.
    by rewrite Nat.add_succ_r.
Qed.

Lemma dense_spec (l : list Shortcut) :
  dense l = true <-> positions_of l = Z.of_nat <$> seq 0 (length l).
Proof. unfold dense, positions_of. apply bool_decide_eq_true. Qed.

Lemma reindexPositions_length l : length (reindexPositions l) = length l.
Proof. unfold reindexPositions. by rewrite length_imap, sort_length. Qed.

Lemma reindexPositions_positions l :
  positions_of (reindexPositions l) = Z.of_nat <$> seq 0 (length l).
Proof.
  unfold positions_of, reindexPositions.
  by rewrite positions_imap, sort_length.
Qed.

Lemma reindexPositions_dense l : dense (reindexPositions l) = true.
Proof.
  apply dense_spec. by rewrite reindexPositions_positions, reindexPositions_length.
Qed.

Lemma reindexPositions_order l :
  unpositioned <$> reindexPositions l =
  unpositioned <$> array_sort (fun a b => position a - position b) l.
Proof. apply unpositioned_imap. Qed.

Lemma reindexPositions_ascending l :
  ascending l -> unpositioned <$> reindexPositions l = unpositioned <$> l.
Proof.
  intros H. rewrite reindexPositions_order.
  by rewrite (sort_ascending_id l H).
Qed.

Lemma reindexPositions_dense_id l : dense l = true -> reindexPositions l = l.
Proof.
  intros H%dense_spec. unfold reindexPositions, positions_of in *.
  rewrite (sort_ascending_id l) by (by eapply ascending_of_positions).
  by apply (imap_positions_id l 0).
Qed.

(** ** Validation and repair *)

Section Validation.
Context {P : Platform}.

Lemma keeps_to_value s : keeps (to_value s) = truthy (target (action s)).
Proof. reflexivity. Qed.

(** The repair of a record: only the default identifier can fail, when the
    record has none and its target does not convert to a string. *)
Lemma repair_to_value now s :
  repair now (to_value s) =
    (fun id' =>
       {| id := id';
          label := validLabel (label s);
          enabled := enabled s;
          action := {| type := or_else (type (action s)) (VStr "modal");
                       target := target (action s) |};
          position := position s;
          visible := visible s;
          created_at := or_else (created_at s) (VStr now);
          updated_at := or_else (updated_at s) (VStr now) |})
    <$> (if truthy (id s) then Some (id s)
         else (fun text => VStr ("shortcut-" +:+ text)) <$> to_string (target (action s))).
Proof.
  unfold repair. cbn [to_value get assoc String.eqb Ascii.eqb Bool.eqb].
  rewrite validateLabel_string. cbn [to_number].
  destruct (if truthy (id s) then Some (id s)
            else (fun text => VStr ("shortcut-" +:+ text)) <$> to_string (target (action s)))
    as [id'|]; [|done].
  simpl. do 2 f_equal. by destruct (visible s).
Qed.

Lemma repair_identified now s :
  truthy (id s) = true ->
  repair now (to_value s) =
    Some {| id := id s;
            label := validLabel (label s);
            enabled := enabled s;
            action := {| type := or_else (type (action s)) (VStr "modal");
                         target := target (action s) |};
            position := position s;
            visible := visible s;
            created_at := or_else (created_at s) (VStr now);
            updated_at := or_else (updated_at s) (VStr now) |}.
Proof. intros Hi. by rewrite repair_to_value, Hi. Qed.

Lemma survives_spec s :
  survives s = true <->
  truthy (id s) = true /\ truthy (type (action s)) = true /\
  truthy (target (action s)) = true /\ truthy (created_at s) = true /\
  truthy (updated_at s) = true.
Proof. unfold survives. rewrite !andb_true_iff. tauto. Qed.

(** A record none of whose defaults applies is repaired to itself, up to
    the label, which is validated again. *)
Lemma repair_survivor now s :
  survives s = true -> repair now (to_value s) = Some (relabel s).
Proof.
  intros (Hi & Ht & Hg & Hc & Hu)%survives_spec.
  rewrite repair_identified by done. rewrite relabel_spec.
  unfold or_else. rewrite Ht, Hc, Hu.
  unfold set_label. by destruct s as [? ? ? [? ?] ? ? ? ?].
Qed.

Lemma repair_settled now s :
  survives s = true -> label_settled s = true -> repair now (to_value s) = Some s.
Proof.
  intros Hs Hl%label_settled_spec. rewrite repair_survivor by done.
  rewrite relabel_spec, Hl. by destruct s.
Qed.

Lemma repair_position now s r :
  repair now (to_value s) = Some r -> position r = position s.
Proof.
  rewrite repair_to_value. intros (i & _ & ->)%fmap_Some. done.
Qed.

Lemma repair_target now s r :
  repair now (to_value s) = Some r -> target (action r) = target (action s).
Proof.
  rewrite repair_to_value. intros (i & _ & ->)%fmap_Some. done.
Qed.

(** What [repair] returns, when it returns. *)
Lemma repair_Some now e r :
  repair now e = Some r ->
  truthy (id r) = true /\
  (truthy (get e "id") = true -> id r = get e "id") /\
  (truthy (get e "id") = false ->
   exists text, to_string (get (get e "action") "target") = Some text /\
                id r = VStr ("shortcut-" +:+ text)) /\
  validateLabel (get e "label") = Some (label r) /\
  enabled r = truthy (get e "enabled") /\
  type (action r) = or_else (get (get e "action") "type") (VStr "modal") /\
  target (action r) = get (get e "action") "target" /\
  (exists n, to_number (get e "position") = Some n /\ position r = number_or_zero n) /\
  visible r = match get e "visible" with VBool false => false | _ => true end /\
  created_at r = or_else (get e "created_at") (VStr now) /\
  updated_at r = or_else (get e "updated_at") (VStr now).
Proof.
  unfold repair. intros H.
  destruct (truthy (get e "id")) eqn:Hi; simpl in H.
  - destruct (validateLabel (get e "label")) as [l|]; [|done]. simpl in H.
    destruct (to_number (get e "position")) as [n|]; [|done]. simpl in H.
    injection H as <-. simpl. split_and!; eauto; done.
  - destruct (to_string (get (get e "action") "target")) as [text|]; [|done].
    simpl in H.
    destruct (validateLabel (get e "label")) as [l|]; [|done]. simpl in H.
    destruct (to_number (get e "position")) as [n|]; [|done]. simpl in H.
    injection H as <-. simpl. split_and!; eauto; done.
Qed.


Lemma filter_to_value (l : list Shortcut) :
  filter (fun e => keeps e = true) (to_value <$> l) =
  to_value <$> filter (fun s => truthy (target (action s)) = true) l.
Proof.
  induction l as [|s l IH]; [done|].
  rewrite fmap_cons, !filter_cons, keeps_to_value.
  destruct (decide (truthy (target (action s)) = true)); by rewrite ?fmap_cons, IH.
Qed.

Lemma mapM_fmap {A B C} (f : B -> option C) (g : A -> B) (l : list A) :
  mapM f (g <$> l) = mapM (fun x => f (g x)) l.
Proof.
  induction l as [|x l IH]; [done|].
  change (mapM f (g <$> x :: l)) with
    (y ← f (g x); k ← mapM f (g <$> l); mret (y :: k)).
  by rewrite IH.
Qed.

Lemma validateShortcuts_to_array now l :
  validateShortcuts (to_array l) now =
    mapM (fun s => repair now (to_value s))
      (filter (fun s => truthy (target (action s)) = true) l).
Proof.
  unfold validateShortcuts, to_array. by rewrite filter_to_value, mapM_fmap.
Qed.

Lemma validateShortcuts_settled now l :
  forallb (fun s => survives s && label_settled s) l = true ->
  validateShortcuts (to_array l) now = Some l.
Proof.
  rewrite validateShortcuts_to_array.
  induction l as [|s l IH]; simpl; [done|].
  intros [[Hs Hl]%andb_true_iff Hrest]%andb_true_iff.
  pose proof Hs as (_ & _ & Hg & _)%survives_spec.
  rewrite filter_cons, decide_True by done. simpl.
  by rewrite repair_settled, IH.
Qed.

Lemma settled_spec l :
  settled l = true <->
  forallb (fun s => survives s && label_settled s) l = true /\ dense l = true.
Proof. unfold settled. apply andb_true_iff. Qed.

(** Every record that validation returns is the repair of an entry that
    the filter kept. *)
Lemma validateShortcuts_Some v now l :
  validateShortcuts v now = Some l ->
  Forall (fun r => exists e, keeps e = true /\ repair now e = Some r) l.
Proof.
  destruct v as [| | | | |xs|]; simpl; try (intros [= <-]; by constructor).
  intros H%mapM_Some_1.
  assert (Forall (fun e => keeps e = true) (filter (fun s => keeps s = true) xs))
    as Hk by (apply Forall_forall; by intros e [? _]%list_elem_of_filter).
  induction H as [|e r es rs He _ IH]; [constructor|].
  apply Forall_cons in Hk as [Hke Hk]. constructor; eauto.
Qed.

Lemma validateShortcuts_labels v now l :
  validateShortcuts v now = Some l ->
  Forall (fun s => (1 <= String.length (label s) <= 20)%nat) l.
Proof.
  intros H%validateShortcuts_Some. eapply Forall_impl; [exact H|].
  intros r (e & _ & (_ & _ & _ & Hl & _)%repair_Some). simpl.
  by eapply validateLabel_length.
Qed.

Lemma keeps_target e : keeps e = true -> truthy (get (get e "action") "target") = true.
Proof.
  unfold keeps. intros [_ Ht]%andb_true_iff.
  destruct e; try done. simpl in *. by destruct (assoc "action" fields).
Qed.

Lemma validateShortcuts_targets v now l :
  validateShortcuts v now = Some l ->
  Forall (fun s => truthy (target (action s)) = true) l.
Proof.
  intros H%validateShortcuts_Some. eapply Forall_impl; [exact H|].
  intros r (e & Hk & (_ & _ & _ & _ & _ & _ & Ht & _)%repair_Some). simpl.
  rewrite Ht. by apply keeps_target.
Qed.

Lemma validateShortcuts_ids v now l :
  validateShortcuts v now = Some l -> Forall (fun s => truthy (id s) = true) l.
Proof.
  intros H%validateShortcuts_Some. eapply Forall_impl; [exact H|].
  by intros r (e & _ & (Hi & _)%repair_Some).
Qed.

Lemma validate_targets_of now l v :
  validateShortcuts (to_array l) now = Some v ->
  targets_of v = filter (fun t => truthy t = true) (targets_of l).
Proof.
  rewrite validateShortcuts_to_array. unfold targets_of.
  revert v. induction l as [|s l IH]; intros v; [by intros [= <-]|].
  rewrite fmap_cons, !filter_cons.
  destruct (decide (truthy (target (action s)) = true)); [|apply IH].
  simpl. destruct (repair now (to_value s)) as [r|] eqn:Hr; [|done]. simpl.
  destruct (mapM _ _) as [rs|] eqn:Hrs; [|done]. simpl. intros [= <-].
  rewrite fmap_cons, (IH rs eq_refl). f_equal. by eapply repair_target.
Qed.

Lemma reindexPositions_targets l : targets_of (reindexPositions l) ≡ₚ targets_of l.
Proof.
  unfold targets_of, reindexPositions.
  rewrite fmap_imap.
  rewrite (imap_ext _ (const (fun s => target (action s)))) by done.
  rewrite imap_const. apply fmap_Permutation, sort_perm.
Qed.

Lemma reindexPositions_labels l : labels_of (reindexPositions l) ≡ₚ labels_of l.
Proof.
  unfold labels_of, reindexPositions.
  rewrite fmap_imap.
  rewrite (imap_ext _ (const label)) by done.
  rewrite imap_const. apply fmap_Permutation, sort_perm.
Qed.

(** ** save *)

Lemma written_Some shortcuts now l :
  written shortcuts now = Some l <->
  exists validated,
    validateShortcuts shortcuts now = Some validated /\ l = reindexPositions validated.
Proof. unfold written. rewrite fmap_Some. naive_solver. Qed.

Lemma written_None shortcuts now :
  written shortcuts now = None <-> validateShortcuts shortcuts now = None.
Proof. unfold written. apply fmap_None. Qed.

Lemma save_try_written st shortcuts now :
  save_try st shortcuts now =
    l ← written shortcuts now;
    if accepts (storage st) (JSON_stringify (to_array l))
    then Some (after_save st l) else None.
Proof.
  unfold save_try, written, setItem.
  destruct (validateShortcuts shortcuts now) as [validated|]; [|done]. simpl.
  by destruct (accepts _ _).
Qed.

Lemma save_accepted st shortcuts now l :
  written shortcuts now = Some l ->
  accepts (storage st) (JSON_stringify (to_array l)) = true ->
  save st shortcuts now = (true, after_save st l).
Proof.
  intros Hw Ha. unfold save. rewrite save_try_written, Hw. simpl. by rewrite Ha.
Qed.

Lemma save_refused st shortcuts now l :
  written shortcuts now = Some l ->
  accepts (storage st) (JSON_stringify (to_array l)) = false ->
  save st shortcuts now = (false, st).
Proof.
  intros Hw Ha. unfold save. rewrite save_try_written, Hw. simpl. by rewrite Ha.
Qed.

(** Validation throws: [save] catches the exception before anything is
    written. *)
Lemma save_thrown st shortcuts now :
  written shortcuts now = None -> save st shortcuts now = (false, st).
Proof. intros Hw. unfold save. by rewrite save_try_written, Hw. Qed.

Lemma save_cases st shortcuts now :
  (exists l, written shortcuts now = Some l /\
             accepts (storage st) (JSON_stringify (to_array l)) = true /\
             save st shortcuts now = (true, after_save st l)) \/
  save st shortcuts now = (false, st).
Proof.
  destruct (written shortcuts now) as [l|] eqn:Hw;
    [|right; by apply save_thrown].
  destruct (accepts (storage st) (JSON_stringify (to_array l))) eqn:Ha.
  - left. exists l. eauto using save_accepted.
  - right. by eapply save_refused.
Qed.

Lemma save_true st shortcuts now :
  fst (save st shortcuts now) = true ->
  exists l, written shortcuts now = Some l /\
            accepts (storage st) (JSON_stringify (to_array l)) = true /\
            save st shortcuts now = (true, after_save st l).
Proof.
  destruct (save_cases st shortcuts now) as [H|E]; [done|].
  rewrite E. discriminate.
Qed.

Lemma written_settled l now : settled l = true -> written (to_array l) now = Some l.
Proof.
  intros [Hl Hd]%settled_spec. unfold written.
  rewrite validateShortcuts_settled by done. simpl.
  by rewrite reindexPositions_dense_id.
Qed.

End Validation.
(** ** Settled collections *)

Section Settled.
Context {P : Platform}.

Lemma nonempty_string_truthy v : nonempty_string v = true -> truthy v = true.
Proof. by destruct v. Qed.

Lemma well_formed_settled s :
  well_formed s = true -> survives s = true /\ label_settled s = true.
Proof.
  unfold well_formed. rewrite !andb_true_iff.
  intros ((((((((Hi & Ht) & Hl1) & Hl2) & Hty) & Hg) & _) & Hc) & Hu).
  split.
  - apply survives_spec. split_and!; try by apply nonempty_string_truthy.
    destruct (type (action s)); try done. simpl in Hty.
    apply String.eqb_eq in Hty as ->. done.
  - apply label_settled_spec.
    apply String.eqb_eq in Ht.
    apply Nat.leb_le in Hl1, Hl2.
    apply validLabel_trimmed; [done| |done].
    intros E. rewrite E in Hl1. simpl in Hl1. lia.
Qed.

Lemma well_formed_all_settled l :
  forallb well_formed l = true ->
  forallb (fun s => survives s && label_settled s) l = true.
Proof.
  rewrite !forallb_forall. intros H s Hs.
  destruct (well_formed_settled s (H s Hs)) as [-> ->]. done.
Qed.

(** A collection whose records pass the filter keeps its length, order,
    positions and targets under validation. *)
Lemma validateShortcuts_kept now l :
  Forall (fun s => truthy (target (action s)) = true) l ->
  validateShortcuts (to_array l) now = mapM (fun s => repair now (to_value s)) l.
Proof.
  intros H. rewrite validateShortcuts_to_array. f_equal.
  induction H as [|s l Hs _ IH]; [done|].
  by rewrite filter_cons, decide_True, IH.
Qed.

Lemma validateShortcuts_survivors now l :
  forallb survives l = true ->
  validateShortcuts (to_array l) now = Some (relabel <$> l).
Proof.
  intros H. rewrite validateShortcuts_kept.
  - apply mapM_Some_2, Forall2_fmap_r, Forall_Forall2_diag, Forall_forall.
    intros s Hs. apply repair_survivor.
    rewrite forallb_forall in H. by apply H, list_elem_of_In.
  - apply Forall_forall. intros s Hs%list_elem_of_In.
    rewrite forallb_forall in H. by apply H, survives_spec in Hs as (_&_&?&_).
Qed.

Lemma positions_relabel (l : list Shortcut) :
  position <$> (relabel <$> l) = position <$> l.
Proof.
  rewrite <- list_fmap_compose. apply list_fmap_ext. intros i s _. simpl.
  by rewrite relabel_spec.
Qed.

Lemma written_survivors now l :
  forallb survives l = true -> dense l = true ->
  written (to_array l) now = Some (relabel <$> l).
Proof.
  intros Hs Hd. unfold written. rewrite validateShortcuts_survivors by done.
  simpl. f_equal.
  apply reindexPositions_dense_id, dense_spec.
  apply dense_spec in Hd. unfold positions_of in *.
  by rewrite length_fmap, <- Hd, positions_relabel.
Qed.

Lemma load_cached st l now : cache st = Some l -> load st now = (l, st).
Proof. unfold load. by intros ->. Qed.

Lemma save_true_state st shortcuts now :
  fst (save st shortcuts now) = true ->
  exists l, written shortcuts now = Some l /\
            snd (save st shortcuts now) = after_save st l.
Proof.
  intros (l & Hw & _ & E)%save_true. exists l. by rewrite E.
Qed.

End Settled.

(** ** Edits of a settled collection *)

Section Edits.
Context {P : Platform}.

Lemma forallb_Forall {A} (f : A -> bool) l :
  forallb f l = true <-> Forall (fun x => f x = true) l.
Proof.
  induction l as [|x l IH]; simpl; [by split; [constructor|]|].
  rewrite andb_true_iff, Forall_cons, IH. done.
Qed.

Lemma relabel_settled s : label_settled s = true -> relabel s = s.
Proof.
  intros H%label_settled_spec. rewrite relabel_spec, H. by destruct s.
Qed.

Lemma settled_parts l :
  settled l = true ->
  Forall (fun s => survives s = true) l /\
  Forall (fun s => label_settled s = true) l /\ dense l = true.
Proof.
  intros [H Hd]%settled_spec. apply forallb_Forall in H.
  split_and!; [| |done]; eapply Forall_impl; try exact H;
    simpl; by intros s [? ?]%andb_true_iff.
Qed.

Lemma fmap_relabel_settled l :
  Forall (fun s => label_settled s = true) l -> relabel <$> l = l.
Proof.
  induction 1 as [|s l Hs _ IH]; [done|].
  by rewrite fmap_cons, relabel_settled, IH.
Qed.

Lemma find_target_Some modalId l i s :
  find_target modalId l = Some (i, s) ->
  l !! i = Some s /\ target (action s) = VStr modalId.
Proof.
  unfold find_target. intros (Hi & Ht & _)%list_find_Some. split; [done|].
  unfold targets, strict_eq_string in Ht.
  destruct (target (action s)); try done. by apply String.eqb_eq in Ht as ->.
Qed.

Lemma find_target_None modalId l :
  find_target modalId l = None -> VStr modalId ∉ targets_of l.
Proof.
  unfold find_target. intros H%list_find_None.
  unfold targets_of. intros (s & Hs & Hin)%list_elem_of_fmap.
  rewrite Forall_forall in H. apply (H s Hin).
  unfold targets. rewrite <- Hs. simpl. apply String.eqb_refl.
Qed.

Lemma dense_insert l i s s1 :
  dense l = true -> l !! i = Some s -> position s1 = position s ->
  dense (<[i:=s1]> l) = true.
Proof.
  rewrite !dense_spec. unfold positions_of. intros Hd Hi Hp.
  rewrite list_fmap_insert, length_insert, Hp.
  rewrite list_insert_id; [done|]. by rewrite list_lookup_fmap, Hi.
Qed.

Lemma dense_snoc l s :
  dense l = true -> position s = Z.of_nat (length l) -> dense (l ++ [s]) = true.
Proof.
  rewrite !dense_spec. unfold positions_of. intros Hd Hp.
  rewrite fmap_app, length_app, Hd. simpl.
  rewrite Nat.add_1_r, seq_S, fmap_app. simpl. by rewrite Hp.
Qed.

(** What [save] writes after one record of a settled collection has been
    replaced in place, its position kept. *)
Lemma written_edit now l i s s1 :
  settled l = true -> l !! i = Some s ->
  survives s1 = true -> position s1 = position s ->
  written (to_array (<[i:=s1]> l)) now = Some (<[i:=relabel s1]> l).
Proof.
  intros (Hs & Hl & Hd)%settled_parts Hi Hs1 Hp.
  rewrite written_survivors.
  - by rewrite list_fmap_insert, fmap_relabel_settled.
  - apply forallb_Forall. by apply Forall_insert.
  - by eapply dense_insert.
Qed.

Lemma written_snoc now l s :
  settled l = true -> survives s = true -> label_settled s = true ->
  position s = Z.of_nat (length l) ->
  written (to_array (l ++ [s])) now = Some (l ++ [s]).
Proof.
  intros (Hs & Hl & Hd)%settled_parts Hs1 Hl1 Hp.
  apply written_settled, settled_spec. split; [|by apply dense_snoc].
  apply forallb_Forall, Forall_app. split.
  - apply Forall_forall. intros x Hx. rewrite Forall_forall in Hs, Hl.
    by rewrite (Hs x Hx), (Hl x Hx).
  - repeat constructor. by rewrite Hs1, Hl1.
Qed.

Lemma save_outcome st l shortcuts now :
  written shortcuts now = Some l ->
  save st shortcuts now =
    if accepts (storage st) (JSON_stringify (to_array l))
    then (true, after_save st l) else (false, st).
Proof.
  intros Hw.
  destruct (accepts (storage st) (JSON_stringify (to_array l))) eqn:Ha;
    eauto using save_accepted, save_refused.
Qed.

Lemma save_edited_outcome st l' l shortcuts now :
  written shortcuts now = Some l ->
  save (set_cache (Some l') st) shortcuts now =
    if accepts (storage st) (JSON_stringify (to_array l))
    then (true, after_save st l) else (false, set_cache (Some l') st).
Proof. intros H. exact (save_outcome (set_cache (Some l') st) l shortcuts now H). Qed.

Lemma set_cache_same st l : cache st = Some l -> set_cache (Some l) st = st.
Proof. destruct st. simpl. by intros ->. Qed.

Lemma truthy_string s : s <> ""%string -> truthy (VStr s) = true.
Proof. simpl. by destruct (String.eqb_spec s ""). Qed.

Lemma written_labels shortcuts now l :
  written shortcuts now = Some l ->
  Forall (fun s => (1 <= String.length (label s) <= 20)%nat) l.
Proof.
  intros (validated & Hv & ->)%written_Some.
  pose proof (validateShortcuts_labels shortcuts now validated Hv) as H.
  apply (Forall_fmap label (fun l => (1 <= String.length l <= 20)%nat)) in H.
  apply (Forall_fmap label (fun l => (1 <= String.length l <= 20)%nat)).
  fold (labels_of validated) in H.
  fold (labels_of (reindexPositions validated)).
  by rewrite reindexPositions_labels.
Qed.

End Edits.

(** ** Round trip, reindexing, failed writes *)

(** C2 as stated fails: two well-formed records whose positions are 5 and 1
    come back from [load()] in the other order, so the result is not the
    saved sequence up to position values. *)
Lemma round_trip_reorders :
  let records := [sample "a" 5; sample "b" 1] in
  let saved := @save Ref.platform (new empty_storage) (to_array records) "T1" in
  forallb well_formed records = true /\
  fst saved = true /\
  fst (@load Ref.platform (snd saved) "T2") =
    [set_position 0 (sample "b" 1); set_position 1 (sample "a" 5)] /\
  unpositioned <$> fst (@load Ref.platform (snd saved) "T2") <>
    unpositioned <$> records.
Proof. vm_compute. split_and!; try done. Qed.

Section RoundTrip.
Context {P : Platform}.

(** C2, amended: for every well-formed sequence [records], if
    [save(records)] succeeds then [load()] called immediately afterwards
    returns the records stably sorted by ascending position with the
    positions renumbered [0 .. n-1] and every other field as it was (so the
    same sequence as [records] up to position values whenever the positions
    of [records] do not decrease along the array), and the in-memory cache
    is exactly the sequence that this save persisted. *)
Theorem load_after_save_round_trip st records now now' :
  forallb well_formed records = true ->
  fst (save st (to_array records) now) = true ->
  let st' := snd (save st (to_array records) now) in
  load st' now' = (reindexPositions records, st') /\
  cache st' = Some (reindexPositions records) /\
  item (storage st') = Some (JSON_stringify (to_array (reindexPositions records))) /\
  unpositioned <$> reindexPositions records =
    unpositioned <$> array_sort (fun a b => position a - position b) records /\
  positions_of (reindexPositions records) = Z.of_nat <$> seq 0 (length records) /\
  (ascending records ->
   unpositioned <$> reindexPositions records = unpositioned <$> records).
Proof.
  intros Hwf Hok st'. subst st'.
  destruct (save_true_state _ _ _ Hok) as (l & Hw & ->).
  unfold written in Hw.
  rewrite (validateShortcuts_settled now records (well_formed_all_settled _ Hwf))
    in Hw.
  injection Hw as <-.
  split_and!; try done.
  - apply reindexPositions_order.
  - apply reindexPositions_positions.
  - apply reindexPositions_ascending.
Qed.

End RoundTrip.

Lemma load_after_save_round_trip_witness :
  let records := [sample "a" 5; sample "b" 1] in
  let st' := snd (@save Ref.platform (new empty_storage) (to_array records) "T1") in
  forallb well_formed records = true /\
  fst (@save Ref.platform (new empty_storage) (to_array records) "T1") = true /\
  @load Ref.platform st' "T2" = (reindexPositions records, st').
Proof.
  intros records st'. split; [reflexivity|]. split; [reflexivity|].
  exact (proj1 (@load_after_save_round_trip Ref.platform (new empty_storage)
                  records "T1" "T2" eq_refl eq_refl)).
Defined.

Section Reindexing.
Context {P : Platform}.

Lemma written_targets_truthy shortcuts now l :
  written shortcuts now = Some l ->
  Forall (fun s => truthy (target (action s)) = true) l.
Proof.
  intros (validated & Hv & ->)%written_Some.
  pose proof (validateShortcuts_targets shortcuts now validated Hv) as H.
  apply (Forall_fmap (fun s => target (action s)) (fun v => truthy v = true)) in H.
  apply (Forall_fmap (fun s => target (action s)) (fun v => truthy v = true)).
  fold (targets_of validated) in H.
  fold (targets_of (reindexPositions validated)).
  by rewrite reindexPositions_targets.
Qed.

Lemma written_ids shortcuts now l :
  written shortcuts now = Some l -> Forall (fun s => truthy (id s) = true) l.
Proof.
  intros (validated & Hv & ->)%written_Some.
  pose proof (validateShortcuts_ids shortcuts now validated Hv) as H.
  apply (Forall_fmap id (fun v => truthy v = true)) in H.
  apply (Forall_fmap id (fun v => truthy v = true)).
  assert (id <$> reindexPositions validated ≡ₚ id <$> validated) as ->; [|done].
  unfold reindexPositions. rewrite fmap_imap.
  rewrite (imap_ext _ (const id)) by done.
  rewrite imap_const. apply fmap_Permutation, sort_perm.
Qed.

(** The repairs of records keep positions and targets. *)
Lemma repairs_keep now l v :
  mapM (fun s => repair now (to_value s)) l = Some v ->
  positions_of v = positions_of l /\ targets_of v = targets_of l.
Proof.
  intros H%mapM_Some_1. unfold positions_of, targets_of.
  induction H as [|s r l v Hr _ [IH1 IH2]]; [done|].
  rewrite !fmap_cons, IH1, IH2.
  by rewrite (repair_position _ _ _ Hr), (repair_target _ _ _ Hr).
Qed.

(** Saving again what a save has written assigns the same positions to the
    same records. *)
Lemma written_again shortcuts now now2 persisted :
  written shortcuts now = Some persisted ->
  exists again,
    written (to_array persisted) now2 = Some again /\
    positions_of again = positions_of persisted /\
    targets_of again = targets_of persisted.
Proof.
  intros Hw.
  pose proof (written_targets_truthy _ _ _ Hw) as Ht.
  pose proof (written_ids _ _ _ Hw) as Hi.
  assert (is_Some (mapM (fun s => repair now2 (to_value s)) persisted)) as [v Hv].
  { apply mapM_is_Some_2. eapply Forall_impl; [exact Hi|].
    intros s Hs. simpl. by rewrite repair_identified. }
  destruct (repairs_keep _ _ _ Hv) as [Hp Hg].
  exists v. split_and!; [|done|done].
  unfold written. rewrite validateShortcuts_kept by done. rewrite Hv. simpl.
  f_equal. apply reindexPositions_dense_id, dense_spec.
  rewrite Hp, <- (length_fmap position v). fold (positions_of v). rewrite Hp.
  unfold positions_of at 2. rewrite length_fmap.
  apply dense_spec. apply written_Some in Hw as (validated & _ & ->).
  apply reindexPositions_dense.
Qed.

Lemma untimed_reindexPositions l :
  untimed <$> reindexPositions l = reindexPositions (untimed <$> l).
Proof.
  unfold reindexPositions.
  rewrite (sort_fmap untimed) by done.
  rewrite fmap_imap, imap_fmap. by apply imap_ext.
Qed.

Lemma untimed_repair now now2 e :
  untimed <$> repair now2 e = untimed <$> repair now e.
Proof.
  unfold repair.
  destruct (if truthy (get e "id") then Some (get e "id") else _) as [i|]; [|done].
  simpl. destruct (validateLabel (get e "label")) as [l|]; [|done]. simpl.
  by destruct (to_number (get e "position")) as [n|].
Qed.

Lemma untimed_mapM_repair now now2 (es : list value) :
  (fun l : list Shortcut => untimed <$> l) <$> mapM (repair now2) es =
  (fun l : list Shortcut => untimed <$> l) <$> mapM (repair now) es.
Proof.
  induction es as [|e es IH]; [done|].
  change (mapM (repair now2) (e :: es)) with
    (y ← repair now2 e; k ← mapM (repair now2) es; mret (y :: k)).
  change (mapM (repair now) (e :: es)) with
    (y ← repair now e; k ← mapM (repair now) es; mret (y :: k)).
  pose proof (untimed_repair now now2 e) as He.
  destruct (repair now2 e) as [r2|], (repair now e) as [r1|]; try done. simpl.
  destruct (mapM (repair now2) es) as [k2|], (mapM (repair now) es) as [k1|];
    try done.
  apply (inj Some) in He. apply (inj Some) in IH.
  cbn [mbind option_bind mret option_ret fmap option_fmap option_map].
  by rewrite !fmap_cons, He, IH.
Qed.

(** The clock does not influence what a save writes, time stamps apart, nor
    whether its validation throws. *)
Lemma written_untimed shortcuts now now2 :
  (fun l : list Shortcut => untimed <$> l) <$> written shortcuts now2 =
  (fun l : list Shortcut => untimed <$> l) <$> written shortcuts now.
Proof.
  unfold written.
  assert (forall v : option (list Shortcut),
            (fun l : list Shortcut => untimed <$> l) <$> (reindexPositions <$> v) =
            reindexPositions <$>
              ((fun l : list Shortcut => untimed <$> l) <$> v)) as E.
  { intros [v|]; [|done]. simpl. by rewrite untimed_reindexPositions. }
  rewrite !E. f_equal.
  destruct shortcuts; try done. apply untimed_mapM_repair.
Qed.

Lemma written_other_clock shortcuts now now2 persisted :
  written shortcuts now = Some persisted ->
  exists again, written shortcuts now2 = Some again /\
                untimed <$> again = untimed <$> persisted.
Proof.
  intros Hw. pose proof (written_untimed shortcuts now now2) as E.
  rewrite Hw in E. simpl in E. apply fmap_Some in E as (again & Ha & Hu).
  eauto.
Qed.

Lemma toggle_is_save st modalId enabled' modalTitle t_load t_now t_save :
  exists st1 shortcuts1,
    toggle st modalId enabled' modalTitle t_load t_now t_save =
      save st1 (to_array shortcuts1) t_save.
Proof.
  unfold toggle. destruct (load st t_load) as [shortcuts st1].
  destruct (find_target modalId shortcuts) as [[i s]|]; [eauto|].
  destruct enabled'; eauto.
Qed.

Lemma updateLabel_is_save st modalId label' t_load t_now t_save :
  fst (updateLabel st modalId label' t_load t_now t_save) = true ->
  exists st1 shortcuts1,
    updateLabel st modalId label' t_load t_now t_save =
      save st1 (to_array shortcuts1) t_save.
Proof.
  unfold updateLabel. destruct (load st t_load) as [shortcuts st1].
  destruct (find_target modalId shortcuts) as [[i s]|]; [eauto|discriminate].
Qed.

Lemma remove_is_save st modalId t_load t_save :
  fst (remove st modalId t_load t_save) = true ->
  exists st1 shortcuts1,
    remove st modalId t_load t_save = save st1 (to_array shortcuts1) t_save.
Proof.
  unfold remove. destruct (load st t_load) as [shortcuts st1].
  destruct (find_target modalId shortcuts) as [[i s]|]; [eauto|discriminate].
Qed.

(** C3: after every successful [save] the persisted records carry the
    positions [0 .. n-1], in the order of the stable ascending sort of the
    positions they had before (the sort is ascending, and records of equal
    position keep their array order: positions 5, 1, 1 become 0, 1, 2 with
    the two ties in their original order); the saves that [toggle],
    [updateLabel] and [remove] end with are such saves; and saving the same
    content again, be it the result or the same argument a second time,
    assigns the same positions. *)
Theorem reindexing_invariant :
  (forall st shortcuts now,
     fst (save st shortcuts now) = true ->
     exists validated persisted,
       validateShortcuts shortcuts now = Some validated /\
       let sorted := array_sort (fun a b => position a - position b) validated in
       cache (snd (save st shortcuts now)) = Some persisted /\
       item (storage (snd (save st shortcuts now))) =
         Some (JSON_stringify (to_array persisted)) /\
       positions_of persisted = Z.of_nat <$> seq 0 (length validated) /\
       unpositioned <$> persisted = unpositioned <$> sorted /\
       ascending sorted /\
       (forall p, filter (fun s => position s = p) sorted =
                  filter (fun s => position s = p) validated) /\
       (forall now2, exists again,
          written (to_array persisted) now2 = Some again /\
          positions_of again = positions_of persisted /\
          targets_of again = targets_of persisted) /\
       (forall now2, exists again,
          written shortcuts now2 = Some again /\
          untimed <$> again = untimed <$> persisted)) /\
  (forall st modalId enabled' modalTitle t_load t_now t_save,
     exists st1 shortcuts1,
       toggle st modalId enabled' modalTitle t_load t_now t_save =
         save st1 (to_array shortcuts1) t_save) /\
  (forall st modalId label' t_load t_now t_save,
     fst (updateLabel st modalId label' t_load t_now t_save) = true ->
     exists st1 shortcuts1,
       updateLabel st modalId label' t_load t_now t_save =
         save st1 (to_array shortcuts1) t_save) /\
  (forall st modalId t_load t_save,
     fst (remove st modalId t_load t_save) = true ->
     exists st1 shortcuts1,
       remove st modalId t_load t_save = save st1 (to_array shortcuts1) t_save) /\
  (forall now,
     written (to_array [sample "a" 5; sample "b" 1; sample "c" 1]) now =
       Some [set_position 0 (sample "b" 1); set_position 1 (sample "c" 1);
             set_position 2 (sample "a" 5)]).
Proof.
  split_and!.
  - intros st shortcuts now Hok.
    destruct (save_true_state _ _ _ Hok) as (persisted & Hw & ->).
    pose proof Hw as (validated & Hv & E)%written_Some.
    exists validated, persisted. split; [done|]. intros sorted.
    split_and!; try done.
    + rewrite E. apply reindexPositions_positions.
    + rewrite E. apply reindexPositions_order.
    + apply sort_ascending.
    + intros p. apply sort_stable.
    + intros now2. by eapply written_again.
    + intros now2. by eapply written_other_clock.
  - apply toggle_is_save.
  - apply updateLabel_is_save.
  - apply remove_is_save.
  - intros now. reflexivity.
Qed.

(** C4: whatever the input is, when the storage refuses the write
    ([setItem] throws) [save] returns false, without an exception, and the
    store is as it was: the cache holds its value from before the call, and
    a subsequent [load()] returns what it would have returned before. The
    same holds when the validation throws, before anything is written. *)
Theorem save_write_failure st shortcuts now :
  match written shortcuts now with
  | Some l => setItem (storage st) (JSON_stringify (to_array l)) = None
  | None => True
  end ->
  save st shortcuts now = (false, st) /\
  cache (snd (save st shortcuts now)) = cache st /\
  forall now', load (snd (save st shortcuts now)) now' = load st now'.
Proof.
  intros H.
  assert (save st shortcuts now = (false, st)) as ->; [|done].
  destruct (written shortcuts now) as [l|] eqn:Hw; [|by apply save_thrown].
  apply (save_refused st shortcuts now l Hw).
  unfold setItem in H. by destruct (accepts _ _).
Qed.

End Reindexing.

Lemma reindexing_invariant_witness :
  let st := new empty_storage in
  let shortcuts := to_array [sample "a" 5; sample "b" 1; sample "c" 1] in
  fst (@save Ref.platform st shortcuts "T1") = true /\
  exists persisted,
    cache (snd (@save Ref.platform st shortcuts "T1")) = Some persisted /\
    positions_of persisted = [0; 1; 2].
Proof.
  intros st shortcuts. split; [reflexivity|].
  destruct (proj1 (@reindexing_invariant Ref.platform) st shortcuts "T1" eq_refl)
    as (validated & persisted & Hv & Hc & _ & Hp & _).
  exists persisted. split; [exact Hc|].
  rewrite Hp. injection Hv as <-. reflexivity.
Defined.

Lemma save_write_failure_witness :
  let st := {| cache := Some [sample "a" 0]; storage := full_storage; events := [] |} in
  let shortcuts := to_array [sample "b" 0] in
  @written Ref.platform shortcuts "T1" = Some [sample "b" 0] /\
  setItem (storage st)
    (@JSON_stringify Ref.platform (to_array [sample "b" 0])) = None /\
  @save Ref.platform st shortcuts "T1" = (false, st).
Proof.
  intros st shortcuts. split; [reflexivity|]. split; [reflexivity|].
  exact (proj1 (@save_write_failure Ref.platform st shortcuts "T1" eq_refl)).
Defined.

(** ** Loading and importing *)

(** C5 as stated fails: when nothing is stored, or when the stored text
    parses to something that is not an array, the first [load()] returns the
    empty sequence but writes nothing back. *)
Lemma load_does_not_persist_empty :
  let missing := @load Ref.platform (new empty_storage) "T" in
  let not_array := @load Ref.platform (new (stored "{}")) "T" in
  fst missing = [] /\
  item (storage (snd missing)) = None /\
  item (storage (snd missing)) <> Some (@JSON_stringify Ref.platform (to_array [])) /\
  fst not_array = [] /\
  item (storage (snd not_array)) = Some "{}"%string /\
  item (storage (snd not_array)) <> Some (@JSON_stringify Ref.platform (to_array [])).
Proof. vm_compute. split_and!; done. Qed.


Section Loading.
Context {P : Platform}.

Lemma truthy_or_else a b : truthy b = true -> truthy (or_else a b) = true.
Proof. unfold or_else. by destruct (truthy a) eqn:E. Qed.

Lemma written_empty now : written (VArr []) now = Some [].
Proof. reflexivity. Qed.

(** The [catch] block of [load]. *)
Lemma load_caught st now :
  cache st = None -> load_try st now = None ->
  load st now =
    ([], if accepts (storage st) (JSON_stringify (to_array []))
         then after_save st [] else set_cache (Some []) st).
Proof.
  intros Hc Ht. unfold load. rewrite Hc, Ht.
  rewrite (save_outcome (set_cache (Some []) st) [] (VArr []) now (written_empty now)).
  simpl. by destruct (accepts _ _).
Qed.

(** C5, amended: on a store that has not loaded yet, [load()] returns the
    empty sequence, without an exception, when the stored value is missing,
    is not parseable JSON or parses to something that is not an array (or
    when the storage cannot be read). It writes the empty sequence back only
    when the read or the parse failed, and then only if the storage accepts
    the write; a missing value and a parseable value that is not an array
    leave the storage as it was. *)
Theorem load_fail_safe st now :
  cache st = None ->
  (readable (storage st) = true ->
   item (storage st) = None \/ item (storage st) = Some ""%string ->
   load st now = ([], set_cache (Some []) st)) /\
  (forall raw v,
     readable (storage st) = true -> item (storage st) = Some raw ->
     raw <> ""%string -> JSON_parse raw = Some v -> isArray v = false ->
     load st now = ([], set_cache (Some []) st)) /\
  (readable (storage st) = false \/
   (exists raw, item (storage st) = Some raw /\ raw <> ""%string /\
                JSON_parse raw = None) ->
   fst (load st now) = [] /\
   snd (load st now) =
     if accepts (storage st) (JSON_stringify (to_array []))
     then after_save st [] else set_cache (Some []) st).
Proof.
  intros Hc. split_and!.
  - unfold load, load_try, getItem. rewrite Hc. intros -> [-> | ->]; done.
  - unfold load, load_try, getItem. rewrite Hc.
    intros raw v -> -> Hraw Hv Harr. simpl.
    destruct raw as [|c raw]; [done|]. simpl. rewrite Hv. simpl.
    by destruct v.
  - intros H. rewrite load_caught; [done|done|].
    unfold load_try, getItem.
    destruct H as [-> | (raw & -> & Hraw & Hp)]; [done|].
    destruct (readable (storage st)); [|done]. simpl.
    destruct raw; [done|]. by rewrite Hp.
Qed.



End Loading.

Lemma load_fail_safe_witness :
  let st := new (stored "not json") in
  cache st = None /\
  @JSON_parse Ref.platform "not json" = None /\
  fst (@load Ref.platform st "T") = [] /\
  item (storage (snd (@load Ref.platform st "T"))) = Some "[]"%string.
Proof.
  intros st. split; [reflexivity|]. split; [reflexivity|].
  destruct (proj2 (proj2 (@load_fail_safe Ref.platform st "T" eq_refl)))
    as [H1 H2].
  - right. exists "not json"%string. split_and!; [reflexivity|discriminate|reflexivity].
  - split; [exact H1|]. rewrite H2. reflexivity.
Defined.


(** ** toggle and updateLabel *)

(** C6 as stated fails: a record whose stored label is the 20-character
    prefix of a longer text, ending in a space, has its label changed by
    [toggle]; and for the empty target [toggle(target, true, title)] leaves
    no record behind. *)
Lemma toggle_changes_label :
  let st1 := snd (@save Ref.platform (new empty_storage)
                    (VArr [raw_entry "x" long_label]) "T0") in
  let toggled := @toggle Ref.platform st1 "x" false "" "T1" "T2" "T3" in
  (labels_of <$> cache st1) = Some ["aaaaaaaaaaaaaaaaaaa "%string] /\
  fst toggled = true /\
  (labels_of <$> cache (snd toggled)) = Some ["aaaaaaaaaaaaaaaaaaa"%string] /\
  (labels_of <$> cache (snd toggled)) <> (labels_of <$> cache st1) /\
  @toggle Ref.platform (new empty_storage) "" true "Title" "T1" "T2" "T3" =
    (true, @after_save Ref.platform (new empty_storage) []).
Proof. vm_compute. split_and!; done. Qed.

(** C9 as stated fails: for a label whose 20-character prefix ends in a
    space, the label that [updateLabel] leaves in the store is not that
    prefix but its 19 visible characters; and on a store whose text does not
    parse, [updateLabel] for a target without a record returns false after
    the text has been replaced by that of the empty collection. *)
Lemma updateLabel_stores_shorter_prefix :
  let st1 := snd (@toggle Ref.platform (new empty_storage) "x" true "X" "T1" "T2" "T3") in
  let updated := @updateLabel Ref.platform st1 "x" long_label "T4" "T5" "T6" in
  let absent := @updateLabel Ref.platform (new (stored "not json")) "x" "L" "T1" "T2" "T3" in
  fst updated = true /\
  String.substring 0 20 (trim long_label) = "aaaaaaaaaaaaaaaaaaa "%string /\
  (labels_of <$> cache (snd updated)) = Some ["aaaaaaaaaaaaaaaaaaa"%string] /\
  (labels_of <$> cache (snd updated)) <>
    Some [String.substring 0 20 (trim long_label)] /\
  fst absent = false /\
  item (storage (snd absent)) = Some "[]"%string.
Proof. vm_compute. split_and!; done. Qed.

Section ToggleUpdate.
Context {P : Platform}.

(** C6, amended: on a settled collection (the records pass validation as
    they are and the positions are dense), [toggle(target, true, title)]
    for a non-empty target without a record appends a record with
    [id = "shortcut-" + target], the default label (first character of each
    word of the title, uppercased, cut to 3 characters, ["XX"] when empty),
    [position] = the current length, [visible = true] and both time stamps
    [now]; for a target with a record it changes that record's [enabled]
    and [updated_at] and nothing else; the result is persisted when the
    storage accepts the write and stays in the cache when it does not. On
    any store, [toggle(target, false)] for a target without a record
    returns the result of saving the unchanged collection. *)
Theorem toggle_semantics :
  (forall st shortcuts modalId enabled' modalTitle t_load t_now t_save,
     cache st = Some shortcuts -> settled shortcuts = true -> t_now <> ""%string ->
     let outcome l :=
       toggle st modalId enabled' modalTitle t_load t_now t_save =
         if accepts (storage st) (JSON_stringify (to_array l))
         then (true, after_save st l) else (false, set_cache (Some l) st) in
     (find_target modalId shortcuts = None -> enabled' = true ->
      modalId <> ""%string ->
      outcome (shortcuts ++
                 [ {| id := VStr ("shortcut-" +:+ modalId);
                      label := default_label_spec modalTitle;
                      enabled := true;
                      action := {| type := VStr "modal"; target := VStr modalId |};
                      position := Z.of_nat (length shortcuts);
                      visible := true;
                      created_at := VStr t_now;
                      updated_at := VStr t_now |} ])) /\
     (forall i s,
        find_target modalId shortcuts = Some (i, s) ->
        shortcuts !! i = Some s /\ target (action s) = VStr modalId /\
        outcome (<[i := {| id := id s; label := label s; enabled := enabled';
                           action := action s; position := position s;
                           visible := visible s; created_at := created_at s;
                           updated_at := VStr t_now |}]> shortcuts)) /\
     (find_target modalId shortcuts = None -> enabled' = false ->
      outcome shortcuts)) /\
  (forall st modalId modalTitle t_load t_now t_save,
     find_target modalId (fst (load st t_load)) = None ->
     toggle st modalId false modalTitle t_load t_now t_save =
       save (snd (load st t_load)) (to_array (fst (load st t_load))) t_save).
Proof.
  split.
  - intros st shortcuts modalId enabled' modalTitle t_load t_now t_save
      Hc Hset Hnow outcome. subst outcome. unfold toggle.
    rewrite (load_cached st shortcuts t_load Hc).
    pose proof (settled_parts _ Hset) as (Hs & Hl & Hd).
    split_and!.
    + intros -> -> Hid.
      rewrite generateDefaultLabel_spec.
      apply save_edited_outcome, written_snoc; try done.
      * apply survives_spec.
        split_and!; first [reflexivity | by apply truthy_string].
      * apply label_settled_spec. simpl.
        rewrite <- generateDefaultLabel_spec. apply validLabel_default.
    + intros i s Hf. rewrite Hf.
      destruct (find_target_Some _ _ _ _ Hf) as [Hi Ht].
      split_and!; try done.
      rewrite Forall_forall in Hs, Hl.
      assert (s ∈ shortcuts) as Hin by (apply list_elem_of_lookup; eauto).
      pose proof (Hs s Hin) as (Hs1 & Hs2 & Hs3 & Hs4 & _)%survives_spec.
      apply save_edited_outcome.
      rewrite (written_edit t_save shortcuts i s); try done.
      * do 2 f_equal. apply relabel_settled.
        apply label_settled_spec. simpl. apply label_settled_spec. exact (Hl s Hin).
      * apply survives_spec.
        split_and!; first [assumption | by apply truthy_string].
    + intros -> ->. rewrite <- (set_cache_same st shortcuts Hc) at 1.
      apply save_edited_outcome, written_settled, Hset.
  - intros st modalId modalTitle t_load t_now t_save Hf. unfold toggle.
    destruct (load st t_load) as [shortcuts st1]. simpl in *. by rewrite Hf.
Qed.

(** C9, amended: [updateLabel(target, rawLabel)] returns false, leaving the
    store as [load()] left it (no save of its own), when no record exists
    for the target. Otherwise, on a settled collection, it gives the record
    the sanitized label (the trimmed label, ["XX"] when that is empty, its
    20-character prefix when it is longer than 20) and [save] stores that
    label with its trailing white space removed: the sanitized label itself
    unless the trimmed label is longer than 20 characters. After every
    successful save each label has 1 to 20 characters. *)
Theorem updateLabel_sanitizes :
  (forall st modalId raw t_load t_now t_save,
     find_target modalId (fst (load st t_load)) = None ->
     updateLabel st modalId raw t_load t_now t_save = (false, snd (load st t_load))) /\
  (forall st shortcuts modalId raw t_load t_now t_save i s,
     cache st = Some shortcuts -> settled shortcuts = true -> t_now <> ""%string ->
     find_target modalId shortcuts = Some (i, s) ->
     let edited :=
       <[i := set_updated_at (VStr t_now) (set_label (validLabel raw) s)]> shortcuts in
     let kept :=
       <[i := set_updated_at (VStr t_now) (set_label (rtrim (validLabel raw)) s)]>
         shortcuts in
     updateLabel st modalId raw t_load t_now t_save =
       if accepts (storage st) (JSON_stringify (to_array kept))
       then (true, after_save st kept) else (false, set_cache (Some edited) st)) /\
  (forall raw,
     validLabel raw =
       (if String.eqb (trim raw) "" then "XX"%string
        else String.substring 0 20 (trim raw)) /\
     (1 <= String.length (rtrim (validLabel raw)) <= 20)%nat /\
     ((String.length (trim raw) <= 20)%nat ->
      rtrim (validLabel raw) = validLabel raw)) /\
  (forall st shortcuts now l,
     fst (save st shortcuts now) = true ->
     cache (snd (save st shortcuts now)) = Some l ->
     Forall (fun s => (1 <= String.length (label s) <= 20)%nat) l).
Proof.
  split_and!.
  - intros st modalId raw t_load t_now t_save Hf. unfold updateLabel.
    destruct (load st t_load) as [shortcuts st1]. simpl in *. by rewrite Hf.
  - intros st shortcuts modalId raw t_load t_now t_save i s Hc Hset Hnow Hf
      edited kept.
    unfold updateLabel. rewrite (load_cached st shortcuts t_load Hc), Hf.
    fold edited.
    destruct (find_target_Some _ _ _ _ Hf) as [Hi Ht].
    pose proof (settled_parts _ Hset) as (Hs & Hl & Hd).
    rewrite Forall_forall in Hs.
    assert (s ∈ shortcuts) as Hin by (apply list_elem_of_lookup; eauto).
    pose proof (Hs s Hin) as (Hs1 & Hs2 & Hs3 & Hs4 & _)%survives_spec.
    assert (written (to_array edited) t_save = Some kept) as Hw.
    { unfold edited. rewrite (written_edit t_save shortcuts i s); try done.
      - rewrite relabel_spec. unfold kept. simpl. by rewrite validLabel_validLabel.
      - apply survives_spec.
        split_and!; first [assumption | by apply truthy_string]. }
    exact (save_edited_outcome st edited kept _ t_save Hw).
  - intros raw. split_and!.
    + unfold validLabel. destruct (String.eqb (trim raw) ""); [done|].
      destruct (Nat.ltb_spec 20 (String.length (trim raw))); [done|].
      by rewrite substring0_all.
    + rewrite <- validLabel_validLabel. apply validLabel_length.
    + rewrite <- validLabel_validLabel. apply validLabel_length.
    + intros Hlen. unfold validLabel.
      destruct (String.eqb (trim raw) ""); [done|].
      destruct (Nat.ltb_spec 20 (String.length (trim raw))); [lia|].
      unfold trim. apply rtrim_idem.
  - intros st shortcuts now l Hok.
    destruct (save_true_state _ _ _ Hok) as (w & Hw & ->). simpl.
    intros [= <-]. by eapply written_labels.
Qed.

End ToggleUpdate.

Lemma toggle_semantics_witness :
  let st := snd (@toggle Ref.platform (new empty_storage) "alpha" true
                   "Alpha Beta" "T1" "T2" "T3") in
  let alpha := {| id := VStr "shortcut-alpha"; label := "AB"; enabled := true;
                  action := {| type := VStr "modal"; target := VStr "alpha" |};
                  position := 0; visible := true;
                  created_at := VStr "T2"; updated_at := VStr "T2" |} in
  cache st = Some [alpha] /\ @settled Ref.platform [alpha] = true /\
  @find_target "alpha" [alpha] = Some (0%nat, alpha) /\
  @toggle Ref.platform st "alpha" false "" "T4" "T5" "T6" =
    (true, @after_save Ref.platform st [set_updated_at (VStr "T5") (set_enabled false alpha)]).
Proof.
  intros st alpha. split; [reflexivity|]. split; [reflexivity|].
  split; [reflexivity|].
  destruct (proj1 (@toggle_semantics Ref.platform) st [alpha] "alpha" false ""
              "T4" "T5" "T6" eq_refl eq_refl ltac:(discriminate))
    as (_ & H & _).
  destruct (H 0%nat alpha eq_refl) as (_ & _ & Ht).
  exact Ht.
Defined.

Lemma updateLabel_sanitizes_witness :
  let st := snd (@toggle Ref.platform (new empty_storage) "alpha" true
                   "Alpha Beta" "T1" "T2" "T3") in
  let alpha := {| id := VStr "shortcut-alpha"; label := "AB"; enabled := true;
                  action := {| type := VStr "modal"; target := VStr "alpha" |};
                  position := 0; visible := true;
                  created_at := VStr "T2"; updated_at := VStr "T2" |} in
  cache st = Some [alpha] /\ @settled Ref.platform [alpha] = true /\
  @find_target "alpha" [alpha] = Some (0%nat, alpha) /\
  @updateLabel Ref.platform st "alpha" "  Main  " "T4" "T5" "T6" =
    (true, @after_save Ref.platform st
             [set_updated_at (VStr "T5") (set_label "Main" alpha)]).
Proof.
  intros st alpha. split; [reflexivity|]. split; [reflexivity|].
  split; [reflexivity|].
  exact (proj1 (proj2 (@updateLabel_sanitizes Ref.platform)) st [alpha] "alpha"
           "  Main  " "T4" "T5" "T6" 0%nat alpha eq_refl eq_refl
           ltac:(discriminate) eq_refl).
Defined.

(** ** Settled collections arise from saves, and the examples of the
    specification *)

Section AfterSave.
Context {P : Platform}.

Lemma reindexPositions_Forall (Q : Shortcut -> Prop) l :
  (forall s, Q s <-> Q (unpositioned s)) ->
  Forall Q l -> Forall Q (reindexPositions l).
Proof.
  intros HQ Hl.
  assert (forall k, Forall Q k <-> Forall Q (unpositioned <$> k)) as Hu.
  { intros k. rewrite Forall_fmap. apply Forall_proper; [|done]. intros s. apply HQ. }
  apply (proj2 (Hu _)). rewrite reindexPositions_order. apply (proj1 (Hu _)).
  rewrite Forall_forall in Hl. apply Forall_forall. intros s Hs.
  rewrite sort_perm in Hs. by apply Hl.
Qed.

(** What a save of well-formed records leaves is settled. *)
Lemma settled_after_save records :
  forallb well_formed records = true -> settled (reindexPositions records) = true.
Proof.
  intros H%well_formed_all_settled%forallb_Forall.
  apply settled_spec. split; [|apply reindexPositions_dense].
  apply forallb_Forall. by apply reindexPositions_Forall.
Qed.

End AfterSave.

Example default_label_of_three_words :
  @generateDefaultLabel Ref.platform "Mission Control Panel" = "MCP"%string /\
  @generateDefaultLabel Ref.platform "" = "XX"%string /\
  @generateDefaultLabel Ref.platform "   " = "XX"%string.
Proof. by vm_compute. Qed.

(** "Toggle creates then updates" on the reference platform. *)
Example toggle_creates_then_updates :
  let created := @toggle Ref.platform (new empty_storage) "alpha" true "Alpha Beta"
                   "T1" "T2" "T3" in
  let st1 : State := snd created in
  let updated := @toggle Ref.platform st1 "alpha" false "" "T4" "T5" "T6" in
  let st2 : State := snd updated in
  let flags (l : list Shortcut) : list bool := enabled <$> l in
  fst created = true /\ fst updated = true /\
  (labels_of <$> cache st1) = Some ["AB"%string] /\
  (positions_of <$> cache st1) = Some [0] /\
  (flags <$> cache st1) = Some [true] /\
  (labels_of <$> cache st2) = Some ["AB"%string] /\
  (positions_of <$> cache st2) = Some [0] /\
  (flags <$> cache st2) = Some [false].
Proof. by vm_compute. Qed.

Example label_sanitization :
  let st : State :=
    snd (@toggle Ref.platform (new empty_storage) "t" true "T" "T1" "T2" "T3") in
  let emptied : State := snd (@updateLabel Ref.platform st "t" "" "T4" "T5" "T6") in
  let cut : State :=
    snd (@updateLabel Ref.platform st "t"
           "A very very long label exceeding twenty chars" "T4" "T5" "T6") in
  (labels_of <$> cache emptied) = Some ["XX"%string] /\
  (labels_of <$> cache cut) = Some ["A very very long lab"%string].
Proof. by vm_compute. Qed.

(** ** Uniqueness of targets *)

(** C7 as stated fails: [importData] persists both of two entries that name
    the same target. *)
Lemma importData_keeps_duplicate_targets :
  let q := String Ref.dquote "" in
  let entry := ("{" +:+ q +:+ "action" +:+ q +:+ ":{" +:+ q +:+ "target" +:+ q
                  +:+ ":" +:+ q +:+ "x" +:+ q +:+ "}}")%string in
  let imported :=
    @importData Ref.platform (new empty_storage) ("[" +:+ entry +:+ "," +:+ entry +:+ "]") "T" in
  fst imported = true /\
  (targets_of <$> cache (snd imported)) = Some [VStr "x"; VStr "x"] /\
  ~ (forall l, cache (snd imported) = Some l -> NoDup (targets_of l)).
Proof.
  vm_compute. split_and!; try done.
  intros H. specialize (H _ eq_refl).
  apply NoDup_cons in H as [H _]. apply H. by left.
Qed.

Section Uniqueness.
Context {P : Platform}.

Lemma unique_cached st l :
  unique_targets st -> cache st = Some l -> NoDup (targets_of l).
Proof. intros [H _] Hc. by rewrite Hc in H. Qed.

Lemma written_unique l now w :
  NoDup (targets_of l) -> written (to_array l) now = Some w ->
  NoDup (targets_of w).
Proof.
  intros H (validated & Hv & ->)%written_Some.
  rewrite reindexPositions_targets, (validate_targets_of _ _ _ Hv).
  by apply NoDup_filter.
Qed.

(** Saving a collection without a shared target, which the cache already
    holds, leaves the store without a shared target. *)
Lemma save_unique st l now :
  stored_unique (storage st) -> NoDup (targets_of l) ->
  unique_targets (snd (save (set_cache (Some l) st) (to_array l) now)).
Proof.
  intros Hsto Hl.
  destruct (save_cases (set_cache (Some l) st) (to_array l) now)
    as [(w & Hw & _ & ->)| ->]; simpl.
  - split; simpl; [by eapply written_unique|].
    right. eexists. split; [done|]. by eapply written_unique.
  - by split.
Qed.

Lemma load_unique st now :
  unique_targets st ->
  unique_targets (snd (load st now)) /\
  cache (snd (load st now)) = Some (fst (load st now)).
Proof.
  intros [Hc Hsto]. unfold load.
  destruct (cache st) as [l|] eqn:E.
  { simpl. split; [|done]. split; [by rewrite E|done]. }
  unfold load_try, getItem. rewrite Hc.
  destruct (readable (storage st)); simpl.
  - split; [|done]. split; simpl; [constructor|done].
  - destruct (save_cases (set_cache (Some []) st) (VArr []) now)
      as [(w & Hw & _ & ->)| ->]; simpl; (split; [|done]).
    + rewrite written_empty in Hw. injection Hw as <-.
      split; simpl; [constructor|]. right. exists []. split; [done|constructor].
    + split; simpl; [constructor|done].
Qed.

Lemma targets_of_insert l i s s1 :
  l !! i = Some s -> target (action s1) = target (action s) ->
  targets_of (<[i:=s1]> l) = targets_of l.
Proof.
  intros Hi Ht. unfold targets_of. rewrite list_fmap_insert, Ht.
  apply list_insert_id. by rewrite list_lookup_fmap, Hi.
Qed.

Lemma step_unique st c : unique_targets st -> unique_targets (step st c).
Proof.
  intros Hu.
  destruct c as [modalId enabled' modalTitle t_load t_now t_save
                |modalId label' t_load t_now t_save
                |modalId t_load t_save|now|readable' accepts']; simpl.
  - unfold toggle.
    destruct (load_unique st t_load Hu) as [Hu1 Hc1].
    destruct (load st t_load) as [shortcuts st1]. simpl in *.
    pose proof (unique_cached _ _ Hu1 Hc1) as Hl.
    destruct (find_target modalId shortcuts) as [[i s]|] eqn:Hf.
    + apply find_target_Some in Hf as [Hi Ht].
      apply save_unique; [apply Hu1|].
      by rewrite (targets_of_insert shortcuts i s).
    + destruct enabled'.
      * apply save_unique; [apply Hu1|].
        unfold targets_of. rewrite fmap_app. simpl.
        apply NoDup_app. split_and!; [done| |apply NoDup_singleton].
        intros v Hv ->%list_elem_of_singleton.
        by apply (find_target_None _ _ Hf).
      * rewrite <- (set_cache_same st1 shortcuts Hc1) at 1.
        apply save_unique; [apply Hu1|done].
  - unfold updateLabel.
    destruct (load_unique st t_load Hu) as [Hu1 Hc1].
    destruct (load st t_load) as [shortcuts st1]. simpl in *.
    pose proof (unique_cached _ _ Hu1 Hc1) as Hl.
    destruct (find_target modalId shortcuts) as [[i s]|] eqn:Hf; [|done].
    apply find_target_Some in Hf as [Hi Ht].
    apply save_unique; [apply Hu1|].
    by rewrite (targets_of_insert shortcuts i s).
  - unfold remove.
    destruct (load_unique st t_load Hu) as [Hu1 Hc1].
    destruct (load st t_load) as [shortcuts st1]. simpl in *.
    pose proof (unique_cached _ _ Hu1 Hc1) as Hl.
    destruct (find_target modalId shortcuts) as [[i s]|] eqn:Hf; [|done].
    apply save_unique; [apply Hu1|].
    unfold targets_of. rewrite list_fmap_delete.
    eapply sublist_NoDup; [done|apply sublist_delete].
  - unfold clear.
    destruct (save_cases st (VArr []) now) as [(w & Hw & _ & ->)| ->]; simpl;
      [|done].
    rewrite written_empty in Hw. injection Hw as <-.
    split; simpl; [constructor|]. right. exists []. split; [done|constructor].
  - destruct Hu as [Hc Hsto]. by split.
Qed.

(** C7, amended: [toggle], [updateLabel], [remove] and [clear] keep the
    targets distinct: from a store in which no two records share an
    [action.target] (in particular a new store over an empty storage), any
    sequence of these calls, whatever the storage does in between, leaves
    the cached and the persisted collection without a shared target. [save],
    [importData] and the first [load()] take over the targets of their input
    and remove no duplicate. *)
Theorem targets_stay_unique calls st :
  unique_targets st ->
  unique_targets (run calls st) /\
  (forall l, cache (run calls st) = Some l -> NoDup (targets_of l)) /\
  (forall text, item (storage (run calls st)) = Some text ->
     exists l, text = JSON_stringify (to_array l) /\ NoDup (targets_of l)).
Proof.
  intros Hu.
  assert (unique_targets (run calls st)) as Hr.
  { unfold run. revert st Hu.
    induction calls as [|c calls IH]; intros st Hu; [done|].
    simpl. by apply IH, step_unique. }
  split_and!; [done|intros l; by apply unique_cached|].
  intros text Ht. destruct Hr as [_ [Hn|(l & Hl & Hd)]]; [congruence|].
  exists l. split; [congruence|done].
Qed.

End Uniqueness.

Lemma targets_stay_unique_witness :
  let calls := [ Toggle "a" true "Alpha" "T1" "T2" "T3";
                 Toggle "b" true "Beta" "T4" "T5" "T6";
                 Toggle "a" false "" "T7" "T8" "T9" ] in
  @unique_targets Ref.platform (new empty_storage) /\
  (targets_of <$> cache (@run Ref.platform calls (new empty_storage))) =
    Some [VStr "a"; VStr "b"] /\
  forall l, cache (@run Ref.platform calls (new empty_storage)) = Some l ->
            NoDup (targets_of l).
Proof.
  intros calls.
  assert (@unique_targets Ref.platform (new empty_storage)) as Hu
    by (split; [reflexivity|left; reflexivity]).
  split; [exact Hu|]. split; [reflexivity|].
  exact (proj1 (proj2 (@targets_stay_unique Ref.platform calls
                         (new empty_storage) Hu))).
Defined.

End StoreFacts.
(** * More properties of the shortcut store *)

Module StoreMore.
Import Store StoreOps StoreFacts.

Section More.
Context {P : Platform}.

(** ** Loading *)

(** [load()] leaves the cache filled with what it returns, and from then on
    every [load()] is answered from the cache: same result, state untouched. *)
Theorem load_fills_cache st now now' :
  cache (snd (load st now)) = Some (fst (load st now)) /\
  load (snd (load st now)) now' = load st now /\
  (forall c, cache st = Some c -> load st now = (c, st)).
Proof.
  assert (cache (snd (load st now)) = Some (fst (load st now))) as Hc.
  { destruct (cache st) as [c|] eqn:E; [by rewrite (load_cached st c now E)|].
    destruct (load_try st now) as [c|] eqn:Ht.
    - unfold load. by rewrite E, Ht.
    - rewrite (load_caught st now E Ht). simpl. by destruct (accepts _ _). }
  split_and!; [done| |intros c; apply load_cached].
  rewrite (load_cached _ _ now' Hc). by destruct (load st now).
Qed.

Lemma load_parsed_array st raw l v now :
  cache st = None -> readable (storage st) = true ->
  item (storage st) = Some raw -> raw <> ""%string ->
  JSON_parse raw = Some (to_array l) ->
  validateShortcuts (to_array l) now = Some v ->
  load st now = (v, set_cache (Some v) st).
Proof.
  intros Hc Hr Hi Hne Hp Hv. unfold load, load_try, getItem.
  rewrite Hc, Hr, Hi. simpl. destruct raw; [done|]. rewrite Hp.
  unfold to_array in *. simpl in *. by rewrite Hv.
Qed.

(** What a save has written passes validation again, record by record. *)
Lemma revalidated shortcuts now now' persisted :
  written shortcuts now = Some persisted ->
  exists v,
    validateShortcuts (to_array persisted) now' = Some v /\
    mapM (fun s => repair now' (to_value s)) persisted = Some v.
Proof.
  intros Hw.
  pose proof (written_targets_truthy _ _ _ Hw) as Ht.
  pose proof (written_ids _ _ _ Hw) as Hi.
  assert (is_Some (mapM (fun s => repair now' (to_value s)) persisted)) as [v Hv].
  { apply mapM_is_Some_2. eapply Forall_impl; [exact Hi|].
    intros s Hs. simpl. by rewrite repair_identified. }
  exists v. split; [|done]. by rewrite validateShortcuts_kept.
Qed.

(** A new store constructed over the storage that a successful save has
    written reads the saved records back, in their order and with their
    positions and targets; it reads back exactly the saved collection when
    that is settled. The storage has to be readable and the host's
    [JSON.parse] has to invert its [JSON.stringify] on the array written. *)
Theorem reload_after_save st shortcuts now now' persisted :
  fst (save st shortcuts now) = true ->
  written shortcuts now = Some persisted ->
  readable (storage st) = true ->
  JSON_stringify (to_array persisted) <> ""%string ->
  JSON_parse (JSON_stringify (to_array persisted)) = Some (to_array persisted) ->
  let reloaded := fst (load (new (storage (snd (save st shortcuts now)))) now') in
  cache (snd (save st shortcuts now)) = Some persisted /\
  positions_of reloaded = positions_of persisted /\
  targets_of reloaded = targets_of persisted /\
  (settled persisted = true -> reloaded = persisted).
Proof.
  intros Hok Hw Hr Hne Hp reloaded. subst reloaded.
  destruct (save_true_state _ _ _ Hok) as (l & Hl & ->).
  assert (l = persisted) as -> by congruence.
  destruct (revalidated shortcuts now now' persisted Hw) as (v & Hv & Hm).
  rewrite (load_parsed_array (new (storage (after_save st persisted)))
             (JSON_stringify (to_array persisted))
             persisted v now' eq_refl Hr eq_refl Hne Hp Hv).
  unfold fst. destruct (repairs_keep _ _ _ Hm) as [Hpos Htar].
  split_and!; try done.
  intros Hset. pose proof (written_settled persisted now' Hset) as E.
  unfold written in E. rewrite Hv in E. simpl in E. injection E as E.
  rewrite <- E. symmetry. apply reindexPositions_dense_id.
  apply dense_spec. rewrite Hpos, <- (length_fmap position v).
  fold (positions_of v). rewrite Hpos. unfold positions_of at 2.
  rewrite length_fmap. apply dense_spec.
  by apply settled_parts in Hset as (_ & _ & ?).
Qed.

(** A stored array that validation cannot convert is lost on the first
    [load()]: the exception lands in the [catch] block, [load()] answers
    the empty sequence, and the stored text is replaced by that of the
    empty sequence if the storage accepts the write. *)
Theorem load_discards_unconvertible st raw entries now :
  cache st = None -> readable (storage st) = true ->
  item (storage st) = Some raw -> raw <> ""%string ->
  JSON_parse raw = Some (VArr entries) ->
  validateShortcuts (VArr entries) now = None ->
  load st now =
    ([], if accepts (storage st) (JSON_stringify (to_array []))
         then after_save st [] else set_cache (Some []) st).
Proof.
  intros Hc Hr Hi Hne Hp Hv. apply load_caught; [done|].
  unfold load_try, getItem. rewrite Hr, Hi. simpl.
  destruct raw; [done|]. rewrite Hp. simpl in *. by rewrite Hv.
Qed.

(** ** Labels *)

Lemma prefix_refl s : String.prefix s s = true.
Proof.
  induction s as [|c s IH]; simpl; [done|].
  by destruct (ascii_dec c c).
Qed.

Lemma prefix_substring0 n s : String.prefix (String.substring 0 n s) s = true.
Proof.
  revert s. induction n as [|n IH]; intros [|c s]; simpl; try done.
  destruct (ascii_dec c c); [apply IH|done].
Qed.

Lemma prefix_rtrim s : String.prefix (rtrim s) s = true.
Proof.
  induction s as [|c s IH]; simpl; [done|].
  destruct (rtrim s) as [|d r] eqn:E.
  - destruct (is_ws c); simpl; [done|]. by destruct (ascii_dec c c).
  - simpl. destruct (ascii_dec c c); [exact IH|done].
Qed.

Lemma validLabel_prefix text :
  validLabel text = "XX"%string \/ String.prefix (validLabel text) (trim text) = true.
Proof.
  unfold validLabel. destruct (String.eqb (trim text) ""); [by left|]. right.
  destruct (20 <? String.length (trim text))%nat;
    [apply prefix_substring0|apply prefix_refl].
Qed.

Lemma validateLabel_starts_visible v l :
  validateLabel v = Some l -> starts_visible l.
Proof.
  intros [[_ ->]|(text & _ & _ & ->)]%validateLabel_Some; [done|].
  apply validLabel_starts_visible.
Qed.

(** A label that came out of [validateLabel] comes out of a second pass
    with its trailing white space removed, and out of every later pass
    unchanged. *)
Lemma validateLabel_again v l :
  validateLabel v = Some l ->
  validLabel l = rtrim l /\ validLabel (rtrim l) = rtrim l.
Proof.
  intros Hl.
  pose proof (validateLabel_starts_visible v l Hl) as Hv.
  pose proof (validateLabel_length v l Hl) as Hlen.
  assert (l <> ""%string) as Hne by (intros ->; simpl in Hlen; lia).
  pose proof (length_rtrim l) as Hr.
  split.
  - apply validLabel_visible; [done|done|lia].
  - rewrite validLabel_visible.
    + apply rtrim_idem.
    + by apply rtrim_starts_visible.
    + by apply rtrim_visible_nonempty.
    + lia.
Qed.

(** [validateLabel] throws exactly when its argument is truthy and
    [String] of it throws, as for an object with a member [toString] of its
    own; an object without one becomes ["[object Object]"]. Whenever it
    returns, the label has 1 to 20 code units, does not start with white
    space and is ["XX"] or a prefix of the trimmed text of the argument;
    validating the result once more succeeds and can only remove trailing
    white space, and a third pass changes nothing. *)
Theorem validateLabel_shape v :
  (validateLabel v = None <-> truthy v = true /\ to_string v = None) /\
  (forall fs,
     validateLabel (VObj fs) =
       if has_own "toString" fs then None else Some "[object Object]"%string) /\
  (forall l,
     validateLabel v = Some l ->
     (1 <= String.length l <= 20)%nat /\
     starts_visible l /\
     (l = "XX"%string \/
      exists text, to_string v = Some text /\ String.prefix l (trim text) = true) /\
     exists second,
       validateLabel (VStr l) = Some second /\
       String.prefix second l = true /\
       validateLabel (VStr second) = Some second).
Proof.
  split_and!.
  - apply validateLabel_throws.
  - intros fs. destruct (has_own "toString" fs) eqn:Hown.
    + apply validateLabel_throws. simpl. by rewrite Hown.
    + rewrite (validateLabel_text (VObj fs) "[object Object]"); [done|done|].
      simpl. by rewrite Hown.
  - intros l Hl. destruct (validateLabel_again v l Hl) as [H1 H2].
    split; [by eapply validateLabel_length|].
    split; [by eapply validateLabel_starts_visible|]. split.
    + destruct (validateLabel_Some v l Hl) as [[_ ->]|(text & _ & Ht & ->)];
        [by left|].
      destruct (validLabel_prefix text) as [E|E]; [by left|right; eauto].
    + exists (rtrim l). rewrite !validateLabel_string, H1, H2.
      split_and!; [done|apply prefix_rtrim|done].
Qed.

(** For every title, [generateDefaultLabel] returns 1 to 3 code units, none
    of them white space, and [validateLabel] keeps such a label as it is. *)
Theorem generateDefaultLabel_shape title :
  (1 <= String.length (generateDefaultLabel title) <= 3)%nat /\
  all_nonspace (generateDefaultLabel title) /\
  validateLabel (VStr (generateDefaultLabel title)) =
    Some (generateDefaultLabel title).
Proof.
  pose proof (validateLabel_default title) as Hv.
  rewrite generateDefaultLabel_spec in *.
  destruct (default_label_spec_shape title) as (Hne & Hlen & Hs).
  split_and!; try done.
  destruct (default_label_spec title); [done|simpl; lia].
Qed.

(** ** Saving twice *)

Lemma written_survives shortcuts now l :
  now <> ""%string -> written shortcuts now = Some l ->
  Forall (fun s => survives s = true) l.
Proof.
  intros Hnow (validated & Hv%validateShortcuts_Some & ->)%written_Some.
  apply reindexPositions_Forall; [done|].
  eapply Forall_impl; [exact Hv|].
  intros r (e & Hk & (Hi & _ & _ & _ & _ & Hty & Hta & _ & _ & Hc & Hu)%repair_Some).
  simpl. apply survives_spec. rewrite Hty, Hta, Hc, Hu. split_and!.
  - done.
  - by apply truthy_or_else.
  - by apply keeps_target.
  - by apply truthy_or_else, truthy_string.
  - by apply truthy_or_else, truthy_string.
Qed.

Lemma written_labels_validated shortcuts now l :
  written shortcuts now = Some l ->
  Forall (fun s => exists v, validateLabel v = Some (label s)) l.
Proof.
  intros (validated & Hv%validateShortcuts_Some & ->)%written_Some.
  apply reindexPositions_Forall; [done|].
  eapply Forall_impl; [exact Hv|].
  intros r (e & _ & (_ & _ & _ & Hl & _)%repair_Some). simpl. eauto.
Qed.

(** Whatever is saved, saving what was written once more gives a collection
    that saving leaves as it is: a second save can still shorten labels, the
    third and all later ones change nothing. (The clock of the first save
    returns a non-empty time stamp.) *)
Theorem save_settles_after_two shortcuts t1 t2 t3 first :
  t1 <> ""%string ->
  written shortcuts t1 = Some first ->
  let second := relabel <$> first in
  written (to_array first) t2 = Some second /\
  settled second = true /\
  written (to_array second) t3 = Some second.
Proof.
  intros Ht1 Hw second.
  pose proof (written_survives shortcuts t1 first Ht1 Hw) as Hs.
  pose proof (written_labels_validated shortcuts t1 first Hw) as Hl.
  assert (dense first = true) as Hd.
  { apply written_Some in Hw as (validated & _ & ->). apply reindexPositions_dense. }
  assert (written (to_array first) t2 = Some second) as E
    by (apply written_survivors; [by apply forallb_Forall|done]).
  assert (settled second = true) as Hset.
  { apply settled_spec. split.
    - apply forallb_Forall, Forall_fmap, Forall_forall. intros s Hin.
      rewrite Forall_forall in Hs, Hl. simpl.
      apply andb_true_iff. split.
      + rewrite relabel_spec. exact (Hs s Hin).
      + destruct (Hl s Hin) as [v Hv].
        apply label_settled_spec. rewrite relabel_spec. simpl.
        by destruct (validateLabel_again v _ Hv) as [-> ->].
    - apply dense_spec. unfold second, positions_of.
      rewrite length_fmap, positions_relabel. by apply dense_spec. }
  split_and!; [done|done|by apply written_settled].
Qed.

End More.

Lemma load_fills_cache_witness :
  let st := set_cache (Some [sample "a" 0]) (new empty_storage) in
  @load Ref.platform st "T1" = ([sample "a" 0], st).
Proof.
  intros st.
  exact (proj2 (proj2 (@load_fills_cache Ref.platform st "T1" "T2"))
           [sample "a" 0] eq_refl).
Defined.

Lemma reload_after_save_witness :
  let st := new empty_storage in
  let shortcuts := to_array [sample "a" 5; sample "b" 1] in
  let persisted := [set_position 0 (sample "b" 1); set_position 1 (sample "a" 5)] in
  fst (@save Ref.platform st shortcuts "T1") = true /\
  @written Ref.platform shortcuts "T1" = Some persisted /\
  fst (@load Ref.platform (new (storage (snd (@save Ref.platform st shortcuts "T1")))) "T2")
    = persisted.
Proof.
  intros st shortcuts persisted. split; [reflexivity|]. split; [reflexivity|].
  exact (proj2 (proj2 (proj2
           (@reload_after_save Ref.platform st shortcuts "T1" "T2" persisted
              eq_refl eq_refl eq_refl ltac:(discriminate) eq_refl))) eq_refl).
Defined.

Lemma load_discards_unconvertible_witness :
  let st := new (stored Ref.unconvertible_import) in
  fst (@load Ref.platform st "T") = [] /\
  item (storage (snd (@load Ref.platform st "T"))) = Some "[]"%string.
Proof.
  intros st.
  pose proof (@load_discards_unconvertible Ref.platform st
                Ref.unconvertible_import
                [VObj [ ("action", VObj [("target", VStr "x")]);
                        ("label", VObj [("toString", VNum (Fin 0))]) ]%string]
                "T" eq_refl eq_refl eq_refl ltac:(discriminate) eq_refl eq_refl)
    as E.
  split; [exact (f_equal fst E)|].
  exact (f_equal (fun r => item (storage (snd r))) E).
Defined.

Lemma validateLabel_shape_witness :
  @validateLabel Ref.platform (VStr "  A label that is longer than twenty  ") =
    Some "A label that is long"%string /\
  @validateLabel Ref.platform (VObj [("toString", VNum (Fin 0))]%string) = None /\
  exists second,
    @validateLabel Ref.platform (VStr "A label that is long") = Some second /\
    String.prefix second "A label that is long" = true.
Proof.
  split; [reflexivity|]. split.
  - exact (proj1 (proj2 (@validateLabel_shape Ref.platform VNull))
             [("toString", VNum (Fin 0))]%string).
  - destruct (proj2 (proj2 (@validateLabel_shape Ref.platform
                (VStr "  A label that is longer than twenty  ")))
                "A label that is long"%string eq_refl)
      as (_ & _ & _ & second & H1 & H2 & _).
    exists second. split; [exact H1|exact H2].
Defined.

Lemma save_settles_after_two_witness :
  let first := [ {| id := VStr "shortcut-x"; label := "aaaaaaaaaaaaaaaaaaa ";
                    enabled := false;
                    action := {| type := VStr "modal"; target := VStr "x" |};
                    position := 0; visible := true;
                    created_at := VStr "T1"; updated_at := VStr "T1" |} ] in
  @written Ref.platform (VArr [raw_entry "x" long_label]) "T1" = Some first /\
  labels_of (@relabel Ref.platform <$> first) = ["aaaaaaaaaaaaaaaaaaa"%string] /\
  @written Ref.platform (to_array first) "T2" = Some (@relabel Ref.platform <$> first) /\
  @written Ref.platform (to_array (@relabel Ref.platform <$> first)) "T3" =
    Some (@relabel Ref.platform <$> first).
Proof.
  intros first. split; [reflexivity|]. split; [reflexivity|].
  destruct (@save_settles_after_two Ref.platform
              (VArr [raw_entry "x" long_label]) "T1" "T2" "T3" first
              ltac:(discriminate) eq_refl) as (H2 & _ & H3).
  split; [exact H2|exact H3].
Defined.

End StoreMore.

(** * Lookups, removal, export and the agreement of cache, storage and
    notification *)

Module StoreOpsFacts.
Import Store StoreOps StoreFacts.

Section Ops.
Context {P : Platform}.

Lemma getShortcut_cached st l modalId now :
  cache st = Some l ->
  getShortcut st modalId now = (snd <$> find_target modalId l, st).
Proof. intros Hc. unfold getShortcut. by rewrite (load_cached st l now Hc). Qed.

Lemma find_target_absent modalId l :
  VStr modalId ∉ targets_of l -> find_target modalId l = None.
Proof.
  intros Hn. apply list_find_None, Forall_forall. intros s Hs Ht.
  apply Hn. unfold targets_of. apply list_elem_of_fmap. exists s. split; [|done].
  unfold targets, strict_eq_string in Ht.
  destruct (target (action s)); try done. by apply String.eqb_eq in Ht as ->.
Qed.

Lemma find_target_snoc_same modalId l s :
  find_target modalId l = None -> target (action s) = VStr modalId ->
  snd <$> find_target modalId (l ++ [s]) = Some s.
Proof.
  intros Hf Ht. unfold find_target in *.
  rewrite (list_find_app_r _ _ _ Hf). simpl.
  rewrite decide_True; [done|]. unfold targets. rewrite Ht. simpl.
  apply String.eqb_refl.
Qed.

Lemma find_target_snoc_other modalId other l s :
  target (action s) = VStr modalId -> other <> modalId ->
  snd <$> find_target other (l ++ [s]) = snd <$> find_target other l.
Proof.
  intros Ht Hne. unfold find_target.
  destruct (list_find (fun s0 => targets other s0 = true) l) as [[i x]|] eqn:Hf.
  - by rewrite (list_find_app_l _ _ _ _ _ Hf).
  - rewrite (list_find_app_r _ _ _ Hf). simpl.
    rewrite decide_False; [done|]. unfold targets. rewrite Ht. simpl.
    intros E%String.eqb_eq. congruence.
Qed.

(** The record that [toggle] appends, for a target that has none yet. *)
Lemma toggle_appends st l modalId modalTitle t_load t_now t_save :
  cache st = Some l -> settled l = true -> t_now <> ""%string ->
  modalId <> ""%string -> find_target modalId l = None ->
  let created :=
    {| id := VStr ("shortcut-" +:+ modalId);
       label := generateDefaultLabel modalTitle; enabled := true;
       action := {| type := VStr "modal"; target := VStr modalId |};
       position := Z.of_nat (length l); visible := true;
       created_at := VStr t_now; updated_at := VStr t_now |} in
  toggle st modalId true modalTitle t_load t_now t_save =
    if accepts (storage st) (JSON_stringify (to_array (l ++ [created])))
    then (true, after_save st (l ++ [created]))
    else (false, set_cache (Some (l ++ [created])) st).
Proof.
  intros Hc Hset Hnow Hid Hf created. unfold toggle.
  rewrite (load_cached st l t_load Hc), Hf. fold created.
  apply save_edited_outcome, written_snoc; try done.
  - apply survives_spec.
    split_and!; first [reflexivity | by apply truthy_string].
  - apply label_settled_spec. simpl. apply validLabel_default.
Qed.

(** After [toggle(target, true, title)] has created and persisted a record,
    [getShortcut(target)] returns that record, and [getShortcut] of any
    other target answers as before. (Settled collection, non-empty target
    without a record, write accepted.) *)
Theorem getShortcut_after_toggle st l modalId other modalTitle t_load t_now t_save now :
  cache st = Some l -> settled l = true -> t_now <> ""%string ->
  modalId <> ""%string -> find_target modalId l = None ->
  fst (toggle st modalId true modalTitle t_load t_now t_save) = true ->
  let st' := snd (toggle st modalId true modalTitle t_load t_now t_save) in
  fst (getShortcut st' modalId now) =
    Some {| id := VStr ("shortcut-" +:+ modalId);
            label := generateDefaultLabel modalTitle; enabled := true;
            action := {| type := VStr "modal"; target := VStr modalId |};
            position := Z.of_nat (length l); visible := true;
            created_at := VStr t_now; updated_at := VStr t_now |} /\
  (other <> modalId ->
   fst (getShortcut st' other now) = fst (getShortcut st other now)).
Proof.
  intros Hc Hset Hnow Hid Hf.
  rewrite (toggle_appends st l modalId modalTitle t_load t_now t_save Hc Hset Hnow Hid Hf).
  destruct (accepts _ _); [|discriminate]. intros _. cbv zeta. cbn [snd].
  rewrite !(getShortcut_cached (after_save st _) _ _ now eq_refl).
  rewrite (getShortcut_cached st l other now Hc). cbn [fst]. split.
  - by apply find_target_snoc_same.
  - intros Hne. by apply (find_target_snoc_other modalId).
Qed.

(** ** remove *)

Lemma ascending_delete l i : ascending l -> ascending (delete i l).
Proof.
  unfold ascending. intros H.
  assert (Transitive (fun a b : Shortcut => position a <= position b))
    by (intros a b c; lia).
  apply Sorted_StronglySorted in H; [|done].
  apply StronglySorted_Sorted. revert i.
  induction H as [|x l Hl IH Hx]; intros [|i]; simpl.
  - constructor.
  - constructor.
  - exact Hl.
  - constructor; [apply IH|by apply Forall_delete].
Qed.

Lemma not_elem_of_delete {A} (l : list A) i x :
  NoDup l -> l !! i = Some x -> x ∉ delete i l.
Proof.
  intros Hd Hi. rewrite (delete_Permutation l i x Hi) in Hd.
  by apply NoDup_cons in Hd as [? _].
Qed.

(** [remove(target)] on a settled collection deletes the first record of
    the target and renumbers the others [0 .. n-2] in their order; when the
    targets are distinct, [getShortcut(target)] then finds nothing. Without
    a record for the target it returns false and changes nothing. *)
Theorem remove_renumbers st l modalId t_load t_save now :
  cache st = Some l -> settled l = true ->
  (find_target modalId l = None -> remove st modalId t_load t_save = (false, st)) /\
  (forall i s,
     find_target modalId l = Some (i, s) ->
     fst (remove st modalId t_load t_save) = true ->
     let st' := snd (remove st modalId t_load t_save) in
     let kept := reindexPositions (delete i l) in
     cache st' = Some kept /\
     item (storage st') = Some (JSON_stringify (to_array kept)) /\
     unpositioned <$> kept = unpositioned <$> delete i l /\
     positions_of kept = Z.of_nat <$> seq 0 (length l - 1) /\
     (NoDup (targets_of l) -> fst (getShortcut st' modalId now) = None)).
Proof.
  intros Hc Hset. unfold remove. rewrite (load_cached st l t_load Hc). split.
  - by intros ->.
  - intros i s Hf. rewrite Hf.
    destruct (find_target_Some _ _ _ _ Hf) as [Hi Ht].
    pose proof (settled_parts _ Hset) as (Hs & Hl & Hd).
    assert (written (to_array (delete i l)) t_save =
            Some (reindexPositions (delete i l))) as Hw.
    { unfold written. rewrite validateShortcuts_settled; [done|].
      apply forallb_Forall, Forall_delete, Forall_forall. intros x Hx.
      rewrite Forall_forall in Hs, Hl. by rewrite (Hs x Hx), (Hl x Hx). }
    rewrite (save_edited_outcome st (delete i l) _ _ t_save Hw).
    destruct (accepts _ _); [|discriminate]. intros _. cbv zeta. cbn [snd].
    assert (ascending l) as Ha.
    { apply dense_spec in Hd. by eapply ascending_of_positions. }
    split_and!; try done.
    + by apply reindexPositions_ascending, ascending_delete.
    + rewrite reindexPositions_positions, length_delete by eauto. done.
    + intros Hnd.
      rewrite (getShortcut_cached (after_save st _) _ _ now eq_refl). cbn [fst].
      rewrite find_target_absent; [done|].
      rewrite reindexPositions_targets. unfold targets_of.
      rewrite list_fmap_delete, <- Ht.
      apply not_elem_of_delete; [done|].
      by rewrite list_lookup_fmap, Hi.
Qed.

(** ** getEnabledShortcuts *)


(** ** exportData and importData *)

(** Importing what [exportData()] returned leaves a settled collection as
    it is: the same records are written back. The host's [JSON.parse] has to
    invert its indented [JSON.stringify] on the collection. *)
Theorem import_of_export (indent : value -> string) st l now t :
  cache st = Some l -> settled l = true ->
  JSON_parse (indent (to_array l)) = Some (to_array l) ->
  exportData indent st now = (indent (to_array l), st) /\
  importData st (fst (exportData indent st now)) t =
    if accepts (storage st) (JSON_stringify (to_array l))
    then (true, after_save st l) else (false, st).
Proof.
  intros Hc Hset Hp. unfold exportData. rewrite (load_cached st l now Hc).
  split; [done|]. simpl. unfold importData. rewrite Hp.
  by apply save_outcome, written_settled.
Qed.

(** ** Agreement after a successful operation *)

Lemma save_true_agrees st shortcuts now :
  fst (save st shortcuts now) = true ->
  exists l, cache (snd (save st shortcuts now)) = Some l /\
            item (storage (snd (save st shortcuts now))) =
              Some (JSON_stringify (to_array l)) /\
            last (events (snd (save st shortcuts now))) = Some l.
Proof.
  intros Hok. destruct (save_true_state _ _ _ Hok) as (l & _ & ->).
  exists l. split_and!; try done.
  simpl. apply last_snoc.
Qed.

(** Whenever [save], [toggle], [updateLabel], [remove], [clear] or
    [importData] returns true, the cache, the stored text and the last
    [shortcuts-updated] event carry one and the same collection. *)
Theorem success_agrees :
  let agree (r : bool * State) :=
    fst r = true ->
    exists l, cache (snd r) = Some l /\
              item (storage (snd r)) = Some (JSON_stringify (to_array l)) /\
              last (events (snd r)) = Some l in
  (forall st shortcuts now, agree (save st shortcuts now)) /\
  (forall st modalId enabled' modalTitle t_load t_now t_save,
     agree (toggle st modalId enabled' modalTitle t_load t_now t_save)) /\
  (forall st modalId label' t_load t_now t_save,
     agree (updateLabel st modalId label' t_load t_now t_save)) /\
  (forall st modalId t_load t_save, agree (remove st modalId t_load t_save)) /\
  (forall st now, agree (clear st now)) /\
  (forall st jsonString now, agree (importData st jsonString now)).
Proof.
  intros agree. subst agree. simpl. split_and!.
  - apply save_true_agrees.
  - intros st modalId enabled' modalTitle t_load t_now t_save.
    destruct (toggle_is_save st modalId enabled' modalTitle t_load t_now t_save)
      as (st1 & l1 & ->). apply save_true_agrees.
  - intros st modalId label' t_load t_now t_save Hok.
    destruct (updateLabel_is_save _ _ _ _ _ _ Hok) as (st1 & l1 & E).
    rewrite E in *. by apply save_true_agrees.
  - intros st modalId t_load t_save Hok.
    destruct (remove_is_save _ _ _ _ Hok) as (st1 & l1 & E).
    rewrite E in *. by apply save_true_agrees.
  - intros st now. apply save_true_agrees.
  - intros st jsonString now. unfold importData.
    destruct (JSON_parse jsonString); [apply save_true_agrees|discriminate].
Qed.

End Ops.

Lemma NoDup_string_targets (ids : list string) :
  NoDup ids -> NoDup (VStr <$> ids).
Proof. apply NoDup_fmap_2. by intros a b [= ->]. Qed.

Lemma getShortcut_after_toggle_witness :
  let st := snd (@save Ref.platform (new empty_storage)
                   (to_array [sample "a" 0]) "T0") in
  let st' := snd (@toggle Ref.platform st "b" true "Beta Gamma" "T1" "T2" "T3") in
  fst (@toggle Ref.platform st "b" true "Beta Gamma" "T1" "T2" "T3") = true /\
  fst (@getShortcut Ref.platform st' "b" "T4") =
    Some {| id := VStr "shortcut-b"; label := "BG"; enabled := true;
            action := {| type := VStr "modal"; target := VStr "b" |};
            position := 1; visible := true;
            created_at := VStr "T2"; updated_at := VStr "T2" |} /\
  fst (@getShortcut Ref.platform st' "a" "T4") = Some (sample "a" 0).
Proof.
  intros st st'. split; [reflexivity|].
  destruct (@getShortcut_after_toggle Ref.platform st [sample "a" 0] "b" "a"
              "Beta Gamma" "T1" "T2" "T3" "T4" eq_refl eq_refl
              ltac:(discriminate) ltac:(discriminate) eq_refl eq_refl)
    as [Hb Ha].
  split; [exact Hb|]. exact (Ha ltac:(discriminate)).
Defined.

Lemma remove_renumbers_witness :
  let l := [sample "a" 0; sample "b" 1; sample "c" 2] in
  let st := snd (@save Ref.platform (new empty_storage) (to_array l) "T0") in
  let st' := snd (@remove Ref.platform st "b" "T1" "T2") in
  fst (@remove Ref.platform st "b" "T1" "T2") = true /\
  cache st' = Some [sample "a" 0; sample "c" 1] /\
  fst (@getShortcut Ref.platform st' "b" "T3") = None /\
  @remove Ref.platform st "z" "T1" "T2" = (false, st).
Proof.
  intros l st st'. split; [reflexivity|].
  destruct (@remove_renumbers Ref.platform st l "b" "T1" "T2" "T3"
              eq_refl eq_refl) as [Hnone Hsome].
  destruct (Hsome 1%nat (sample "b" 1) eq_refl eq_refl)
    as (Hc & _ & _ & _ & Hg).
  split; [exact Hc|]. split.
  - apply Hg. apply (NoDup_string_targets ["a"; "b"; "c"]%string).
    by apply (bool_decide_unpack _).
  - exact (proj1 (@remove_renumbers Ref.platform st l "z" "T1" "T2" "T3"
                    eq_refl eq_refl) eq_refl).
Defined.


Lemma import_of_export_witness :
  let l := [sample "a" 0; sample "b" 1] in
  let st := snd (@save Ref.platform (new empty_storage) (to_array l) "T0") in
  let text := fst (@exportData Ref.platform (indented "") st "T1") in
  text = indented "" (to_array l) /\
  @importData Ref.platform st text "T2" = (true, @after_save Ref.platform st l).
Proof.
  intros l st text.
  destruct (@import_of_export Ref.platform (indented "") st l "T1" "T2"
              eq_refl eq_refl eq_refl) as [He Hi].
  split; [exact (f_equal fst He)|exact Hi].
Defined.

Lemma success_agrees_witness :
  let r := @toggle Ref.platform (new empty_storage) "a" true "Alpha" "T1" "T2" "T3" in
  fst r = true /\
  exists l, cache (snd r) = Some l /\
            item (storage (snd r)) = Some (@JSON_stringify Ref.platform (to_array l)) /\
            last (events (snd r)) = Some l.
Proof.
  intros r. split; [reflexivity|].
  exact (proj1 (proj2 (@success_agrees Ref.platform))
           (new empty_storage) "a" true "Alpha" "T1" "T2" "T3" eq_refl).
Defined.

End StoreOpsFacts.

(** * The modal session and the orchestrator *)

Module SystemFacts.
Import System.

(** ** The session state *)

(** A session that [open] accepted at a clock reading other than 0 is
    active until [close], which returns the time since the opening; a
    second [close] returns 0. *)
Theorem session_duration s modalId moduleId t t' t'' :
  fst (Modal.open s modalId moduleId t) = true -> t <> 0 ->
  let s1 := snd (Modal.open s modalId moduleId t) in
  let s2 := snd (Modal.close s1 t') in
  Modal.isActive s1 = true /\
  fst (Modal.close s1 t') = t' - t /\
  Modal.isActive s2 = false /\
  fst (Modal.close s2 t'') = 0.
Proof.
  unfold Modal.open.
  destruct (Modal.isTransitioning s || Modal.id_truthy (Modal.activeModalId s));
    [discriminate|].
  intros _ Ht. cbn. split_and!; try done.
  by destruct (Z.eqb_spec t 0).
Qed.

Lemma session_duration_witness :
  let s1 := snd (Modal.open Modal.init "settings" "core" 1000) in
  Modal.isActive s1 = true /\ fst (Modal.close s1 1250) = 250.
Proof.
  intros s1.
  destruct (session_duration Modal.init "settings" "core" 1000 1250 1300
              eq_refl ltac:(discriminate)) as (Ha & Hd & _).
  split; [exact Ha|exact Hd].
Defined.

(** ** The event log *)

Lemma event_pairs_ind (Q : list Event -> Prop) :
  Q [] -> (forall e, Q [e]) -> (forall e1 e2 l, Q l -> Q (e1 :: e2 :: l)) ->
  forall l, Q l.
Proof.
  intros H0 H1 H2.
  assert (forall l, Q l /\ forall e, Q (e :: l)) as H.
  { induction l as [|e l [IH1 IH2]]; [by split|]. split; [apply IH2|].
    intros e'. by apply H2. }
  intros l. apply H.
Qed.

Lemma bracketed_opened log a mod' :
  bracketed log None -> bracketed (log ++ [ModalOpened a mod']) (Some a).
Proof.
  induction log as [| e | e1 e2 l IH] using event_pairs_ind.
  - done.
  - by destruct e.
  - destruct e1, e2; try done.
    intros [-> H]. split; [done|]. by apply IH.
Qed.

Lemma bracketed_closed log a d :
  bracketed log (Some a) -> bracketed (log ++ [ModalClosed a d]) None.
Proof.
  induction log as [| e | e1 e2 l IH] using event_pairs_ind.
  - done.
  - destruct e; [|done]. by intros [= ->].
  - destruct e1, e2; try done.
    intros [-> H]. split; [done|]. by apply IH.
Qed.

(** ** Coherence *)

Lemma new_coherent : coherent new.
Proof.
  split; try done.
  - intros m [[k Hk]|Ha]; [cbn in Hk; by rewrite lookup_empty in Hk|done].
  - intros m1 m2 [[k Hk]|Ha]; [cbn in Hk; by rewrite lookup_empty in Hk|done].
Qed.

Lemma register_coherent sys c : coherent sys -> coherent (snd (register sys c)).
Proof.
  intros [I1 I2 I3 I4 Ip I5 I6].
  assert (forall m, known (snd (register sys c)) m ->
                    m = new_Modal (allocated sys) c \/ known sys m) as Hk.
  { intros m [[k Hk]|Ha].
    - simpl in Hk. destruct (decide (raw_id c = k)) as [<-|Hne].
      + rewrite lookup_insert_eq in Hk. left. congruence.
      + rewrite lookup_insert_ne in Hk by done. right. left. eauto.
    - right. by right. }
  split; simpl; try done.
  - intros k m. destruct (decide (raw_id c = k)) as [<-|Hne].
    + rewrite lookup_insert_eq. by intros [= <-].
    + rewrite lookup_insert_ne by done. apply I1.
  - intros m [->|H]%Hk; [simpl; lia|]. specialize (I2 m H). lia.
  - intros m1 m2 [->|H1]%Hk [->|H2]%Hk; simpl; intros Hu; try done.
    + specialize (I2 m2 H2). lia.
    + specialize (I2 m1 H1). lia.
    + by apply I3.
Qed.

Lemma open_registered sys modalId now modal :
  coherent sys -> modals sys !! modalId = Some modal -> activeModal sys = None ->
  open sys modalId now =
    {| modals := modals sys;
       activeModal := Some modal;
       overlay_display := "flex";
       overlay_child := Some (uid modal);
       overlay_attached := overlay_attached sys;
       state :=
         {| Modal.activeModalId := Some modalId;
            Modal.activeModuleId := Some (moduleId (config modal));
            Modal.openedAt := Some now;
            Modal.previousModalId := None;
            Modal.isTransitioning := false |};
       dispatched := dispatched sys ++ [ModalOpened modalId (moduleId (config modal))];
       hooks_called := call_hook (onOpen (config modal)) modal OnOpen (hooks_called sys);
       allocated := allocated sys |}.
Proof.
  intros [I1 I2 I3 I4 Ip I5 I6] Hm Ha. unfold open. rewrite Hm, Ha.
  rewrite Ha in I5. destruct I5 as (Hid & _).
  unfold Modal.open. rewrite I4, Hid. cbn. by rewrite Hid.
Qed.

Lemma open_coherent sys modalId now : coherent sys -> coherent (open sys modalId now).
Proof.
  intros Hc.
  destruct (modals sys !! modalId) as [modal|] eqn:Hm;
    [|by unfold open; rewrite Hm].
  destruct (activeModal sys) as [a|] eqn:Ha;
    [by unfold open; rewrite Hm, Ha|].
  rewrite (open_registered sys modalId now modal Hc Hm Ha).
  destruct Hc as [I1 I2 I3 I4 Ip I5 I6].
  assert (forall m, known {| modals := modals sys; activeModal := Some modal;
                             overlay_display := "flex";
                             overlay_child := Some (uid modal);
                             overlay_attached := overlay_attached sys;
                             state := {| Modal.activeModalId := Some modalId;
                                         Modal.activeModuleId := Some (moduleId (config modal));
                                         Modal.openedAt := Some now;
                                         Modal.previousModalId := None;
                                         Modal.isTransitioning := false |};
                             dispatched := dispatched sys ++ [ModalOpened modalId (moduleId (config modal))];
                             hooks_called := call_hook (onOpen (config modal)) modal OnOpen (hooks_called sys);
                             allocated := allocated sys |} m -> known sys m) as Hk.
  { intros m [[k Hk]|[= <-]]; left; eauto. }
  split; simpl; try done.
  - intros m H%Hk. by apply I2.
  - intros m1 m2 H1%Hk H2%Hk. by apply I3.
  - rewrite (I1 _ _ Hm). split_and!; eauto.
  - unfold active_id in *. simpl. rewrite Ha in I6. simpl in I6.
    rewrite (I1 _ _ Hm). by apply bracketed_opened.
Qed.

Lemma closeActive_idle sys now : activeModal sys = None -> closeActive sys now = sys.
Proof. intros Ha. unfold closeActive. by rewrite Ha. Qed.

Lemma closeActive_coherent sys now : coherent sys -> coherent (closeActive sys now).
Proof.
  intros Hc. destruct (activeModal sys) as [a|] eqn:Ha;
    [|by rewrite closeActive_idle].
  destruct Hc as [I1 I2 I3 I4 Ip I5 I6]. unfold closeActive. rewrite Ha.
  assert (forall st' log m,
            known {| modals := modals sys; activeModal := None;
                     overlay_display := "none"; overlay_child := None;
                     overlay_attached := overlay_attached sys; state := st';
                     dispatched := log;
                     hooks_called := call_hook (onClose (config a)) a OnClose (hooks_called sys);
                     allocated := allocated sys |} m -> known sys m) as Hk.
  { intros st' log m [[k Hk]|[=]]. left; eauto. }
  split; simpl; try done.
  - intros m H%Hk. by apply I2.
  - intros m1 m2 H1%Hk H2%Hk. by apply I3.
  - unfold active_id in *. rewrite Ha in I6. simpl in *. by apply bracketed_closed.
Qed.

Lemma set_modals_coherent sys (reg : gmap string ModalObj) :
  reg ⊆ modals sys -> coherent sys -> coherent (set_modals reg sys).
Proof.
  intros Hsub [I1 I2 I3 I4 I5 I6].
  assert (forall m, known (set_modals reg sys) m -> known sys m) as Hk.
  { intros m [[k Hk]|Ha]; [left|by right]. exists k.
    by eapply lookup_weaken. }
  split; simpl; try done.
  - intros k m Hm. apply I1. by eapply lookup_weaken.
  - intros m H%Hk. by apply I2.
  - intros m1 m2 H1%Hk H2%Hk. by apply I3.
Qed.

Lemma unregister_coherent sys modalId now :
  coherent sys -> coherent (unregister sys modalId now).
Proof.
  intros Hc. unfold unregister. destruct (modals sys !! modalId); [|done].
  apply set_modals_coherent; [apply delete_subseteq|].
  destruct (is_active sys m); [by apply closeActive_coherent|done].
Qed.

Lemma destroy_coherent sys now : coherent sys -> coherent (destroy sys now).
Proof.
  intros Hc. pose proof (closeActive_coherent sys now Hc) as Hc'.
  pose proof (set_modals_coherent (closeActive sys now) ∅
                (map_empty_subseteq _) Hc') as [I1 I2 I3 I4 Ip I5 I6].
  unfold destroy. split; try done.
Qed.

Lemma step_coherent sys c : coherent sys -> coherent (step sys c).
Proof.
  intros Hc. destruct c; simpl.
  - by apply register_coherent.
  - by apply open_coherent.
  - by apply closeActive_coherent.
  - by apply unregister_coherent.
  - by apply destroy_coherent.
  - unfold keydown. destruct (_ && _); [by apply closeActive_coherent|done].
  - unfold overlay_click. destruct on_overlay; [by apply closeActive_coherent|done].
Qed.

Lemma run_coherent calls : coherent (run calls).
Proof.
  unfold run. induction calls as [|c calls IH] using rev_ind.
  - apply new_coherent.
  - rewrite foldl_app. simpl. by apply step_coherent.
Qed.

Lemma idle_iff_inactive calls :
  activeModal (run calls) = None <-> Modal.isActive (state (run calls)) = false.
Proof.
  destruct (run_coherent calls) as [I1 I2 I3 I4 Ip I5 I6]. unfold Modal.isActive.
  destruct (activeModal (run calls)).
  - by destruct I5 as (-> & _).
  - by destruct I5 as (-> & _).
Qed.

(** ** What holds of every orchestrator *)

(** Whatever is registered, opened, closed, unregistered or destroyed, and
    whatever keys and clicks arrive: a modal is active exactly when the
    session state is active and exactly when the overlay is displayed; the
    session state and the overlay then name that modal; and without an
    active modal the session state is the initial one. *)
Theorem overlay_follows_active_modal calls :
  let sys := run calls in
  (activeModal sys = None <-> Modal.isActive (state sys) = false) /\
  (activeModal sys = None <-> overlay_display sys = "none"%string) /\
  (activeModal sys = None -> state sys = Modal.init /\ overlay_child sys = None) /\
  (forall m, activeModal sys = Some m ->
     Modal.activeModalId (state sys) = Some (id (config m)) /\
     Modal.activeModuleId (state sys) = Some (moduleId (config m)) /\
     overlay_display sys = "flex"%string /\
     overlay_child sys = Some (uid m)).
Proof.
  intros sys. destruct (run_coherent calls) as [I1 I2 I3 I4 Ip I5 I6].
  fold sys in I1, I2, I3, I4, Ip, I5, I6. unfold Modal.isActive.
  destruct (activeModal sys) as [a|].
  - destruct I5 as (-> & -> & _ & -> & ->). split_and!; try done.
    by intros m [= <-].
  - destruct I5 as (Hid & Hmod & Hat & Hd & Hch). rewrite Hid, Hd.
    split_and!; try done. intros _. split; [|done].
    destruct (state sys). simpl in *. by subst.
Qed.

Lemma overlay_follows_active_modal_witness :
  let sys := run [Register (plain_config "a" "A" "core"); Open "a" 1000] in
  Modal.activeModalId (state sys) = Some "a"%string /\
  overlay_display sys = "flex"%string.
Proof.
  intros sys.
  destruct (proj2 (proj2 (proj2 (overlay_follows_active_modal
              [Register (plain_config "a" "A" "core"); Open "a" 1000])))
              (new_Modal 0 (plain_config "a" "A" "core")) eq_refl)
    as (Hid & _ & Hd & _).
  split; [exact Hid|exact Hd].
Defined.

(** The [modal-opened] and [modal-closed] events of an orchestrator come in
    pairs that name the same modal, one pair after the other; one last
    [modal-opened] is unanswered exactly when a modal is active, and names
    it. *)
Theorem events_are_bracketed calls :
  bracketed (dispatched (run calls)) (active_id (run calls)).
Proof. apply run_coherent. Qed.

(** In an orchestrator with any history, [open(modalId)] shows the modal
    registered under [modalId] if no modal is active, whatever the
    identifier is, the empty string included; it does nothing if the
    identifier is not registered or a modal is active. *)
Theorem open_shows_registered_modal calls modalId now :
  let sys := run calls in
  (forall m, getModal sys modalId = Some m -> activeModal sys = None ->
     activeModal (open sys modalId now) = Some m /\
     Modal.activeModalId (state (open sys modalId now)) = Some modalId /\
     Modal.openedAt (state (open sys modalId now)) = Some now /\
     overlay_child (open sys modalId now) = Some (uid m) /\
     dispatched (open sys modalId now) =
       dispatched sys ++ [ModalOpened modalId (moduleId (config m))]) /\
  (getModal sys modalId = None \/ activeModal sys <> None ->
   open sys modalId now = sys).
Proof.
  intros sys. split.
  - intros m Hm Ha.
    by rewrite (open_registered sys modalId now m (run_coherent calls) Hm Ha).
  - unfold open, getModal. intros [->|Ha]; [done|].
    destruct (modals sys !! modalId); [|done].
    by destruct (activeModal sys).
Qed.

Lemma open_shows_registered_modal_witness :
  let unnamed := plain_config "" "Untitled" "core" in
  activeModal (open (run [Register unnamed]) "" 1000) = Some (new_Modal 0 unnamed) /\
  open (run [Register unnamed; Open "" 1000]) "" 2000 =
    run [Register unnamed; Open "" 1000].
Proof.
  intros unnamed. split.
  - apply (proj1 (open_shows_registered_modal [Register unnamed] "" 1000)
             (new_Modal 0 unnamed)); vm_compute; reflexivity.
  - apply (proj2 (open_shows_registered_modal
                    [Register unnamed; Open "" 1000] "" 2000)).
    right. vm_compute. discriminate.
Defined.

(** The Escape key closes the active modal, like [closeActive()], in every
    orchestrator; any other key changes nothing. *)
Theorem escape_closes_active_modal calls key now :
  keydown (run calls) key now =
    if String.eqb key "Escape" then closeActive (run calls) now else run calls.
Proof.
  unfold keydown. destruct (String.eqb key "Escape"); [|done]. simpl.
  destruct (Modal.isActive (state (run calls))) eqn:Hact; [done|].
  symmetry. apply closeActive_idle.
  by apply (proj2 (idle_iff_inactive calls)).
Qed.

Lemma is_active_spec sys m :
  coherent sys -> known sys m ->
  is_active sys m = true <-> activeModal sys = Some m.
Proof.
  intros Hc Hk. unfold is_active.
  destruct (activeModal sys) as [a|] eqn:Ha; [|done].
  rewrite Nat.eqb_eq. split.
  - intros Hu. f_equal. apply (co_objects sys Hc); [by right|done|done].
  - by intros [= ->].
Qed.

(** [unregister(modalId)] in an orchestrator with any history: the
    identifier is no longer registered, every other registration stays, and
    the active modal is closed if it is the modal that was registered under
    [modalId], and stays active otherwise. *)
Theorem unregister_closes_only_itself calls modalId now :
  let sys := run calls in
  let sys' := unregister sys modalId now in
  hasModal sys' modalId = false /\
  (forall other, other <> modalId -> getModal sys' other = getModal sys other) /\
  (activeModal sys = getModal sys modalId -> activeModal sys' = None) /\
  (activeModal sys <> getModal sys modalId -> activeModal sys' = activeModal sys).
Proof.
  intros sys sys'. pose proof (run_coherent calls) as Hc. fold sys in Hc.
  subst sys'. unfold unregister, hasModal, getModal.
  destruct (modals sys !! modalId) as [m|] eqn:Hm.
  - assert (known sys m) as Hk by (left; eauto).
    pose proof (is_active_spec sys m Hc Hk) as Hactive.
    destruct (is_active sys m) eqn:Hia.
    + assert (activeModal sys = Some m) as Ha by by apply Hactive.
      unfold closeActive. rewrite Ha. simpl. split_and!; try done.
      * apply bool_decide_eq_false. rewrite lookup_delete_eq. by intros [? ?].
      * intros other Hne. by rewrite lookup_delete_ne.
    + assert (activeModal sys <> Some m) as Ha.
      { intros H. apply Hactive in H. congruence. }
      simpl. split_and!; try done.
      * apply bool_decide_eq_false. rewrite lookup_delete_eq. by intros [? ?].
      * intros other Hne. by rewrite lookup_delete_ne.
  - split_and!; try done.
    apply bool_decide_eq_false. rewrite Hm. by intros [? ?].
Qed.

Lemma unregister_closes_only_itself_witness :
  let first := plain_config "a" "First" "core" in
  let second := plain_config "a" "Second" "core" in
  let sys := run [Register first; Open "a" 1000; Register second] in
  activeModal sys = Some (new_Modal 0 first) /\
  getModal sys "a" = Some (new_Modal 1 second) /\
  activeModal (unregister sys "a" 2000) = Some (new_Modal 0 first) /\
  hasModal (unregister sys "a" 2000) "a" = false.
Proof.
  intros first second sys. split; [reflexivity|]. split; [reflexivity|].
  destruct (unregister_closes_only_itself
              [Register first; Open "a" 1000; Register second] "a" 2000)
    as (Hh & _ & _ & Hkeep).
  split; [|exact Hh]. apply Hkeep. discriminate.
Defined.

(** A session from [open(modalId)] to [closeActive()]: the two events
    [modal-opened] and [modal-closed] are dispatched for [modalId], the
    second with the time between the two calls as its duration, and the
    orchestrator is back in the state it had, with the registry, the
    session state and the overlay as before. (The opening clock reading is
    not 0.) *)
Theorem session_round_trip calls modalId m t t' :
  getModal (run calls) modalId = Some m -> activeModal (run calls) = None ->
  t <> 0 ->
  let sys := run calls in
  let sys' := closeActive (open sys modalId t) t' in
  dispatched sys' =
    dispatched sys ++ [ModalOpened modalId (moduleId (config m));
                       ModalClosed modalId (t' - t)] /\
  hooks_called sys' =
    call_hook (onClose (config m)) m OnClose
      (call_hook (onOpen (config m)) m OnOpen (hooks_called sys)) /\
  modals sys' = modals sys /\ activeModal sys' = None /\
  state sys' = state sys /\
  overlay_display sys' = overlay_display sys /\
  overlay_child sys' = overlay_child sys.
Proof.
  intros Hm Ha Ht sys sys'. pose proof (run_coherent calls) as Hc.
  fold sys in Hm, Ha, Hc. subst sys'.
  rewrite (open_registered sys modalId t m Hc Hm Ha).
  destruct Hc as [I1 I2 I3 I4 Ip I5 I6]. rewrite Ha in I5.
  destruct I5 as (Hid & Hmod & Hat & Hd & Hch).
  unfold closeActive. cbn. rewrite (I1 _ _ Hm).
  destruct (Z.eqb_spec t 0) as [|_]; [done|]. cbn.
  split_and!; try done.
  - by rewrite <- app_assoc.
  - destruct (state sys). simpl in *. by subst.
Qed.

Lemma session_round_trip_witness :
  let sys := run [Register (plain_config "a" "A" "core")] in
  dispatched (closeActive (open sys "a" 1000) 1250) =
    [ModalOpened "a" "core"; ModalClosed "a" 250].
Proof.
  intros sys.
  exact (proj1 (session_round_trip [Register (plain_config "a" "A" "core")] "a"
                  (new_Modal 0 (plain_config "a" "A" "core")) 1000 1250
                  eq_refl eq_refl ltac:(discriminate))).
Defined.

End SystemFacts.

(** * The shell *)

Module ShellFacts.
Import Shell.

Ltac init_cases sh page :=
  unfold init, prepareMountPoints, mounts_present;
  destruct (shortcutMount page), (dashboardMount page); cbn;
  unfold initPWA, registerServiceWorker;
  destruct (standalone page), (serviceWorker page) as [| |[]]; cbn.

(** [init()] runs through the registration of the service worker, the
    storage test and the install handling, and then: with both mount points
    in the page the shell is initialized with its mount points ready and no
    error counted; with one missing, two errors are counted (one where the
    exception is thrown, one where it is caught) and the shell is as
    initialized and as ready as it was. *)
Theorem init_outcome sh page :
  let sh' := init sh page in
  if mounts_present page then
    initialized sh' = true /\ st_initialized (state sh') = true /\
    mountPoints sh' = true /\ mountPointsReady (state sh') = true /\
    errorCount (state sh') = errorCount (state sh)
  else
    initialized sh' = initialized sh /\
    st_initialized (state sh') = st_initialized (state sh) /\
    mountPoints sh' = mountPoints sh /\
    mountPointsReady (state sh') = mountPointsReady (state sh) /\
    errorCount (state sh') = errorCount (state sh) + 2.
Proof. init_cases sh page; split_and!; try done; lia. Qed.

Lemma step_errorCount sh c :
  errorCount (state (step sh c)) =
    errorCount (state sh) + (if fails c then 2 else 0).
Proof.
  destruct c as [page| | |]; simpl.
  - init_cases sh page; lia.
  - unfold beforeinstallprompt. destruct (listeners sh); simpl; lia.
  - unfold appinstalled. destruct (listeners sh); simpl; lia.
  - unfold installPWA. destruct (deferredPrompt sh); simpl; lia.
Qed.

Lemma run_snoc calls c : run (calls ++ [c]) = step (run calls) c.
Proof. unfold run. by rewrite foldl_app. Qed.

Lemma run_errorCount calls :
  errorCount (state (run calls)) = 2 * Z.of_nat (length (filter (fun c => fails c = true) calls)).
Proof.
  induction calls as [|c calls IH] using rev_ind; [done|].
  rewrite run_snoc, step_errorCount, IH, filter_app, length_app.
  destruct (fails c) eqn:Hf.
  - rewrite filter_cons_True by done. simpl. lia.
  - rewrite filter_cons_False by (by rewrite Hf). simpl. lia.
Qed.

Lemma no_failure calls :
  length (filter (fun c => fails c = true) calls) = 0%nat <->
  Forall (fun c => fails c = false) calls.
Proof.
  induction calls as [|c calls IH]; [done|].
  rewrite Forall_cons. destruct (fails c) eqn:Hf.
  - rewrite filter_cons_True by done. simpl. split; [lia|]. by intros [? _].
  - rewrite filter_cons_False by (by rewrite Hf). rewrite IH. tauto.
Qed.

(** The error count of a shell is twice the number of [init()] calls that
    did not find both mount points; so [getState().health] is ['healthy']
    exactly when no [init()] failed, whatever else happened. *)
Theorem health_counts_failed_inits calls :
  errorCount (state (run calls)) =
    2 * Z.of_nat (length (filter (fun c => fails c = true) calls)) /\
  (getState_health (run calls) = healthy <->
   Forall (fun c => fails c = false) calls).
Proof.
  split; [apply run_errorCount|].
  unfold getState_health. rewrite run_errorCount, <- no_failure.
  destruct (Z.eqb_spec (2 * Z.of_nat (length (filter (fun c => fails c = true) calls))) 0)
    as [H0|H0]; split; try done; lia.
Qed.

Lemma health_counts_failed_inits_witness :
  getState_health (run [Init broken_page; Init plain_page]) = degraded /\
  getState_health (run [Init plain_page; BeforeInstallPrompt 0; InstallPWA false])
    = healthy.
Proof.
  split; [reflexivity|].
  apply (proj2 (health_counts_failed_inits
                  [Init plain_page; BeforeInstallPrompt 0; InstallPWA false])).
  repeat constructor.
Defined.

(** ** The install prompt *)

Lemma step_prompt_kept sh c : prompt_kept sh -> prompt_kept (step sh c).
Proof.
  intros Hk. pose proof Hk as [H1 H2 H3 H4 H5].
  destruct c as [page|e| |accepted]; simpl.
  - init_cases sh page; split; cbn; try done; try (intros; lia); try tauto.
  - unfold beforeinstallprompt. destruct (listeners sh) eqn:Hl; [exact Hk|].
    split; cbn; try done. intros _. lia.
  - unfold appinstalled. destruct (listeners sh) eqn:Hl; [exact Hk|].
    split; cbn; try done; try (by intros [? ?]).
    all: split; [done|by intros [? ?]].
  - unfold installPWA. destruct (deferredPrompt sh) eqn:Hp; [|exact Hk].
    split; cbn; try done; try (by intros [? ?]).
    all: split; [done|by intros [? ?]].
Qed.

Lemma run_prompt_kept calls : prompt_kept (run calls).
Proof.
  induction calls as [|c calls IH] using rev_ind.
  - split; cbn; try done; by intros [? ?].
  - rewrite run_snoc. by apply step_prompt_kept.
Qed.

(** Through any sequence of [init()] calls, install events and
    [installPWA()] calls, [state.pwaInstallable] is true exactly while an
    install prompt is held, the two [initialized] flags agree, and an
    initialized shell has its mount points. *)
Theorem installable_iff_prompt_held calls :
  let sh := run calls in
  (pwaInstallable (state sh) = true <-> is_Some (deferredPrompt sh)) /\
  initialized sh = st_initialized (state sh) /\
  (initialized sh = true ->
   mountPoints sh = true /\ mountPointsReady (state sh) = true).
Proof.
  intros sh. destruct (run_prompt_kept calls) as [H1 H2 H3 H4 H5].
  fold sh in H1, H2, H3, H4, H5. split_and!; try done.
  intros Hi. split; [by apply H5|]. rewrite <- H4. by apply H5.
Qed.

Lemma installable_iff_prompt_held_witness :
  let sh := run [Init plain_page; BeforeInstallPrompt 7] in
  is_Some (deferredPrompt sh) /\ mountPointsReady (state sh) = true.
Proof.
  intros sh.
  destruct (installable_iff_prompt_held [Init plain_page; BeforeInstallPrompt 7])
    as (Hp & _ & Hm).
  split; [exact (proj1 Hp eq_refl)|exact (proj2 (Hm eq_refl))].
Defined.

(** [installPWA()] answers true only when a prompt was held, the shell said
    it was installable and the user accepted; whatever the answer, the
    prompt is gone afterwards: the shell is no longer installable and the
    next [installPWA()] answers false and changes nothing. *)
Theorem installPWA_uses_prompt_once calls accepted again :
  let sh := run calls in
  let sh' := snd (installPWA sh accepted) in
  (fst (installPWA sh accepted) = true ->
   accepted = true /\ is_Some (deferredPrompt sh) /\
   pwaInstallable (state sh) = true) /\
  pwaInstallable (state sh') = false /\
  installPWA sh' again = (false, sh').
Proof.
  intros sh sh'. destruct (run_prompt_kept calls) as [H1 H2 H3 H4 H5].
  fold sh in H1, H2, H3, H4, H5. subst sh'. unfold installPWA.
  destruct (deferredPrompt sh) as [e|] eqn:Hp; cbn.
  - split_and!; try done. intros ->. split_and!; [done|by eauto|].
    apply H1. by eauto.
  - rewrite Hp. split_and!; try done.
    destruct (pwaInstallable (state sh)) eqn:Hi; [|done].
    destruct (proj1 H1 eq_refl) as [? ?]. done.
Qed.

Lemma installPWA_uses_prompt_once_witness :
  let sh := run [Init plain_page; BeforeInstallPrompt 7] in
  fst (installPWA sh true) = true /\
  fst (installPWA (snd (installPWA sh true)) true) = false.
Proof.
  intros sh. split; [reflexivity|].
  exact (f_equal fst (proj2 (proj2 (installPWA_uses_prompt_once
                        [Init plain_page; BeforeInstallPrompt 7] true true)))).
Defined.

End ShellFacts.

(** * The module settings panel and the storage schema *)

Module SettingsFacts.
Import Settings.

Lemma assoc_define_same k v fs : assoc k (define k v fs) = v.
Proof.
  induction fs as [|[k' v'] fs IH]; simpl.
  - by rewrite String.eqb_refl.
  - destruct (String.eqb k k') eqn:E; simpl; rewrite E; [done|apply IH].
Qed.

Lemma assoc_define_other k k0 v fs :
  k0 <> k -> assoc k0 (define k v fs) = assoc k0 fs.
Proof.
  intros Hne. induction fs as [|[k' v'] fs IH]; simpl.
  - destruct (String.eqb_spec k0 k); [done|done].
  - destruct (String.eqb_spec k k') as [<-|Hk]; simpl.
    + destruct (String.eqb_spec k0 k); [done|done].
    + by rewrite IH.
Qed.

Section WithPlatform.
Context {P : Platform}.

Lemma or_else_false v : or_else v (VBool false) = VBool false \/ truthy (or_else v (VBool false)) = true.
Proof. unfold or_else. destruct (truthy v) eqn:E; [by right|by left]. Qed.

(** [loadExpandedState()] never throws and answers either [false] or a
    truthy value, never another falsy one; it answers [false] when the
    storage cannot be read, when the stored text is not JSON and when it is
    the JSON of [null]. *)
Theorem loadExpandedState_fail_safe ls :
  (loadExpandedState ls = VBool false \/ truthy (loadExpandedState ls) = true) /\
  (readable ls = false -> loadExpandedState ls = VBool false) /\
  (forall text,
     items ls !! STATE_KEY = Some text -> text <> ""%string ->
     JSON_parse text = None \/ JSON_parse text = Some VNull ->
     loadExpandedState ls = VBool false).
Proof.
  unfold loadExpandedState, getItem. split_and!.
  - destruct (readable ls); simpl; [|by left].
    destruct (JSON_parse _) as [states|]; simpl; [|by left].
    destruct (read_panel states); [apply or_else_false|by left].
  - by intros ->.
  - intros text Ht Hne Hp. destruct (readable ls); simpl; [|done].
    rewrite Ht. destruct text; [done|]. simpl.
    by destruct Hp as [-> | ->].
Qed.

Lemma saveExpandedState_object m ls fs :
  readable ls = true ->
  JSON_parse (or_empty_object (items ls !! STATE_KEY)) = Some (VObj fs) ->
  accepts ls STATE_KEY (JSON_stringify (VObj (define PANEL (expanded m) fs))) = true ->
  saveExpandedState m ls =
    {| items := <[STATE_KEY := JSON_stringify (VObj (define PANEL (expanded m) fs))]> (items ls);
       readable := readable ls; accepts := accepts ls |}.
Proof.
  intros Hr Hp Ha. unfold saveExpandedState, getItem, setItem. rewrite Hr. simpl.
  rewrite Hp. simpl. by rewrite Ha.
Qed.

Lemma toggle_flag m ls :
  expanded (fst (fst (toggle m ls))) = VBool (negb (truthy (expanded m))) /\
  toggled_expanded (snd (toggle m ls)) = VBool (negb (truthy (expanded m))) /\
  modalId (fst (fst (toggle m ls))) = modalId m /\
  toggled_modalId (snd (toggle m ls)) = modalId m.
Proof. unfold toggle. simpl. by destruct (negb (truthy (expanded m))). Qed.

(** A click on one panel reaches every modal: when the stored text is
    absent or the JSON of an object, the storage takes the write and
    [JSON.parse] reads back what [JSON.stringify] wrote, then after
    [toggle()] the stored object carries the new flag under
    ['module-settings'] with its other members as they were, and a panel
    constructed afterwards for any modal identifier starts out in the state
    the toggled one is in. *)
Theorem toggle_reaches_every_modal m ls fs other :
  let flag := VBool (negb (truthy (expanded m))) in
  let states := VObj (define PANEL flag fs) in
  readable ls = true ->
  JSON_parse (or_empty_object (items ls !! STATE_KEY)) = Some (VObj fs) ->
  accepts ls STATE_KEY (JSON_stringify states) = true ->
  JSON_stringify states <> ""%string ->
  JSON_parse (JSON_stringify states) = Some states ->
  let m' := fst (fst (toggle m ls)) in
  let ls' := snd (fst (toggle m ls)) in
  expanded m' = flag /\
  toggled_expanded (snd (toggle m ls)) = flag /\
  items ls' = <[STATE_KEY := JSON_stringify states]> (items ls) /\
  (forall k, k <> PANEL -> get states k = get (VObj fs) k) /\
  expanded (new ls' other) = flag.
Proof.
  intros flag states Hr Hp Ha Hne Hback m' ls'.
  destruct (toggle_flag m ls) as (Hm & He & _).
  assert (ls' = {| items := <[STATE_KEY := JSON_stringify states]> (items ls);
                   readable := readable ls; accepts := accepts ls |}) as Hls.
  { subst ls'. unfold toggle. cbn [fst snd].
    match goal with
    | |- saveExpandedState ?m2 ls = _ =>
        assert (expanded m2 = flag) as He2 by exact Hm;
        rewrite (saveExpandedState_object m2 ls fs Hr); rewrite ?He2; done
    end. }
  split_and!; try done.
  - by rewrite Hls.
  - intros k Hk. simpl. by apply assoc_define_other.
  - rewrite Hls. unfold new, loadExpandedState, getItem. simpl. rewrite Hr. simpl.
    rewrite lookup_insert_eq.
    assert (or_empty_object (Some (JSON_stringify states)) = JSON_stringify states)
      as -> by (by destruct (JSON_stringify states)).
    rewrite Hback. simpl. rewrite assoc_define_same.
    subst flag. unfold or_else. simpl. by destruct (negb (truthy (expanded m))).
Qed.

(** ** Clicks *)

Lemma toggle_elements m ls :
  let m' := fst (fst (toggle m ls)) in
  elements m' =
    (fun _ => {| content_hidden := negb (truthy (expanded m'));
                 aria_expanded := truthy (expanded m');
                 toggle_arrow := if truthy (expanded m') then ArrowDown else ArrowRight |})
      <$> elements m.
Proof.
  unfold toggle. simpl. destruct (negb (truthy (expanded m))); simpl;
    by destruct (elements m).
Qed.

Lemma clicks_S n m ls :
  clicks (S n) m ls = clicks n (fst (fst (toggle m ls))) (snd (fst (toggle m ls))).
Proof. simpl. by destruct (toggle m ls) as [[m1 ls1] ev]. Qed.

Lemma clicks_spec n : forall m ls,
  let m' := fst (clicks n m ls) in
  modalId m' = modalId m /\
  truthy (expanded m') = xorb (Nat.odd n) (truthy (expanded m)) /\
  (n <> 0%nat -> expanded m' = VBool (truthy (expanded m'))) /\
  (elements m = None -> elements m' = None) /\
  (forall dom,
     elements m = Some dom ->
     (n = 0%nat -> elements m' = Some dom) /\
     (n <> 0%nat ->
      elements m' =
        Some {| content_hidden := negb (truthy (expanded m'));
                aria_expanded := truthy (expanded m');
                toggle_arrow := if truthy (expanded m') then ArrowDown else ArrowRight |})).
Proof.
  induction n as [|n IH]; intros m ls.
  - simpl. split_and!; try done; by destruct (truthy (expanded m)).
  - rewrite clicks_S. cbv zeta.
    destruct (toggle_flag m ls) as (Hf & _ & Hid & _).
    pose proof (toggle_elements m ls) as Hel. cbv zeta in Hel.
    specialize (IH (fst (fst (toggle m ls))) (snd (fst (toggle m ls)))).
    cbv zeta in IH. destruct IH as (I1 & I2 & I3 & I4 & I5).
    set (m1 := fst (fst (toggle m ls))) in *.
    set (m' := fst (clicks n m1 (snd (fst (toggle m ls))))) in *.
    split_and!.
    + by rewrite I1.
    + rewrite I2, Hf, Nat.odd_succ, <- Nat.negb_odd. simpl.
      by destruct (Nat.odd n), (truthy (expanded m)).
    + intros _. destruct n as [|n]; [|by apply I3].
      subst m'. simpl. rewrite Hf. simpl. done.
    + intros Hn. apply I4. by rewrite Hel, Hn.
    + intros dom Hd. split; [done|]. intros _.
      rewrite Hd in Hel. simpl in Hel.
      destruct (I5 _ Hel) as [I50 I5S].
      destruct n as [|n]; [|by apply I5S].
      rewrite (I50 eq_refl). subst m'. simpl. done.
Qed.

(** After [render()], however often the header is clicked and whether or
    not the storage takes the writes, the panel shows what [expanded] says:
    the content is hidden exactly when it is false, [aria-expanded] and the
    arrow agree with it; and [expanded] is true after an odd number of
    clicks on a collapsed panel and after an even number on an expanded
    one. *)
Theorem panel_follows_clicks n m ls :
  let m' := fst (clicks n (render m) ls) in
  elements m' =
    Some {| content_hidden := negb (truthy (expanded m'));
            aria_expanded := truthy (expanded m');
            toggle_arrow := if truthy (expanded m') then ArrowDown else ArrowRight |} /\
  truthy (expanded m') = xorb (Nat.odd n) (truthy (expanded m)) /\
  modalId m' = modalId m.
Proof.
  intros m'. destruct (clicks_spec n (render m) ls) as (H1 & H2 & _ & _ & H5).
  fold m' in H1, H2, H5.
  assert (expanded (render m) = expanded m /\ modalId (render m) = modalId m /\
          elements (render m) =
            Some {| content_hidden := negb (truthy (expanded m));
                    aria_expanded := truthy (expanded m);
                    toggle_arrow := if truthy (expanded m) then ArrowDown else ArrowRight |})
    as (He & Hid & Hel).
  { unfold render. by destruct (truthy (expanded m)) eqn:E. }
  rewrite He in H2. rewrite Hid in H1. split_and!; try done.
  destruct (H5 _ Hel) as [H0 HS]. destruct n as [|n].
  - rewrite (H0 eq_refl). subst m'. simpl. by rewrite He.
  - by apply HS.
Qed.

(** ** The schema *)

Lemma initializeSchema_present ls v :
  readable ls = true -> items ls !! VERSION_KEY = Some v -> v <> ""%string ->
  initializeSchema ls = (ls, false).
Proof.
  intros Hr Hv Hne. unfold initializeSchema, getItem. rewrite Hr.
  fold VERSION_KEY. rewrite Hv. by destruct v.
Qed.

(** The first [initializeSchema()] on a storage without a version (or with
    an empty one) that takes the writes: the version is ['1.0.0'], the
    panel states are reset to ['{}'] whatever they were, every other key is
    untouched; a panel constructed afterwards is collapsed; and
    [initializeSchema()] run again changes nothing. *)
Theorem initializeSchema_first_run ls :
  readable ls = true ->
  items ls !! VERSION_KEY = None \/ items ls !! VERSION_KEY = Some ""%string ->
  accepts ls VERSION_KEY "1.0.0" = true -> accepts ls STATE_KEY "{}" = true ->
  JSON_parse "{}" = Some (VObj []) ->
  let ls' := fst (initializeSchema ls) in
  snd (initializeSchema ls) = false /\
  items ls' !! VERSION_KEY = Some "1.0.0"%string /\
  items ls' !! STATE_KEY = Some "{}"%string /\
  (forall k, k <> VERSION_KEY -> k <> STATE_KEY -> items ls' !! k = items ls !! k) /\
  (forall modalId', expanded (new ls' modalId') = VBool false) /\
  initializeSchema ls' = (ls', false).
Proof.
  intros Hr Hv Ha1 Ha2 Hp ls'.
  assert (initializeSchema ls =
            ({| items := <[STATE_KEY := "{}"%string]>
                           (<[VERSION_KEY := "1.0.0"%string]> (items ls));
                readable := readable ls; accepts := accepts ls |}, false)) as E.
  { unfold initializeSchema, getItem, setItem. rewrite Hr. fold VERSION_KEY.
    assert (match items ls !! VERSION_KEY with
            | Some (String _ _) => False | _ => True end) as Hm
      by (by destruct Hv as [-> | ->]).
    destruct (items ls !! VERSION_KEY) as [[|]|]; try done;
      simpl; rewrite Ha1; simpl; by rewrite Ha2. }
  subst ls'. rewrite E. cbn [fst snd]. split_and!; try done.
  - simpl. by rewrite lookup_insert_ne, lookup_insert_eq.
  - simpl. by rewrite lookup_insert_eq.
  - intros k H1 H2. simpl. by rewrite !lookup_insert_ne.
  - intros modalId'. unfold new, loadExpandedState, getItem. simpl. rewrite Hr.
    simpl. rewrite lookup_insert_eq. simpl. by rewrite Hp.
  - apply (initializeSchema_present _ "1.0.0"); try done.
    simpl. by rewrite lookup_insert_ne, lookup_insert_eq.
Qed.

End WithPlatform.

Lemma loadExpandedState_fail_safe_witness :
  @loadExpandedState Ref.platform locked_storage = VBool false.
Proof.
  exact (proj1 (proj2 (@loadExpandedState_fail_safe Ref.platform locked_storage))
           eq_refl).
Defined.

Lemma toggle_reaches_every_modal_witness :
  let m := collapsed_panel "a" in
  expanded (@new Ref.platform
              (snd (fst (@toggle Ref.platform m empty_storage))) "b") = VBool true.
Proof.
  intros m.
  refine (proj2 (proj2 (proj2 (proj2
            (@toggle_reaches_every_modal Ref.platform m empty_storage [] "b"
               eq_refl _ eq_refl _ _))))).
  - vm_compute. reflexivity.
  - vm_compute. discriminate.
  - vm_compute. reflexivity.
Defined.

Lemma initializeSchema_first_run_witness :
  items (fst (initializeSchema empty_storage)) !! STATE_KEY = Some "{}"%string /\
  initializeSchema (fst (initializeSchema empty_storage)) =
    (fst (initializeSchema empty_storage), false).
Proof.
  assert (@JSON_parse Ref.platform "{}" = Some (VObj [])) as Hp
    by (vm_compute; reflexivity).
  destruct (@initializeSchema_first_run Ref.platform empty_storage eq_refl
              (or_introl eq_refl) eq_refl eq_refl Hp)
    as (_ & _ & Hs & _ & _ & Hi).
  split; [exact Hs|exact Hi].
Defined.

End SettingsFacts.
